(** * Copy-FolderTree: tree building, pruning and rendering

    A shallow embedding of the VS Code extension's core (extension.ts in its
    successive variants, and the compiled src/extension.js):

    - [buildTree]        walks a directory, applying the exclude patterns;
    - [buildPrunedTree]  (and the older [pruneTreeForSelection]) prune a tree
                         to the selected folders;
    - [renderTree]       prints a tree with connectors and indentation.

    Strings are sequences of code units; the development is exact on the
    7-bit range, where a code unit is one [ascii]. *)

From stdpp Require Import base option list strings.
From Stdlib Require Import Ascii ZArith Lia.

Local Open Scope string_scope.
Local Open Scope list_scope.
Local Open Scope nat_scope.

(** ** Data model *)

(** [interface TreeNode { name: string; fullPath: string; children?: TreeNode[] }].
    The optional [children] field is an [option]: [None] is an absent field. *)
#[warnings="-register-all"]
Inductive TreeNode : Type :=
  mkNode { name : string; fullPath : string; children : option (list TreeNode) }.

(** The tree of the older variants and of the compiled extension.js:
    [interface TreeNode { name: string; children?: TreeNode[] }]. *)
#[warnings="-register-all"]
Inductive Item : Type :=
  mkItem { item_name : string; item_children : option (list Item) }.

(** A node of the current variant, seen by code of the older ones. *)
Fixpoint forgetPath (t : TreeNode) : Item :=
  match t with
  | mkNode n _ None => mkItem n None
  | mkNode n _ (Some cs) => mkItem n (Some (map forgetPath cs))
  end.

(** Induction over the tree, with the children handled by [Forall]. *)
Section TreeNode_induction.
Variable P : TreeNode → Prop.
Hypothesis P_absent : ∀ n p, P (mkNode n p None).
Hypothesis P_present : ∀ n p cs, Forall P cs → P (mkNode n p (Some cs)).

Fixpoint TreeNode_rose_ind (t : TreeNode) : P t :=
  match t with
  | mkNode n p None => P_absent n p
  | mkNode n p (Some cs) =>
      P_present n p cs
        ((fix all (l : list TreeNode) : Forall P l :=
            match l with
            | [] => Forall_nil_2 P
            | c :: l' => Forall_cons_2 P c l' (TreeNode_rose_ind c) (all l')
            end) cs)
  end.
End TreeNode_induction.

(** The line break of a template literal's [\n]. *)
Definition LF : string := String "010"%char "".

(** Number of nodes of a tree. *)
Fixpoint tree_size (t : TreeNode) : nat :=
  match t with
  | mkNode _ _ None => 1
  | mkNode _ _ (Some cs) => S (sum_list (map tree_size cs))
  end.

(** All nodes of a tree, in depth-first order. *)
Fixpoint tree_nodes (t : TreeNode) : list TreeNode :=
  t :: match t with
       | mkNode _ _ None => []
       | mkNode _ _ (Some cs) => concat (map tree_nodes cs)
       end.

(** The [children] field is present on every node of the tree. *)
Definition childrenPresent (t : TreeNode) : Prop :=
  Forall (fun m => is_Some (children m)) (tree_nodes t).

(** ** Renderer *)

Definition connector (isLast : bool) : string :=
  if isLast then "└── " else "├── ".

Definition indent (isLast : bool) : string :=
  if isLast then "    " else "│   ".

(** [children.forEach((child, index) => { const last = index ===
    children.length - 1; line += render(child, last); })], from [index] on. *)
Definition forEachChild {T : Type} (render : T → bool → string) (count : nat)
  : list T → nat → string → string :=
  fix forEach (l : list T) (index : nat) (line : string) : string :=
    match l with
    | [] => line
    | child :: l' =>
        let last := Nat.eqb index (count - 1) in
        forEach l' (S index) (line +:+ render child last)
    end.

(** [children.map((child, index) => render(child, index === children.length
    - 1))], from [index] on. *)
Definition mapChild {T : Type} (render : T → bool → string) (count : nat)
  : list T → nat → list string :=
  fix map_index (l : list T) (index : nat) : list string :=
    match l with
    | [] => []
    | child :: l' => render child (Nat.eqb index (count - 1)) :: map_index l' (S index)
    end.

(** [renderTree] of extension.ts: the line of the node and, when there are
    children, the [forEach] that appends theirs. *)
Fixpoint renderTree (node : TreeNode) (prefix : string) (isLast : bool) : string :=
  let line := prefix +:+ connector isLast +:+ name node +:+ LF in
  match node with
  | mkNode _ _ None => line
  | mkNode _ _ (Some []) => line
  | mkNode _ _ (Some cs) =>
      let newPrefix := prefix +:+ indent isLast in
      forEachChild (fun child last => renderTree child newPrefix last)
        (length cs) cs 0 line
  end.

(** [Array.prototype.join('')]. *)
Definition join_empty (l : list string) : string := foldr String.append "" l.

(** [renderTree] of the compiled extension.js (and of the two earliest
    variants): no early return; [const children = tree.children || []], then
    [children.map(...)] and [join('')]. *)
Fixpoint renderTree_js (tree : Item) (prefix : string) (isLast : bool) : string :=
  let result := prefix +:+ connector isLast +:+ item_name tree +:+ LF in
  let newPrefix := prefix +:+ indent isLast in
  match tree with
  | mkItem _ None => result +:+ join_empty []
  | mkItem _ (Some cs) =>
      result +:+ join_empty
                   (mapChild (fun child last => renderTree_js child newPrefix last)
                      (length cs) cs 0)
  end.

(** The lines of the specification's renderer, one per node: a child is a
    last child when no sibling follows it. *)
Definition siblingLines {T : Type} (lines : T → bool → list string)
  : list T → list string :=
  fix siblings (l : list T) : list string :=
    match l with
    | [] => []
    | c :: l' => lines c (match l' with [] => true | _ => false end) ++ siblings l'
    end.

Fixpoint treeLines (t : TreeNode) (prefix : string) (isLast : bool) : list string :=
  (prefix +:+ connector isLast +:+ name t +:+ LF)
  :: match t with
     | mkNode _ _ None => []
     | mkNode _ _ (Some cs) =>
         siblingLines (fun c last => treeLines c (prefix +:+ indent isLast) last) cs
     end.

(** [render(tree)]: the host calls [renderTree] with its default arguments. *)
Definition render (tree : TreeNode) : string := renderTree tree "" true.

(** ** Host libraries *)

(** Node's [path] module, as far as the extension uses it. *)
Class PathModule : Type := {
  path_normalize : string → string;
  path_relative : string → string → string;
  path_join : string → string → string;
  path_basename : string → string }.

(** What a call evaluates to: a value, or an uncaught exception. *)
Inductive exn : Type :=
  | TypeError
  | SyntaxError
  | FilesystemError
  | OutsideModel  (* not an exception: the run leaves what a host model covers *).

Inductive outcome (A : Type) : Type :=
  | Returns (a : A)
  | Throws (e : exn).
Arguments Returns {A} a.
Arguments Throws {A} e.

#[global] Instance outcome_bind : MBind outcome := λ A B k m,
  match m with
  | Returns a => k a
  | Throws e => Throws e
  end.

(** [arr[i]] for a JavaScript number [i]: [undefined] out of range. *)
Definition index {A : Type} (arr : list A) (i : Z) : option A :=
  if (i <? 0)%Z then None else arr !! Z.to_nat i.

(** ** Pruner *)

(** The node pushed for omitted siblings. *)
Definition placeholder : TreeNode := mkNode "..." "" (Some []).

(** The node returned when no selection is found in the tree. *)
Definition emptyNode : TreeNode := mkNode "(empty)" "" (Some []).

(** [deepCloneTree]: [children: node.children ? node.children.map(deepCloneTree) : []]. *)
Fixpoint deepCloneTree (node : TreeNode) : TreeNode :=
  match node with
  | mkNode n p None => mkNode n p (Some [])
  | mkNode n p (Some cs) => mkNode n p (Some (map deepCloneTree cs))
  end.

(** The [for (const child of ...)] loop shared by both [pruneChildren]
    variants: relevant siblings are pushed (after [keep] updated them), an
    irrelevant one only raises the flag. *)
Definition siblingLoop (relevantTo : TreeNode → bool) (keep : TreeNode → TreeNode)
  : list TreeNode → list TreeNode → bool → list TreeNode * bool :=
  fix loop (nodes relevant : list TreeNode) (hadIrrelevant : bool) :=
    match nodes with
    | [] => (relevant, hadIrrelevant)
    | node :: rest =>
        if relevantTo node
        then loop rest (relevant ++ [keep node]) hadIrrelevant
        else loop rest relevant true
    end.

(** [if (hadIrrelevant) relevant.push({name: '...', fullPath: '', children: []})]. *)
Definition pushPlaceholder (r : list TreeNode * bool) : list TreeNode :=
  if r.2 then r.1 ++ [placeholder] else r.1.

Section Pruner.
Context {pathLib : PathModule}.

(** [!path.relative(possibleAncestor, possibleDescendant).startsWith('..')]. *)
Definition isAncestorOrSelf (possibleAncestor possibleDescendant : string) : bool :=
  negb (String.prefix ".." (path_relative possibleAncestor possibleDescendant)).

(** [isRelevant] (named [isNodeRelevant] in the older variant). *)
Definition isRelevant (node : TreeNode) (selectedPaths : list string) : bool :=
  existsb (fun folderPath =>
             isAncestorOrSelf (fullPath node) folderPath
             || isAncestorOrSelf folderPath (fullPath node)) selectedPaths.

(** [pruneChildren(root, selectedFolderPaths)] of the current variant. The
    node is updated in place and returned; a kept child is the child with
    [child.children = pruneChildren(child, ...).children]. *)
Fixpoint pruneChildren (root : TreeNode) (selectedFolderPaths : list string) : TreeNode :=
  match root with
  | mkNode n p None => root
  | mkNode n p (Some []) => root
  | mkNode n p (Some cs) =>
      mkNode n p
        (Some (pushPlaceholder
                 (siblingLoop
                    (fun child => isRelevant child selectedFolderPaths)
                    (fun child =>
                       mkNode (name child) (fullPath child)
                         (children (pruneChildren child selectedFolderPaths)))
                    cs [] false)))
  end.

(** What the specification keeps of a list of siblings: the relevant
    ones, pruned, in their order. *)
Definition keptChildren (siblings : list TreeNode) (sel : list string) : list TreeNode :=
  map (fun c => pruneChildren c sel) (List.filter (fun c => isRelevant c sel) siblings).

Definition hasIrrelevant (siblings : list TreeNode) (sel : list string) : bool :=
  existsb (fun c => negb (isRelevant c sel)) siblings.

(** The older variant prunes a list of siblings. Its relevant branch, [if
    (node.children && node.children.length > 0) node.children =
    pruneChildren(node.children, ...)], is [pruneKept]. *)
Fixpoint pruneKept (node : TreeNode) (selectedFolderPaths : list string) : TreeNode :=
  match node with
  | mkNode n p None => node
  | mkNode n p (Some []) => node
  | mkNode n p (Some cs) =>
      mkNode n p
        (Some (pushPlaceholder
                 (siblingLoop
                    (fun node => isRelevant node selectedFolderPaths)
                    (fun node => pruneKept node selectedFolderPaths)
                    cs [] false)))
  end.

(** [pruneChildren(nodes, selectedFolderPaths)] of the older variant. *)
Definition pruneChildrenOf (nodes : list TreeNode) (selectedFolderPaths : list string)
  : list TreeNode :=
  pushPlaceholder
    (siblingLoop (fun node => isRelevant node selectedFolderPaths)
       (fun node => pruneKept node selectedFolderPaths) nodes [] false).

(** [pruneTreeForSelection] of the older variant: the workspace root is
    always kept. *)
Definition pruneTreeForSelection (root : TreeNode) (selectedFolderPaths : list string)
  : TreeNode :=
  let cloned := deepCloneTree root in
  match children cloned with
  | Some cs => mkNode (name cloned) (fullPath cloned)
                 (Some (pruneChildrenOf cs selectedFolderPaths))
  | None => cloned
  end.

(** The [for (const child of root.children)] loop of [findPath]: the first
    child below which the target is found. *)
Definition firstChildPath (root : TreeNode) (find : TreeNode → option (list TreeNode))
  : list TreeNode → option (list TreeNode) :=
  fix each (l : list TreeNode) : option (list TreeNode) :=
    match l with
    | [] => None
    | child :: l' =>
        match find child with
        | Some childPath => Some (root :: childPath)
        | None => each l'
        end
    end.

(** [findPath]: depth-first, the first node whose normalized path is the
    normalized target. *)
Fixpoint findPath (root : TreeNode) (targetPath : string) : option (list TreeNode) :=
  if String.eqb (path_normalize (fullPath root)) (path_normalize targetPath)
  then Some [root]
  else
    match root with
    | mkNode _ _ None => None
    | mkNode _ _ (Some cs) =>
        firstChildPath root (fun child => findPath child targetPath) cs
    end.

(** [paths.every(pathArr => path.normalize(pathArr[i].fullPath) ===
    path.normalize(candidate))]; [i < minLen], so every [pathArr[i]] exists. *)
Definition agreeAt (paths : list (list TreeNode)) (i : nat) (candidate : string) : bool :=
  forallb (fun pathArr =>
             match pathArr !! i with
             | Some n => String.eqb (path_normalize (fullPath n)) (path_normalize candidate)
             | None => false
             end) paths.

(** The [for (let i = 0; i < minLen; i++)] loop, [steps = minLen - i]. *)
Fixpoint lcaLoop (paths : list (list TreeNode)) (first : list TreeNode)
    (i steps : nat) (lastCommonIndex : Z) : Z :=
  match steps with
  | 0 => lastCommonIndex
  | S steps' =>
      match first !! i with
      | Some n =>
          if agreeAt paths i (fullPath n)
          then lcaLoop paths first (S i) steps' (Z.of_nat i)
          else lastCommonIndex
      | None => lastCommonIndex
      end
  end.

(** [Math.min(...paths.map(p => p.length))] of a non-empty array. *)
Definition minLength (first : list TreeNode) (others : list (list TreeNode)) : nat :=
  foldl Nat.min (length first) (map length others).

(** [findLowestCommonAncestor]; [None] is [null] (or the [undefined] of an
    out-of-range read). *)
Definition findLowestCommonAncestor (paths : list (list TreeNode)) : option TreeNode :=
  match paths with
  | [] => None
  | [only] => index only (Z.of_nat (length only) - 1)
  | first :: others =>
      let minLen := minLength first others in
      let lastCommonIndex := lcaLoop paths first 0 minLen (-1) in
      if (lastCommonIndex <? 0)%Z then None else index first lastCommonIndex
  end.

(** Step 1 of [buildPrunedTree]: the paths that were found, in order. *)
Definition selectionPaths (root : TreeNode) (selectedFolderPaths : list string)
  : list (list TreeNode) :=
  omap (findPath root) selectedFolderPaths.

(** [buildPrunedTree], the [prune] of the specification. Reading a field
    of [undefined] throws a [TypeError]. *)
Definition buildPrunedTree (root : TreeNode) (selectedFolderPaths : list string)
  : outcome TreeNode :=
  let paths := selectionPaths root selectedFolderPaths in
  match paths with
  | [] => Returns emptyNode
  | first :: _ =>
      match findLowestCommonAncestor paths with
      | None => Returns root
      | Some lcaNode =>
          let singleFolder := Nat.eqb (length selectedFolderPaths) 1 in
          let lcaIsSingleFolder :=
            singleFolder &&
            match selectedFolderPaths with
            | s :: _ => String.eqb (path_normalize (fullPath lcaNode)) (path_normalize s)
            | [] => false
            end in
          newRoot ←
            (if singleFolder && lcaIsSingleFolder then Returns lcaNode
             else if singleFolder
                  then match index first (Z.of_nat (length first) - 1) with
                       | Some n => Returns n
                       | None => Throws TypeError
                       end
                  else Returns lcaNode);
          let clonedSubtree := deepCloneTree newRoot in
          Returns (pruneChildren clonedSubtree selectedFolderPaths)
      end
  end.

(** *** Notions of the specification *)

(** A root-to-selection path: every node is a child of the one before. *)
Fixpoint descends (path : list TreeNode) : Prop :=
  match path with
  | [] => True
  | a :: rest =>
      match rest with
      | [] => True
      | b :: _ => b ∈ default [] (children a)
      end ∧ descends rest
  end.

(** Two nodes stand for the same entry. *)
Definition sameEntry (a b : TreeNode) : Prop :=
  name a = name b ∧ fullPath a = fullPath b.

(** Every node of [out] is a placeholder or an entry of the subtree [sub]. *)
Definition withinSubtree (out sub : TreeNode) : Prop :=
  ∀ m, m ∈ tree_nodes out →
       m = placeholder ∨ ∃ m', m' ∈ tree_nodes sub ∧ sameEntry m m'.

(** All paths have a node at depth [i], with one normalized full path. *)
Definition commonAt (paths : list (list TreeNode)) (i : nat) : Prop :=
  ∃ common, ∀ p, p ∈ paths →
    ∃ n, p !! i = Some n ∧ path_normalize (fullPath n) = common.

(** Depth [d] is where the paths stop agreeing. *)
Definition deepestCommon (paths : list (list TreeNode)) (d : nat) : Prop :=
  (∀ i, i ≤ d → commonAt paths i) ∧ ¬ commonAt paths (S d).
End Pruner.

(** ** A model of Node's POSIX [path] module

    Paths are split at ['/'] into segments; [cwd] is the working directory
    that [path.relative] resolves relative arguments against. *)
Module Posix.

Fixpoint segments (s : string) : list string :=
  match s with
  | "" => [""]
  | String c s' =>
      if Ascii.eqb c "/"
      then "" :: segments s'
      else match segments s' with
           | seg :: rest => String c seg :: rest
           | [] => [String c ""]
           end
  end.

Fixpoint joinWith (sep : string) (l : list string) : string :=
  match l with
  | [] => ""
  | [x] => x
  | x :: l' => x +:+ sep +:+ joinWith sep l'
  end.

(** One step of [normalizeString]; [stack] holds the kept segments, last
    first. *)
Definition pushSegment (allowAboveRoot : bool) (stack : list string) (seg : string)
  : list string :=
  if String.eqb seg "" || String.eqb seg "." then stack
  else if String.eqb seg ".."
       then match stack with
            | top :: below =>
                if String.eqb top ".."
                then (if allowAboveRoot then seg :: stack else stack)
                else below
            | [] => if allowAboveRoot then [seg] else []
            end
       else seg :: stack.

Definition normalizeSegments (allowAboveRoot : bool) (segs : list string) : list string :=
  rev (foldl (pushSegment allowAboveRoot) [] segs).

Definition isAbsolute (p : string) : bool := String.prefix "/" p.

Definition endsWithSlash (p : string) : bool :=
  match last (segments p) with
  | Some "" => negb (String.eqb p "")
  | _ => false
  end.

Definition normalize (p : string) : string :=
  if String.eqb p "" then "."
  else
    let body := joinWith "/" (normalizeSegments (negb (isAbsolute p)) (segments p)) in
    if String.eqb body ""
    then (if isAbsolute p then "/" else if endsWithSlash p then "./" else ".")
    else (if isAbsolute p then "/" else "") +:+ body
         +:+ (if endsWithSlash p then "/" else "").

(** [path.resolve(p)], as the segments below the root. *)
Definition resolve (cwd p : string) : list string :=
  if isAbsolute p
  then normalizeSegments false (segments p)
  else normalizeSegments false (segments cwd ++ segments p).

Fixpoint dropCommon (from to : list string) : list string * list string :=
  match from, to with
  | f :: from', t :: to' =>
      if String.eqb f t then dropCommon from' to' else (from, to)
  | _, _ => (from, to)
  end.

Definition relative (cwd from to : string) : string :=
  if String.eqb from to then ""
  else
    let '(up, down) := dropCommon (resolve cwd from) (resolve cwd to) in
    joinWith "/" (map (fun _ => "..") up ++ down).

Definition join (a b : string) : string :=
  if String.eqb a "" then (if String.eqb b "" then "." else normalize b)
  else if String.eqb b "" then normalize a
       else normalize (a +:+ "/" +:+ b).

Definition basename (p : string) : string :=
  default "" (last (filter (fun seg => seg ≠ "") (segments p))).

Definition pathModule (cwd : string) : PathModule :=
  {| path_normalize := normalize;
     path_relative := relative cwd;
     path_join := join;
     path_basename := basename |}.

End Posix.

(** ** Tree builder *)

(** The [RegExp] built-in: [new RegExp(source)] (no flags) and [test]. *)
Class RegExpEngine : Type := {
  RegExp : Type;
  RegExp_new : string → outcome RegExp;
  RegExp_test : RegExp → string → bool }.

(** The file system below a path: what [fs.statSync] and [fs.readdirSync]
    report. [FsBroken] is an entry whose [statSync] throws (a dangling link,
    a permission error). *)
#[warnings="-register-all"]
Inductive FsEntry : Type :=
  | FsFile
  | FsDir (entries : list (string * FsEntry))
  | FsBroken.

(** [String.prototype.replace(search, replacement)] for a one-character
    search string: only the first occurrence is replaced. *)
Fixpoint replaceFirst (search : ascii) (replacement : string) (s : string) : string :=
  match s with
  | "" => ""
  | String c rest =>
      if Ascii.eqb c search then replacement +:+ rest
      else String c (replaceFirst search replacement rest)
  end.

(** [Array.prototype.some] with a callback that may throw. *)
Fixpoint some {A : Type} (f : A → outcome bool) (l : list A) : outcome bool :=
  match l with
  | [] => Returns false
  | x :: l' => b ← f x; if b : bool then Returns true else some f l'
  end.

(** The callbacks of a [filter] or [map], run in order. *)
Fixpoint forEachOutcome {A B : Type} (f : A → outcome B) (l : list A) : outcome (list B) :=
  match l with
  | [] => Returns []
  | x :: l' => y ← f x; ys ← forEachOutcome f l'; Returns (y :: ys)
  end.

(** The [entries.map(entry => build(entry))] of [buildTree], over the entries
    that the [filter] before it kept: [excluded] holds the verdict on each
    entry, in order. *)
Definition mapKept {T : Type} (build : string → FsEntry → outcome T)
  : list (string * FsEntry) → list bool → outcome (list T) :=
  fix mapKept (l : list (string * FsEntry)) (excluded : list bool) : outcome (list T) :=
    match l, excluded with
    | (entry, sub) :: l', isExcluded :: excluded' =>
        if isExcluded : bool then mapKept l' excluded'
        else c ← build entry sub; cs ← mapKept l' excluded'; Returns (c :: cs)
    | _, _ => Returns []
    end.

(** Induction over the file system, with the entries handled by [Forall]. *)
Section FsEntry_induction.
Variable P : FsEntry → Prop.
Hypothesis P_file : P FsFile.
Hypothesis P_broken : P FsBroken.
Hypothesis P_dir : ∀ entries, Forall (fun e => P e.2) entries → P (FsDir entries).

Fixpoint FsEntry_rose_ind (fs : FsEntry) : P fs :=
  match fs with
  | FsFile => P_file
  | FsBroken => P_broken
  | FsDir entries =>
      P_dir entries
        ((fix all (l : list (string * FsEntry)) : Forall (fun e => P e.2) l :=
            match l with
            | [] => Forall_nil_2 _
            | (n, e) :: l' =>
                Forall_cons_2 (fun e => P e.2) (n, e) l' (FsEntry_rose_ind e) (all l')
            end) entries)
  end.
End FsEntry_induction.

(** Every entry below can be statted. *)
Fixpoint statable (fs : FsEntry) : Prop :=
  match fs with
  | FsFile => True
  | FsBroken => False
  | FsDir entries =>
      (fix all (l : list (string * FsEntry)) : Prop :=
         match l with
         | [] => True
         | (_, e) :: l' => statable e ∧ all l'
         end) entries
  end.

(** All nodes of an item, in depth-first order. *)
Fixpoint item_nodes (t : Item) : list Item :=
  t :: match t with
       | mkItem _ None => []
       | mkItem _ (Some cs) => concat (map item_nodes cs)
       end.

Definition itemChildrenPresent (t : Item) : Prop :=
  Forall (fun m => is_Some (item_children m)) (item_nodes t).

(** A character occurs in a string. *)
Fixpoint occurs (c : ascii) (s : string) : bool :=
  match s with
  | "" => false
  | String c' s' => Ascii.eqb c' c || occurs c s'
  end.

Section Builder.
Context {pathLib : PathModule} {regexpLib : RegExpEngine}.

(** [new RegExp(pattern.replace('*', '.*'))]. *)
Definition patternRegExp (pattern : string) : outcome RegExp :=
  RegExp_new (replaceFirst "*" ".*" pattern).

(** [excludePatterns.some(pattern => { const regex = ...; return
    regex.test(entry) || regex.test(fullEntryPath); })]. *)
Definition isExcluded (dirPath : string) (excludePatterns : list string) (entry : string)
  : outcome bool :=
  let fullEntryPath := path_join dirPath entry in
  some (fun pattern =>
          regex ← patternRegExp pattern;
          Returns (RegExp_test regex entry || RegExp_test regex fullEntryPath))
    excludePatterns.

(** [path.basename(dirPath) || dirPath]. *)
Definition nodeName (dirPath : string) : string :=
  if String.eqb (path_basename dirPath) "" then dirPath else path_basename dirPath.

(** [buildTree] of extension.ts; [fs] is what lies at [dirPath]. The
    [filter] pass runs over every entry first ([excluded] holds its
    verdicts), then the [map] pass ([mapKept]) recurses into the entries that
    were kept. *)
Fixpoint buildTree (dirPath : string) (fs : FsEntry) (excludePatterns : list string)
  : outcome TreeNode :=
  match fs with
  | FsBroken => Throws FilesystemError
  | FsFile => Returns (mkNode (nodeName dirPath) dirPath (Some []))
  | FsDir entries =>
      excluded ← forEachOutcome (isExcluded dirPath excludePatterns) entries.*1;
      cs ← mapKept
             (fun entry sub => buildTree (path_join dirPath entry) sub excludePatterns)
             entries excluded;
      Returns (mkNode (nodeName dirPath) dirPath (Some cs))
  end.

(** [buildTree] of the compiled extension.js and the two earliest variants:
    the node carries no path, and its name is the bare [basename]. *)
Fixpoint buildTree_js (dirPath : string) (fs : FsEntry) (excludePatterns : list string)
  : outcome Item :=
  match fs with
  | FsBroken => Throws FilesystemError
  | FsFile => Returns (mkItem (path_basename dirPath) (Some []))
  | FsDir entries =>
      excluded ← forEachOutcome (isExcluded dirPath excludePatterns) entries.*1;
      cs ← mapKept
             (fun entry sub => buildTree_js (path_join dirPath entry) sub excludePatterns)
             entries excluded;
      Returns (mkItem (path_basename dirPath) (Some cs))
  end.

(** *** Notions of the specification *)

(** Every pattern yields a regular expression, [compiled pattern]. *)
Definition compiles (compiled : string → RegExp) (excludePatterns : list string) : Prop :=
  Forall (fun pattern => patternRegExp pattern = Returns (compiled pattern))
    excludePatterns.

(** A pattern matches an entry: its regular expression is found in the bare
    name or in the full path. *)
Definition matchedBy (compiled : string → RegExp) (dirPath entry pattern : string) : bool :=
  RegExp_test (compiled pattern) entry
  || RegExp_test (compiled pattern) (path_join dirPath entry).

(** The entries of a directory that no pattern matches. *)
Definition keptEntries (compiled : string → RegExp) (dirPath : string)
    (excludePatterns : list string) (entries : list (string * FsEntry))
  : list (string * FsEntry) :=
  List.filter (fun e => negb (existsb (matchedBy compiled dirPath e.1) excludePatterns))
    entries.
End Builder.

(** ** A model of [RegExp] on a fragment of the pattern syntax

    Ordinary characters, [.] and a postfix [*]. A [*] with nothing to repeat
    is a [SyntaxError], as in ECMAScript; any other syntax character leaves
    the fragment. *)
Module Regex.

Inductive atom : Type := Lit (c : ascii) | Dot.

Record item : Type := mkRepeat { it_atom : atom; it_star : bool }.

Definition isSyntaxCharacter (c : ascii) : bool :=
  existsb (Ascii.eqb c) (String.list_ascii_of_string "\^$+?()[]{}|").

Definition isLineTerminator (c : ascii) : bool :=
  Ascii.eqb c "010" || Ascii.eqb c "013".

(** [parsed] holds the items read so far, last first. *)
Fixpoint parse (source : string) (parsed : list item) : outcome (list item) :=
  match source with
  | "" => Returns (rev parsed)
  | String c rest =>
      if Ascii.eqb c "*"
      then match parsed with
           | mkRepeat a false :: before => parse rest (mkRepeat a true :: before)
           | _ => Throws SyntaxError
           end
      else if Ascii.eqb c "." then parse rest (mkRepeat Dot false :: parsed)
      else if isSyntaxCharacter c then Throws OutsideModel
      else parse rest (mkRepeat (Lit c) false :: parsed)
  end.

Definition atomMatches (a : atom) (c : ascii) : bool :=
  match a with
  | Lit c' => Ascii.eqb c c'
  | Dot => negb (isLineTerminator c)
  end.

(** Some prefix of [s] matches the items. *)
Fixpoint matchHere (r : list item) (s : string) : bool :=
  match r with
  | [] => true
  | it :: r' =>
      if it_star it
      then (fix star (s : string) : bool :=
              matchHere r' s
              || match s with
                 | String c s' => atomMatches (it_atom it) c && star s'
                 | "" => false
                 end) s
      else match s with
           | String c s' => atomMatches (it_atom it) c && matchHere r' s'
           | "" => false
           end
  end.

(** [regex.test(s)]: a match starting anywhere in [s]. *)
Fixpoint test (r : list item) (s : string) : bool :=
  matchHere r s
  || match s with
     | String _ s' => test r s'
     | "" => false
     end.

(** The regular expression of a pattern that yields one. *)
Definition compiled (pattern : string) : list item :=
  match parse (replaceFirst "*" ".*" pattern) [] with
  | Returns r => r
  | Throws _ => []
  end.

Definition engine : RegExpEngine :=
  {| RegExp := list item;
     RegExp_new := fun source => parse source [];
     RegExp_test := test |}.

End Regex.

(** ** The pruner on objects

    JavaScript trees are objects with identity. A heap is the list of the
    node objects allocated so far, an object's address being its position;
    [children] holds the addresses of the child objects. (The array objects
    themselves are kept as values: the only arrays the code writes to are the
    fresh [relevantChildren] and [paths], before they are stored.) A run
    gives no result when it is out of fuel or reads a field of [undefined]. *)
Module Heap.

(** An address: the position of an object in the heap. *)
Abbreviation loc := nat.

Record NodeObj : Type :=
  mkObj { o_name : string; o_fullPath : string; o_children : option (list loc) }.

Definition Run (A : Type) : Type := list NodeObj → option (A * list NodeObj).

Definition ret {A : Type} (a : A) : Run A := λ h, Some (a, h).

#[global] Instance run_ret : MRet Run := @ret.

#[global] Instance run_bind : MBind Run := λ A B k m h,
  match m h with
  | Some (a, h') => k a h'
  | None => None
  end.

Definition stuck {A : Type} : Run A := λ _, None.

(** Reading the fields of the object at [l]. *)
Definition readObj (l : loc) : Run NodeObj := λ h,
  match h !! l with
  | Some o => Some (o, h)
  | None => None
  end.

(** An object literal: a new object. *)
Definition alloc (o : NodeObj) : Run loc := λ h, Some (length h, h ++ [o]).

(** [node.children = cs]. *)
Definition setChildren (l : loc) (cs : option (list loc)) : Run unit := λ h,
  match h !! l with
  | Some o => Some ((), <[l := mkObj (o_name o) (o_fullPath o) cs]> h)
  | None => None
  end.

Fixpoint forEachRun {A B : Type} (f : A → Run B) (l : list A) : Run (list B) :=
  match l with
  | [] => ret []
  | x :: l' => y ← f x; ys ← forEachRun f l'; ret (y :: ys)
  end.

Definition placeholderObj : NodeObj := mkObj "..." "" (Some []).

Definition emptyObj : NodeObj := mkObj "(empty)" "" (Some []).

(** [deepCloneTree]: a new object for the node, new objects for its
    descendants. (An address only names an object: whether the copy is
    allocated before or after the copies of its children is immaterial.) *)
Fixpoint deepCloneTree (fuel : nat) (node : loc) : Run loc :=
  match fuel with
  | 0 => stuck
  | S fuel =>
      o ← readObj node;
      cs ← match o_children o with
            | Some cs => forEachRun (deepCloneTree fuel) cs
            | None => ret []
            end;
      alloc (mkObj (o_name o) (o_fullPath o) (Some cs))
  end.

Section Programs.
Context {pathLib : PathModule}.

(** [isRelevant], from the [fullPath] field of the object. *)
Definition isRelevant (o : NodeObj) (selectedPaths : list string) : bool :=
  existsb (fun folderPath =>
             isAncestorOrSelf (o_fullPath o) folderPath
             || isAncestorOrSelf folderPath (o_fullPath o)) selectedPaths.

(** The [for (const child of root.children)] loop of [pruneChildren]: a
    relevant child gets [child.children = pruneChildren(child, ...).children]
    and is pushed. *)
Definition siblingLoop (prune : loc → Run loc) (selectedFolderPaths : list string)
  : list loc → list loc → bool → Run (list loc * bool) :=
  fix loop (nodes relevantChildren : list loc) (hasIrrelevant : bool) :=
    match nodes with
    | [] => ret (relevantChildren, hasIrrelevant)
    | child :: rest =>
        o ← readObj child;
        if isRelevant o selectedFolderPaths
        then pruned ← prune child;
             po ← readObj pruned;
             setChildren child (o_children po);;
             loop rest (relevantChildren ++ [child]) hasIrrelevant
        else loop rest relevantChildren true
    end.

(** [pruneChildren]: the node is updated in place and returned. *)
Fixpoint pruneChildren (fuel : nat) (root : loc) (selectedFolderPaths : list string)
  : Run loc :=
  match fuel with
  | 0 => stuck
  | S fuel =>
      o ← readObj root;
      match o_children o with
      | None => ret root
      | Some [] => ret root
      | Some cs =>
          '(relevant, hasIrrelevant) ←
            siblingLoop (fun child => pruneChildren fuel child selectedFolderPaths)
              selectedFolderPaths cs [] false;
          relevantChildren ←
            (if hasIrrelevant : bool
             then p ← alloc placeholderObj; ret (relevant ++ [p])
             else ret relevant);
          setChildren root (Some relevantChildren);;
          ret root
      end
  end.

(** The loop of [findPath] over the children. *)
Definition firstChildPath (root : loc) (find : loc → Run (option (list loc)))
  : list loc → Run (option (list loc)) :=
  fix each (l : list loc) : Run (option (list loc)) :=
    match l with
    | [] => ret None
    | child :: l' =>
        r ← find child;
        match r with
        | Some childPath => ret (Some (root :: childPath))
        | None => each l'
        end
    end.

(** [findPath]: the path is an array of references to the nodes. *)
Fixpoint findPath (fuel : nat) (root : loc) (targetPath : string)
  : Run (option (list loc)) :=
  match fuel with
  | 0 => stuck
  | S fuel =>
      o ← readObj root;
      if String.eqb (path_normalize (o_fullPath o)) (path_normalize targetPath)
      then ret (Some [root])
      else match o_children o with
           | None => ret None
           | Some cs => firstChildPath root (fun child => findPath fuel child targetPath) cs
           end
  end.

(** [pathArr[i].fullPath], read from the heap. *)
Definition fullPathAt (h : list NodeObj) (pathArr : list loc) (i : nat) : option string :=
  l ← pathArr !! i; o ← h !! l; Some (o_fullPath o).

Definition agreeAt (h : list NodeObj) (paths : list (list loc)) (i : nat)
    (candidate : string) : bool :=
  forallb (fun pathArr =>
             match fullPathAt h pathArr i with
             | Some p => String.eqb (path_normalize p) (path_normalize candidate)
             | None => false
             end) paths.

Fixpoint lcaLoop (h : list NodeObj) (paths : list (list loc)) (first : list loc)
    (i steps : nat) (lastCommonIndex : Z) : Z :=
  match steps with
  | 0 => lastCommonIndex
  | S steps' =>
      match fullPathAt h first i with
      | Some candidate =>
          if agreeAt h paths i candidate
          then lcaLoop h paths first (S i) steps' (Z.of_nat i)
          else lastCommonIndex
      | None => lastCommonIndex
      end
  end.

Definition minLength (first : list loc) (others : list (list loc)) : nat :=
  foldl Nat.min (length first) (map length others).

(** [findLowestCommonAncestor] only reads. *)
Definition findLowestCommonAncestor (paths : list (list loc)) : Run (option loc) := λ h,
  Some (match paths with
        | [] => None
        | [only] => index only (Z.of_nat (length only) - 1)
        | first :: others =>
            let minLen := minLength first others in
            let lastCommonIndex := lcaLoop h paths first 0 minLen (-1) in
            if (lastCommonIndex <? 0)%Z then None else index first lastCommonIndex
        end, h).

(** Step 1 of [buildPrunedTree]. *)
Fixpoint selectionPaths (fuel : nat) (root : loc) (selectedFolderPaths : list string)
  : Run (list (list loc)) :=
  match selectedFolderPaths with
  | [] => ret []
  | folderPath :: rest =>
      pathFromRoot ← findPath fuel root folderPath;
      paths ← selectionPaths fuel root rest;
      ret (match pathFromRoot with
            | Some p => p :: paths
            | None => paths
            end)
  end.

(** [buildPrunedTree]: the subtree is cloned, and the clone pruned in
    place. *)
Definition buildPrunedTree (fuel : nat) (root : loc) (selectedFolderPaths : list string)
  : Run loc :=
  paths ← selectionPaths fuel root selectedFolderPaths;
  match paths with
  | [] => alloc emptyObj
  | first :: _ =>
      lca ← findLowestCommonAncestor paths;
      match lca with
      | None => ret root
      | Some lcaNode =>
          o ← readObj lcaNode;
          let singleFolder := Nat.eqb (length selectedFolderPaths) 1 in
          let lcaIsSingleFolder :=
            singleFolder &&
            match selectedFolderPaths with
            | s :: _ => String.eqb (path_normalize (o_fullPath o)) (path_normalize s)
            | [] => false
            end in
          newRoot ←
            (if singleFolder && lcaIsSingleFolder then ret lcaNode
             else if singleFolder
                  then match index first (Z.of_nat (length first) - 1) with
                       | Some n => ret n
                       | None => stuck
                       end
                  else ret lcaNode);
          clonedSubtree ← deepCloneTree fuel newRoot;
          pruneChildren fuel clonedSubtree selectedFolderPaths
      end
  end.
End Programs.

(** *** Trees in the heap *)

(** [R] relates the elements of three lists, position by position. *)
Definition all3 {A B C : Type} (R : A → B → C → Prop)
  : list A → list B → list C → Prop :=
  fix all (xs : list A) (ys : list B) (zs : list C) : Prop :=
    match xs, ys, zs with
    | [], [], [] => True
    | x :: xs', y :: ys', z :: zs' => R x y z ∧ all xs' ys' zs'
    | _, _, _ => False
    end.

(** The heap holds the tree [t] at [l], in the objects at the addresses
    [fp]. *)
Fixpoint tree_at (h : list NodeObj) (t : TreeNode) (l : loc) (fp : list loc) : Prop :=
  match t with
  | mkNode n p cs =>
      ∃ o, h !! l = Some o ∧ o_name o = n ∧ o_fullPath o = p
           ∧ match cs with
             | None => o_children o = None ∧ fp = [l]
             | Some ts =>
                 ∃ ls fps, o_children o = Some ls ∧ fp = l :: concat fps
                           ∧ all3 (fun t l fp => tree_at h t l fp) ts ls fps
             end
  end.

(** The heap holds [t] at [l], whatever the objects. *)
Definition repr (h : list NodeObj) (l : loc) (t : TreeNode) : Prop :=
  ∃ fp, tree_at h t l fp.

(** The [forEach] of [renderTree], reading the heap. *)
Definition forEachChild (render : loc → bool → option string) (count : nat)
  : list loc → nat → string → option string :=
  fix forEach (l : list loc) (index : nat) (line : string) : option string :=
    match l with
    | [] => Some line
    | child :: l' =>
        let last := Nat.eqb index (count - 1) in
        s ← render child last;
        forEach l' (S index) (line +:+ s)
    end.

(** [renderTree], reading the heap. *)
Fixpoint renderTree (fuel : nat) (h : list NodeObj) (node : loc) (prefix : string)
    (isLast : bool) : option string :=
  match fuel with
  | 0 => None
  | S fuel =>
      o ← h !! node;
      let line := prefix +:+ connector isLast +:+ o_name o +:+ LF in
      match o_children o with
      | None => Some line
      | Some [] => Some line
      | Some cs =>
          let newPrefix := prefix +:+ indent isLast in
          forEachChild (fun child last => renderTree fuel h child newPrefix last)
            (length cs) cs 0 line
      end
  end.

End Heap.

(** Pruning the tree at [l] in place: the run returns [l], writes only to
    objects of the tree (and to new ones), and leaves the pruned tree at [l],
    in objects of the tree and new ones. *)
Definition prunedInPlace {pathLib : PathModule} (fuel : nat) (sel : list string)
    (t : TreeNode) : Prop :=
  ∀ l fp h, Heap.tree_at h t l fp → NoDup fp →
    ∃ h' fp', Heap.pruneChildren fuel l sel h = Some (l, h')
              ∧ length h ≤ length h'
              ∧ (∀ x, x < length h → x ∉ fp → h' !! x = h !! x)
              ∧ Heap.tree_at h' (pruneChildren t sel) l fp'
              ∧ NoDup fp'
              ∧ (∀ x, x ∈ fp' → x ∈ fp ∨ length h ≤ x).

(** [renderTree] of the older extension.ts: the early return of the current
    variant, with the [children.map(...)] and [join('')] of the earliest
    ones. *)
Fixpoint renderTree_map (tree : TreeNode) (prefix : string) (isLast : bool) : string :=
  let line := prefix +:+ connector isLast +:+ name tree +:+ LF in
  match tree with
  | mkNode _ _ None => line
  | mkNode _ _ (Some []) => line
  | mkNode _ _ (Some cs) =>
      let newPrefix := prefix +:+ indent isLast in
      line +:+ join_empty
                 (mapChild (fun child last => renderTree_map child newPrefix last)
                    (length cs) cs 0)
  end.

(** The node that the earliest variants and the compiled extension.js
    build for an entry, from the node of the current variant: its name is
    the bare [path.basename] of the path. *)
Fixpoint itemOf {pathLib : PathModule} (t : TreeNode) : Item :=
  match t with
  | mkNode _ p None => mkItem (path_basename p) None
  | mkNode _ p (Some cs) => mkItem (path_basename p) (Some (map itemOf cs))
  end.

(** ** The older pruner on objects

    [pruneTreeForSelection] and the [pruneChildren(nodes, ...)] of the older
    extension.ts, on the heap of [Heap]: a relevant node with children gets
    [node.children = pruneChildren(node.children, ...)], the array returned
    being the new [relevant] array. *)
Module HeapOlder.
Section Programs.
Context {pathLib : PathModule}.

(** The [for (const node of nodes)] loop. *)
Definition siblingLoop (prune : list Heap.loc → Heap.Run (list Heap.loc))
    (selectedFolderPaths : list string)
  : list Heap.loc → list Heap.loc → bool → Heap.Run (list Heap.loc * bool) :=
  fix loop (nodes relevant : list Heap.loc) (hadIrrelevant : bool) :=
    match nodes with
    | [] => Heap.ret (relevant, hadIrrelevant)
    | node :: rest =>
        o ← Heap.readObj node;
        if Heap.isRelevant o selectedFolderPaths
        then match Heap.o_children o with
             | Some (c :: cs) =>
                 pruned ← prune (c :: cs);
                 Heap.setChildren node (Some pruned)
             | _ => Heap.ret ()
             end;;
             loop rest (relevant ++ [node]) hadIrrelevant
        else loop rest relevant true
    end.

(** [pruneChildren(nodes, selectedFolderPaths)]. *)
Fixpoint pruneChildren (fuel : nat) (nodes : list Heap.loc)
    (selectedFolderPaths : list string) : Heap.Run (list Heap.loc) :=
  match fuel with
  | 0 => Heap.stuck
  | S fuel =>
      '(relevant, hadIrrelevant) ←
        siblingLoop (fun nodes => pruneChildren fuel nodes selectedFolderPaths)
          selectedFolderPaths nodes [] false;
      if hadIrrelevant : bool
      then p ← Heap.alloc Heap.placeholderObj; Heap.ret (relevant ++ [p])
      else Heap.ret relevant
  end.

(** [pruneTreeForSelection]: the clone is pruned below its root. *)
Definition pruneTreeForSelection (fuel : nat) (root : Heap.loc)
    (selectedFolderPaths : list string) : Heap.Run Heap.loc :=
  cloned ← Heap.deepCloneTree fuel root;
  o ← Heap.readObj cloned;
  match Heap.o_children o with
  | Some cs =>
      pruned ← pruneChildren fuel cs selectedFolderPaths;
      Heap.setChildren cloned (Some pruned);;
      Heap.ret cloned
  | None => Heap.ret cloned
  end.
End Programs.
End HeapOlder.

(** Pruning the siblings at [ls] in place, the older way: the run returns
    the addresses of the kept siblings (and of a new placeholder), writes
    only to objects of the siblings' trees (and to new ones), and leaves the
    pruned siblings there. *)
Definition siblingsPrunedInPlace {pathLib : PathModule} (fuel : nat) (sel : list string)
    (ts : list TreeNode) : Prop :=
  ∀ ls fps h,
    Heap.all3 (fun t l fp => Heap.tree_at h t l fp) ts ls fps → NoDup (concat fps) →
    ∃ h' ls' fps',
      HeapOlder.pruneChildren fuel ls sel h = Some (ls', h')
      ∧ length h ≤ length h'
      ∧ (∀ x, x < length h → x ∉ concat fps → h' !! x = h !! x)
      ∧ Heap.all3 (fun t l fp => Heap.tree_at h' t l fp) (pruneChildrenOf ts sel) ls' fps'
      ∧ NoDup (concat fps')
      ∧ (∀ x, x ∈ concat fps' → x ∈ concat fps ∨ length h ≤ x).

(** ** The command

    The callback that [activate] registers for [folderTree.generateTree],
    run against a host that answers the calls it makes to VS Code and to
    [fs]. A [Uri] is its [fsPath]. *)

(** What the callback does to the editor, in order. *)
Inductive action : Type :=
  | ShowErrorMessage (message : string)
  | ShowInformationMessage (message : string)
  | WriteText (text : string)
  | OpenTextDocument (content : string)
  | ShowTextDocument (content : string).

(** A run of the callback: what it did, and how it ended. *)
Definition Script (A : Type) : Type := list action * outcome A.

#[global] Instance script_bind : MBind Script := λ A B k m,
  match m.2 with
  | Returns a => (m.1 ++ (k a).1, (k a).2)
  | Throws e => (m.1, Throws e)
  end.

(** A call that may throw. *)
Definition call {A : Type} (result : outcome A) : Script A := ([], result).

Definition showErrorMessage (message : string) : Script unit :=
  ([ShowErrorMessage message], Returns ()).

Definition showInformationMessage (message : string) : Script unit :=
  ([ShowInformationMessage message], Returns ()).

(** What the host answers. *)
Record Host : Type := {
  (* [vscode.workspace.workspaceFolders]: [undefined], or the folders' paths *)
  workspaceFolders : option (list string);
  (* [getConfiguration('folderTree').get('exclude')] *)
  excludeSetting : option (list string);
  (* what [fs.statSync] and [fs.readdirSync] find at a path and below it *)
  fileSystem : string → FsEntry;
  existsSync : string → bool;
  (* [fs.lstatSync(p).isDirectory()] *)
  lstatSync_isDirectory : string → outcome bool;
  (* how [await vscode.env.clipboard.writeText(text)] ends *)
  clipboard_writeText : string → outcome unit }.

(** [await vscode.env.clipboard.writeText(text)]. *)
Definition writeText (host : Host) (text : string) : Script unit :=
  ([WriteText text], clipboard_writeText host text).

(** [Array.prototype.filter] with a callback that may throw. *)
Fixpoint filterOutcome {A : Type} (f : A → outcome bool) (l : list A) : outcome (list A) :=
  match l with
  | [] => Returns []
  | x :: l' => b ← f x; xs ← filterOutcome f l'; Returns (if b : bool then x :: xs else xs)
  end.

(** The selection the callback is called with: [allSelections] when it is a
    non-empty array, else [firstSelection] when there is one. *)
Definition selectedUris (firstSelection : option string)
    (allSelections : option (list string)) : list string :=
  match allSelections with
  | Some (uri :: uris) => uri :: uris
  | _ => match firstSelection with
         | Some uri => [uri]
         | None => []
         end
  end.

Section Command.
Context {pathLib : PathModule} {regexpLib : RegExpEngine}.

(** [workspaceFolders[0].uri.fsPath]. *)
Definition workspacePathOf (folders : list string) : outcome string :=
  match folders with
  | folder :: _ => Returns folder
  | [] => Throws TypeError
  end.

(** The filter of the current variant: the path exists, is a directory,
    and lies inside the workspace root. *)
Definition validSelection (host : Host) (workspacePath fsPath : string) : outcome bool :=
  if negb (existsSync host fsPath) then Returns false
  else isDirectory ← lstatSync_isDirectory host fsPath;
       if negb isDirectory then Returns false
       else Returns (negb (String.prefix ".." (path_relative workspacePath fsPath))).

(** The callback of the current extension.ts. *)
Definition generateTree (host : Host) (firstSelection : option string)
    (allSelections : option (list string)) : Script unit :=
  match workspaceFolders host with
  | None => showErrorMessage "No workspace folder is open."
  | Some folders =>
      let selectedUris := selectedUris firstSelection allSelections in
      if Nat.eqb (length selectedUris) 0
      then showErrorMessage "No folder(s) selected."
      else
        workspacePath ← call (workspacePathOf folders);
        let excludePatterns := default [] (excludeSetting host) in
        fullTree ← call (buildTree workspacePath (fileSystem host workspacePath)
                           excludePatterns);
        folderSelections ← call (filterOutcome (validSelection host workspacePath)
                                   selectedUris);
        if Nat.eqb (length folderSelections) 0
        then showErrorMessage "No valid folder selections."
        else
          prunedTree ← call (buildPrunedTree fullTree folderSelections);
          let treeString := renderTree prunedTree "" true in
          writeText host treeString;;
          showInformationMessage "Pruned folder tree copied to clipboard!"
  end.

End Command.

(** How the two awaited calls that show a text in a new editor end:
    [vscode.workspace.openTextDocument({content, language})] and
    [vscode.window.showTextDocument(doc)]. *)
Record Editor : Type := {
  openTextDocument : string → outcome unit;
  showTextDocument : string → outcome unit }.

(** [const doc = await vscode.workspace.openTextDocument({content, ...});
    await vscode.window.showTextDocument(doc)]. *)
Definition showInEditor (editor : Editor) (content : string) : Script unit :=
  ([OpenTextDocument content], openTextDocument editor content);;
  ([ShowTextDocument content], showTextDocument editor content).

Section EarlierCommands.
Context {pathLib : PathModule} {regexpLib : RegExpEngine}.

(** The callback of the earliest extension.ts: the whole workspace tree is
    copied. *)
Definition generateTree_earliest (host : Host) : Script unit :=
  match workspaceFolders host with
  | None => showErrorMessage "No workspace folder is open."
  | Some folders =>
      workspacePath ← call (workspacePathOf folders);
      let excludePatterns := default [] (excludeSetting host) in
      tree ← call (buildTree_js workspacePath (fileSystem host workspacePath)
                     excludePatterns);
      let treeString := renderTree_js tree "" true in
      writeText host treeString;;
      showInformationMessage "Folder tree copied to clipboard! Paste it anywhere."
  end.

(** The callback of the compiled extension.js: the tree is also shown in a
    new editor, before it is copied. *)
Definition generateTree_js (host : Host) (editor : Editor) : Script unit :=
  match workspaceFolders host with
  | None => showErrorMessage "No workspace folder is open."
  | Some folders =>
      workspacePath ← call (workspacePathOf folders);
      let excludePatterns := default [] (excludeSetting host) in
      tree ← call (buildTree_js workspacePath (fileSystem host workspacePath)
                     excludePatterns);
      let treeString := renderTree_js tree "" true in
      showInEditor editor treeString;;
      writeText host treeString;;
      showInformationMessage "Folder tree copied to clipboard! Paste it anywhere."
  end.
End EarlierCommands.

(** ** Paths of entries

    An entry name as [readdirSync] gives it: not empty, neither [.] nor
    [..], and without a separator. *)
Definition plainSegment (s : string) : bool :=
  negb (String.eqb s "") && negb (String.eqb s ".") && negb (String.eqb s "..")
  && negb (occurs "/" s).

(** The absolute path of the entry reached from the root through the
    entries [segs]. *)
Definition absolutePath (segs : list string) : string :=
  "/" +:+ Posix.joinWith "/" segs.

(** The tree of the entries below the directory reached through [segs]:
    every node carries the absolute path of its entries, and no entry name
    starts with [..]. *)
Fixpoint wellPlaced (segs : list string) (t : TreeNode) : Prop :=
  match t with
  | mkNode _ p cs =>
      p = absolutePath segs
      ∧ match cs with
        | None => True
        | Some l =>
            (fix all (l : list TreeNode) : Prop :=
               match l with
               | [] => True
               | c :: l' =>
                   (∃ entry, plainSegment entry = true
                             ∧ String.prefix ".." entry = false
                             ∧ wellPlaced (segs ++ [entry]) c)
                   ∧ all l'
               end) l
        end
  end.

(** A file system whose entry names are as [readdirSync] gives them, none
    of them starting with [..]. *)
Fixpoint plainEntries (fs : FsEntry) : Prop :=
  match fs with
  | FsDir entries =>
      (fix all (l : list (string * FsEntry)) : Prop :=
         match l with
         | [] => True
         | (entry, sub) :: l' =>
             (plainSegment entry = true ∧ String.prefix ".." entry = false
              ∧ plainEntries sub)
             ∧ all l'
         end) entries
  | _ => True
  end.

(** *** Nodes and the entries they were built from *)

(** What [fs.readdirSync] lists at an entry that [buildTree] reads: the
    entries of a directory; a file is not read. *)
Definition entriesOf (fs : FsEntry) : list (string * FsEntry) :=
  match fs with
  | FsDir entries => entries
  | _ => []
  end.

(** [below] is what lies at the end of the chain of entry names [names],
    each listed in the directory reached by the names before it. *)
Fixpoint reaches (fs : FsEntry) (names : list string) (below : FsEntry) : Prop :=
  match names with
  | [] => below = fs
  | entry :: rest => ∃ sub, (entry, sub) ∈ entriesOf fs ∧ reaches sub rest below
  end.

(** The entries of a directory that the [filter] of [buildTree] keeps:
    those for which [some] returns [false]. *)
Definition notExcluded {pathLib : PathModule} {regexpLib : RegExpEngine}
    (dirPath : string) (excludePatterns : list string)
    (entries : list (string * FsEntry)) : list (string * FsEntry) :=
  List.filter (fun e => match isExcluded dirPath excludePatterns e.1 with
                        | Returns false => true
                        | _ => false
                        end) entries.

(** * Properties *)

(** ** Strings *)

Lemma append_nil_r (s : string) : s +:+ "" = s.
Proof.
  induction s as [|c s IH]; [done|].
  cbv [String.append]. fold String.append. by rewrite IH.
Qed.

Lemma append_assoc (s1 s2 s3 : string) : (s1 +:+ s2) +:+ s3 = s1 +:+ (s2 +:+ s3).
Proof.
  induction s1 as [|c s1 IH]; [done|].
  change (String c ((s1 +:+ s2) +:+ s3) = String c (s1 +:+ (s2 +:+ s3))).
  by rewrite IH.
Qed.

Lemma join_empty_app (l1 l2 : list string) :
  join_empty (l1 ++ l2) = join_empty l1 +:+ join_empty l2.
Proof.
  induction l1 as [|x l1 IH]; [done|].
  cbn [app join_empty foldr]. fold (join_empty (l1 ++ l2)). fold (join_empty l1).
  by rewrite IH, append_assoc.
Qed.

(** ** Renderer *)

Lemma forEachChild_lines {T : Type} (render : T → bool → string)
    (lines : T → bool → list string) (l pre : list T) (line : string) :
  Forall (fun c => ∀ b, render c b = join_empty (lines c b)) l →
  forEachChild render (length (pre ++ l)) l (length pre) line
  = line +:+ join_empty (siblingLines lines l).
Proof.
  revert pre line. induction l as [|c l IH]; intros pre line Hl.
  - by rewrite append_nil_r.
  - apply Forall_cons in Hl as [Hc Hl].
    cbn [forEachChild siblingLines]. fold (forEachChild render (length (pre ++ c :: l))).
    fold (siblingLines lines l).
    replace (length (pre ++ c :: l)) with (length ((pre ++ [c]) ++ l))
      by (by rewrite <- app_assoc).
    replace (S (length pre)) with (length (pre ++ [c]))
      by (rewrite length_app; simpl; lia).
    rewrite IH by done. rewrite Hc, join_empty_app, !append_assoc.
    assert (Nat.eqb (length pre) (length ((pre ++ [c]) ++ l) - 1)
            = match l with [] => true | _ => false end) as ->; [|done].
    rewrite <- app_assoc, !length_app. simpl.
    destruct l; simpl.
    + apply Nat.eqb_eq. lia.
    + apply Nat.eqb_neq. lia.
Qed.

Lemma mapChild_lines {T U : Type} (f : T → U) (render : T → bool → string)
    (render' : U → bool → string) (lines : T → bool → list string)
    (l pre : list T) :
  Forall (fun c => ∀ b, render' (f c) b = join_empty (lines c b)) l →
  join_empty (mapChild render' (length (map f (pre ++ l))) (map f l) (length pre))
  = join_empty (siblingLines lines l).
Proof.
  revert pre. induction l as [|c l IH]; intros pre Hl; [done|].
  apply Forall_cons in Hl as [Hc Hl].
  cbn [map mapChild siblingLines].
  fold (mapChild render' (length (map f (pre ++ c :: l)))). fold (siblingLines lines l).
  rewrite join_empty_app. cbn [join_empty foldr].
  fold (join_empty (mapChild render' (length (map f (pre ++ c :: l))) (map f l) (S (length pre)))).
  replace (pre ++ c :: l) with ((pre ++ [c]) ++ l) by (by rewrite <- app_assoc).
  replace (S (length pre)) with (length (pre ++ [c]))
    by (rewrite length_app; simpl; lia).
  rewrite IH by done. rewrite Hc.
  assert (Nat.eqb (length pre) (length (map f ((pre ++ [c]) ++ l)) - 1)
          = match l with [] => true | _ => false end) as ->; [|done].
  rewrite length_map, <- app_assoc, !length_app. simpl.
  destruct l; simpl.
  - apply Nat.eqb_eq. lia.
  - apply Nat.eqb_neq. lia.
Qed.

Lemma renderTree_treeLines (t : TreeNode) (prefix : string) (isLast : bool) :
  renderTree t prefix isLast = join_empty (treeLines t prefix isLast).
Proof.
  revert prefix isLast.
  induction t as [n p|n p cs IH] using TreeNode_rose_ind; intros prefix isLast.
  - cbn. by rewrite !append_assoc, append_nil_r.
  - destruct cs as [|c cs].
    + cbn. by rewrite !append_assoc, append_nil_r.
    + cbn [renderTree treeLines name].
      rewrite (forEachChild_lines _
                 (fun c last => treeLines c (prefix +:+ indent isLast) last) (c :: cs) []).
      * done.
      * eapply Forall_impl; [exact IH|]. intros x Hx b. apply Hx.
Qed.

Lemma renderTree_js_treeLines (t : TreeNode) (prefix : string) (isLast : bool) :
  renderTree_js (forgetPath t) prefix isLast = join_empty (treeLines t prefix isLast).
Proof.
  revert prefix isLast.
  induction t as [n p|n p cs IH] using TreeNode_rose_ind; intros prefix isLast.
  - cbn. by rewrite !append_assoc.
  - cbn [forgetPath renderTree_js treeLines name item_name join_empty foldr].
    fold (join_empty (siblingLines (fun c last => treeLines c (prefix +:+ indent isLast) last) cs)).
    rewrite <- (mapChild_lines forgetPath
                 (fun c last => renderTree c (prefix +:+ indent isLast) last)
                 (fun c last => renderTree_js c (prefix +:+ indent isLast) last)
                 (fun c last => treeLines c (prefix +:+ indent isLast) last) cs []).
    + done.
    + eapply Forall_impl; [exact IH|]. intros x Hx b. apply Hx.
Qed.

Lemma siblingLines_length {T : Type} (lines : T → bool → list string)
    (size : T → nat) (l : list T) :
  Forall (fun c => ∀ b, length (lines c b) = size c) l →
  length (siblingLines lines l) = sum_list (map size l).
Proof.
  induction 1 as [|c l Hc _ IH]; [done|].
  cbn [siblingLines map sum_list]. fold (siblingLines lines l).
  by rewrite length_app, Hc, IH.
Qed.

Lemma treeLines_length (t : TreeNode) (prefix : string) (isLast : bool) :
  length (treeLines t prefix isLast) = tree_size t.
Proof.
  revert prefix isLast.
  induction t as [n p|n p cs IH] using TreeNode_rose_ind; intros prefix isLast; [done|].
  cbn [treeLines tree_size length]. f_equal.
  apply siblingLines_length.
  eapply Forall_impl; [exact IH|]. intros x Hx b. apply Hx.
Qed.

(** C4: [render] prints one line per node, [<prefix><connector><name>] and a
    line break (the one character of code 10, the line feed); the connector
    is ["└── "] for a last child and for the root,
    ["├── "] otherwise; the children's prefix is the parent's, extended by
    four spaces below a last child and by ["│   "] otherwise; children come
    in stored order, and a node without children prints its own line only.
    Both renderers (extension.ts and the compiled extension.js) agree. *)
Theorem renderTree_one_line_per_node (t : TreeNode) (prefix : string) (isLast : bool) :
  renderTree t prefix isLast = join_empty (treeLines t prefix isLast)
  ∧ renderTree_js (forgetPath t) prefix isLast = renderTree t prefix isLast
  ∧ render t = join_empty (treeLines t "" true)
  ∧ length (treeLines t prefix isLast) = tree_size t
  ∧ treeLines t prefix isLast
    = (prefix +:+ connector isLast +:+ name t +:+ LF)
      :: siblingLines (fun c last => treeLines c (prefix +:+ indent isLast) last)
           (default [] (children t))
  ∧ (default [] (children t) = [] →
     renderTree t prefix isLast = prefix +:+ connector isLast +:+ name t +:+ LF)
  ∧ connector true = "└── " ∧ connector false = "├── "
  ∧ indent true = "    " ∧ indent false = "│   "
  ∧ LF = String (ascii_of_nat 10) ""
  ∧ String.length LF = 1.
Proof.
  split_and!; try done.
  - apply renderTree_treeLines.
  - by rewrite renderTree_js_treeLines, renderTree_treeLines.
  - apply renderTree_treeLines.
  - apply treeLines_length.
  - by destruct t as [n p [cs|]].
  - destruct t as [n p [[|c cs]|]]; done.
Qed.

(** The specification's example: [root/{a, b}]. *)
Example render_root_a_b :
  render (mkNode "root" "/root"
            (Some [mkNode "a" "/root/a" (Some []); mkNode "b" "/root/b" (Some [])]))
  = "└── root" +:+ LF +:+ "    ├── a" +:+ LF +:+ "    └── b" +:+ LF.
Proof. reflexivity. Qed.

(** ** Pruner *)

Lemma siblingLoop_spec (relevantTo : TreeNode → bool) (keep : TreeNode → TreeNode)
    (nodes relevant : list TreeNode) (hadIrrelevant : bool) :
  siblingLoop relevantTo keep nodes relevant hadIrrelevant
  = (relevant ++ map keep (List.filter relevantTo nodes),
     hadIrrelevant || existsb (fun n => negb (relevantTo n)) nodes).
Proof.
  revert relevant hadIrrelevant.
  induction nodes as [|node rest IH]; intros relevant hadIrrelevant.
  - cbn. by rewrite app_nil_r, orb_false_r.
  - cbn [siblingLoop List.filter existsb]. fold (siblingLoop relevantTo keep).
    destruct (relevantTo node) eqn:Hrel; rewrite IH; cbn.
    + by rewrite <- app_assoc.
    + by rewrite orb_true_r.
Qed.

Lemma Forall_list_filter {A : Type} (P : A → Prop) (f : A → bool) (l : list A) :
  Forall P l → Forall P (List.filter f l).
Proof.
  induction 1 as [|x l Hx _ IH]; cbn; [done|].
  destruct (f x); [by constructor|done].
Qed.

Lemma siblingLoop_ext (relevantTo : TreeNode → bool) (keep keep' : TreeNode → TreeNode)
    (nodes relevant : list TreeNode) (hadIrrelevant : bool) :
  Forall (fun n => keep n = keep' n) nodes →
  siblingLoop relevantTo keep nodes relevant hadIrrelevant
  = siblingLoop relevantTo keep' nodes relevant hadIrrelevant.
Proof.
  intros Hk. rewrite !siblingLoop_spec. do 2 f_equal.
  apply map_ext_Forall. by apply Forall_list_filter.
Qed.

Section PrunerFacts.
Context {pathLib : PathModule}.
Implicit Types (t root node : TreeNode) (sel : list string).

Lemma pruneChildren_name t sel : name (pruneChildren t sel) = name t.
Proof. by destruct t as [n p [[|c cs]|]]. Qed.

Lemma pruneChildren_fullPath t sel : fullPath (pruneChildren t sel) = fullPath t.
Proof. by destruct t as [n p [[|c cs]|]]. Qed.

(** The child pushed by the loop is the pruned child. *)
Lemma pruneChildren_kept t sel :
  mkNode (name t) (fullPath t) (children (pruneChildren t sel)) = pruneChildren t sel.
Proof. by destruct t as [n p [[|c cs]|]]. Qed.

Lemma pruneChildren_children n p (siblings : list TreeNode) sel :
  siblings ≠ [] →
  pruneChildren (mkNode n p (Some siblings)) sel
  = mkNode n p (Some (keptChildren siblings sel
                      ++ if hasIrrelevant siblings sel then [placeholder] else [])).
Proof.
  intros Hne. destruct siblings as [|c cs]; [done|].
  cbn [pruneChildren]. rewrite siblingLoop_spec.
  unfold pushPlaceholder, keptChildren, hasIrrelevant. cbn [fst snd app orb].
  rewrite (map_ext _ (fun c => pruneChildren c sel))
    by (intros x; apply pruneChildren_kept).
  destruct (existsb _ (c :: cs)); by rewrite ?app_nil_r.
Qed.

Lemma pruneKept_pruneChildren t sel : pruneKept t sel = pruneChildren t sel.
Proof.
  induction t as [n p|n p cs IH] using TreeNode_rose_ind; [done|].
  destruct cs as [|c cs]; [done|].
  cbn [pruneKept pruneChildren]. do 3 f_equal.
  apply siblingLoop_ext.
  eapply Forall_impl; [exact IH|]. intros x Hx. cbn beta.
  by rewrite Hx, pruneChildren_kept.
Qed.

Lemma pruneChildrenOf_spec (siblings : list TreeNode) sel :
  pruneChildrenOf siblings sel
  = keptChildren siblings sel
    ++ if hasIrrelevant siblings sel then [placeholder] else [].
Proof.
  unfold pruneChildrenOf. rewrite siblingLoop_spec.
  unfold pushPlaceholder, keptChildren, hasIrrelevant. cbn [fst snd app orb].
  assert (map (fun node => pruneKept node sel)
            (List.filter (fun n => isRelevant n sel) siblings)
          = map (fun c => pruneChildren c sel)
              (List.filter (fun c => isRelevant c sel) siblings))
    as -> by (apply map_ext; intros x; apply pruneKept_pruneChildren).
  destruct (existsb _ siblings); by rewrite ?app_nil_r.
Qed.

Lemma keptChildren_fullPath (siblings : list TreeNode) sel :
  Forall (fun s => fullPath s ≠ "") siblings →
  Forall (fun k => fullPath k ≠ "") (keptChildren siblings sel).
Proof.
  intros Hs. unfold keptChildren. apply Forall_map.
  eapply Forall_impl; [by apply Forall_list_filter|].
  intros x Hx. cbn. by rewrite pruneChildren_fullPath.
Qed.
End PrunerFacts.

(** C1: when at least one of the siblings being filtered is irrelevant to
    every selected path, the kept list is the relevant siblings, pruned and
    in their original order, followed by exactly one placeholder [{name:
    "...", fullPath: "", children: []}], however many siblings were dropped;
    the placeholder has no children and pruning leaves it alone. Both
    variants of [pruneChildren] agree. *)
Theorem pruneChildren_one_placeholder {pathLib : PathModule}
    (siblings : list TreeNode) (sel : list string) (n p : string) :
  hasIrrelevant siblings sel = true →
  pruneChildrenOf siblings sel = keptChildren siblings sel ++ [placeholder]
  ∧ children (pruneChildren (mkNode n p (Some siblings)) sel)
    = Some (keptChildren siblings sel ++ [placeholder])
  ∧ keptChildren siblings sel
    = map (fun c => pruneChildren c sel)
        (List.filter (fun c => isRelevant c sel) siblings)
  ∧ Forall2 (fun k c => name k = name c ∧ fullPath k = fullPath c)
      (keptChildren siblings sel) (List.filter (fun c => isRelevant c sel) siblings)
  ∧ (Forall (fun s => fullPath s ≠ "") siblings →
     List.filter (fun k => String.eqb (fullPath k) "")
       (keptChildren siblings sel ++ [placeholder]) = [placeholder])
  ∧ placeholder = mkNode "..." "" (Some [])
  ∧ pruneChildren placeholder sel = placeholder
  ∧ pruneKept placeholder sel = placeholder.
Proof.
  intros Hirr. split_and!; try done.
  - by rewrite pruneChildrenOf_spec, Hirr.
  - assert (siblings ≠ []) as Hne by (by intros ->).
    by rewrite pruneChildren_children, Hirr.
  - unfold keptChildren.
    induction (List.filter (fun c => isRelevant c sel) siblings) as [|c l IH];
      constructor; [|done].
    by rewrite pruneChildren_name, pruneChildren_fullPath.
  - intros Hs. apply keptChildren_fullPath with (sel := sel) in Hs.
    induction Hs as [|k ks Hk _ IH]; [done|].
    cbn [app List.filter]. apply String.eqb_neq in Hk. by rewrite Hk.
Qed.

(** [root/{x, y, z}] with [x] selected: [y] and [z] collapse into one
    placeholder. *)
Lemma pruneChildren_one_placeholder_witness :
  let siblings := [mkNode "x" "/root/x" (Some []); mkNode "y" "/root/y" (Some []);
                   mkNode "z" "/root/z" (Some [])] in
  hasIrrelevant (pathLib := Posix.pathModule "/") siblings ["/root/x"] = true
  ∧ pruneChildrenOf (pathLib := Posix.pathModule "/") siblings ["/root/x"]
    = [mkNode "x" "/root/x" (Some []); placeholder].
Proof.
  intros siblings.
  split; [reflexivity|].
  destruct (pruneChildren_one_placeholder (pathLib := Posix.pathModule "/")
              siblings ["/root/x"] "root" "/root" eq_refl) as [-> _].
  reflexivity.
Defined.

Section FindPathFacts.
Context {pathLib : PathModule}.
Implicit Types (t root node : TreeNode) (sel : list string).

Lemma firstChildPath_Some root (find : TreeNode → option (list TreeNode))
    (l : list TreeNode) (path : list TreeNode) :
  firstChildPath root find l = Some path →
  ∃ child childPath, child ∈ l ∧ find child = Some childPath ∧ path = root :: childPath.
Proof.
  induction l as [|c l IH]; [done|]. cbn [firstChildPath].
  destruct (find c) as [childPath|] eqn:Hc.
  - intros [= <-]. exists c, childPath. split_and!; [left|done..].
  - intros (child & childPath & ? & ? & ?)%IH.
    exists child, childPath. split_and!; [by right|done..].
Qed.

Lemma firstChildPath_None root (find : TreeNode → option (list TreeNode))
    (l : list TreeNode) :
  firstChildPath root find l = None ↔ Forall (fun c => find c = None) l.
Proof.
  induction l as [|c l IH]; [by split; [constructor|]|]. cbn [firstChildPath].
  destruct (find c) as [childPath|] eqn:Hc.
  - split; [done|]. intros [? _]%Forall_cons. congruence.
  - rewrite IH. split; [by constructor|]. by intros [_ ?]%Forall_cons.
Qed.

Lemma tree_nodes_self t : t ∈ tree_nodes t.
Proof. destruct t as [n p [cs|]]; left. Qed.

Lemma tree_nodes_child t (cs : list TreeNode) c m :
  children t = Some cs → c ∈ cs → m ∈ tree_nodes c → m ∈ tree_nodes t.
Proof.
  destruct t as [n p [cs'|]]; [|done]. intros [= ->] Hc Hm.
  cbn [tree_nodes]. right. apply list_elem_of_In, in_concat.
  exists (tree_nodes c). split; [|by apply list_elem_of_In].
  apply in_map, list_elem_of_In, Hc.
Qed.

(** What [findPath] returns is a root-to-selection path. *)
Lemma findPath_Some t target (path : list TreeNode) :
  findPath t target = Some path →
  (∃ rest, path = t :: rest)
  ∧ descends path
  ∧ (∃ n, last path = Some n
          ∧ path_normalize (fullPath n) = path_normalize target)
  ∧ Forall (fun n => n ∈ tree_nodes t) path.
Proof.
  revert path.
  assert (∀ t path,
            String.eqb (path_normalize (fullPath t)) (path_normalize target) = true →
            path = [t] →
            (∃ rest, path = t :: rest) ∧ descends path
            ∧ (∃ n, last path = Some n
                    ∧ path_normalize (fullPath n) = path_normalize target)
            ∧ Forall (fun n => n ∈ tree_nodes t) path) as Hhit.
  { intros t' path Heq ->. split_and!; [by exists []|done| |].
    - exists t'. split; [done|]. by apply String.eqb_eq.
    - repeat constructor. apply tree_nodes_self. }
  induction t as [n p|n p cs IH] using TreeNode_rose_ind; intros path; cbn [findPath].
  - destruct (String.eqb _ _) eqn:Heq; [|done].
    intros [= <-]. by apply Hhit.
  - destruct (String.eqb _ _) eqn:Heq; [intros [= <-]; by apply Hhit|].
    intros (child & childPath & Hin & Hfind & ->)%firstChildPath_Some.
    rewrite Forall_forall in IH.
    destruct (IH child Hin childPath Hfind) as ((rest & ->) & Hdesc & (m & Hlast & Hm) & Hall).
    split_and!.
    + by eexists.
    + cbn. done.
    + exists m. split; [|done]. by rewrite last_cons, Hlast.
    + constructor; [apply tree_nodes_self|].
      eapply Forall_impl; [exact Hall|]. intros x Hx.
      by eapply tree_nodes_child.
Qed.

Lemma selectionPaths_all_found root sel :
  Forall (fun s => is_Some (findPath root s)) sel →
  Forall2 (fun s p => findPath root s = Some p) sel (selectionPaths root sel).
Proof.
  unfold selectionPaths. induction 1 as [|s sel [p Hp] _ IH]; [constructor|].
  cbn. rewrite Hp. cbn. by constructor.
Qed.

Lemma selectionPaths_from_root root sel (p : list TreeNode) :
  p ∈ selectionPaths root sel → ∃ rest, p = root :: rest.
Proof.
  unfold selectionPaths. intros (s & _ & Hs)%list_elem_of_omap.
  by apply findPath_Some in Hs as [? _].
Qed.
End FindPathFacts.

Lemma tree_nodes_inv (t m : TreeNode) :
  m ∈ tree_nodes t →
  m = t ∨ ∃ cs c, children t = Some cs ∧ c ∈ cs ∧ m ∈ tree_nodes c.
Proof.
  destruct t as [n p [cs|]]; cbn [tree_nodes].
  - intros [->|Hm]%elem_of_cons; [by left|right].
    apply list_elem_of_In, in_concat in Hm as (l & (c & <- & Hc)%in_map_iff & Hm).
    exists cs, c. by rewrite !list_elem_of_In.
  - intros [->|Hm]%elem_of_cons; [by left|]. by apply elem_of_nil in Hm.
Qed.

Lemma deepCloneTree_name (t : TreeNode) : name (deepCloneTree t) = name t.
Proof. by destruct t as [n p [cs|]]. Qed.

Lemma deepCloneTree_fullPath (t : TreeNode) : fullPath (deepCloneTree t) = fullPath t.
Proof. by destruct t as [n p [cs|]]. Qed.

Lemma deepCloneTree_children (t : TreeNode) :
  children (deepCloneTree t) = Some (map deepCloneTree (default [] (children t))).
Proof. by destruct t as [n p [cs|]]. Qed.

Lemma deepCloneTree_nodes (t m : TreeNode) :
  m ∈ tree_nodes (deepCloneTree t) → ∃ m', m' ∈ tree_nodes t ∧ sameEntry m m'.
Proof.
  revert m. induction t as [n p|n p cs IH] using TreeNode_rose_ind; intros m Hm.
  - apply tree_nodes_inv in Hm as [->|(cs & c & [= <-] & Hc & _)].
    + eexists. split; [apply tree_nodes_self|done].
    + by apply elem_of_nil in Hc.
  - apply tree_nodes_inv in Hm as [->|(cs' & c' & [= <-] & Hc & Hm)].
    + eexists. split; [apply tree_nodes_self|done].
    + apply list_elem_of_fmap in Hc as (c & -> & Hc).
      rewrite Forall_forall in IH.
      destruct (IH c Hc m Hm) as (m' & Hm' & Hsame).
      exists m'. split; [|done]. by eapply tree_nodes_child.
Qed.

Section PruneNodes.
Context {pathLib : PathModule}.

Lemma keptChildren_elem (siblings : list TreeNode) (sel : list string) (k : TreeNode) :
  k ∈ keptChildren siblings sel →
  ∃ c, c ∈ siblings ∧ isRelevant c sel = true ∧ k = pruneChildren c sel.
Proof.
  unfold keptChildren. intros (c & -> & Hc)%list_elem_of_fmap.
  apply list_elem_of_In, filter_In in Hc as [Hc Hrel].
  exists c. by rewrite list_elem_of_In.
Qed.

Lemma pruneChildren_nodes (t m : TreeNode) (sel : list string) :
  m ∈ tree_nodes (pruneChildren t sel) →
  m = placeholder ∨ ∃ m', m' ∈ tree_nodes t ∧ sameEntry m m'.
Proof.
  revert m. induction t as [n p|n p cs IH] using TreeNode_rose_ind; intros m Hm.
  - right. exists m. by split.
  - destruct cs as [|c0 cs0]; [right; exists m; by split|].
    rewrite pruneChildren_children in Hm by done.
    apply tree_nodes_inv in Hm as [->|(cs' & c' & [= <-] & Hc & Hm)].
    + right. eexists. split; [apply tree_nodes_self|done].
    + apply elem_of_app in Hc as [Hc|Hc].
      * apply keptChildren_elem in Hc as (c & Hc & _ & ->).
        rewrite Forall_forall in IH.
        destruct (IH c Hc m Hm) as [->|(m' & Hm' & Hsame)]; [by left|right].
        exists m'. split; [|done]. by eapply tree_nodes_child.
      * assert (c' = placeholder) as ->.
        { destruct (_ : bool); [|by apply elem_of_nil in Hc].
          by apply list_elem_of_singleton in Hc. }
        apply tree_nodes_inv in Hm as [->|(? & ? & [= <-] & Hnil & _)]; [by left|].
        by apply elem_of_nil in Hnil.
Qed.

(** The pruned clone of a subtree shows entries of that subtree only. *)
Lemma pruned_clone_within (t : TreeNode) (sel : list string) :
  withinSubtree (pruneChildren (deepCloneTree t) sel) t.
Proof.
  intros m [->|(m1 & Hm1 & Hs1)]%pruneChildren_nodes; [by left|right].
  apply deepCloneTree_nodes in Hm1 as (m2 & Hm2 & Hs2).
  exists m2. split; [done|]. destruct Hs1, Hs2. split; congruence.
Qed.
End PruneNodes.

(** ** Lowest common ancestor *)

Lemma index_last {A : Type} (l : list A) : index l (Z.of_nat (length l) - 1) = last l.
Proof.
  unfold index. destruct l as [|x l]; [done|].
  rewrite last_lookup. cbn [length pred].
  destruct (Z.ltb_spec (Z.of_nat (S (length l)) - 1) 0) as [?|_]; [lia|].
  f_equal. lia.
Qed.

Lemma index_of_nat {A : Type} (l : list A) (i : nat) : index l (Z.of_nat i) = l !! i.
Proof.
  unfold index. destruct (Z.ltb_spec (Z.of_nat i) 0) as [?|_]; [lia|].
  by rewrite Nat2Z.id.
Qed.

Lemma foldl_min_le (l : list nat) (a : nat) :
  foldl Nat.min a l ≤ a ∧ Forall (fun x => foldl Nat.min a l ≤ x) l.
Proof.
  revert a. induction l as [|x l IH]; intros a; cbn [foldl]; [by split|].
  destruct (IH (Nat.min a x)) as [Hle Hall]. split; [lia|].
  constructor; [lia|done].
Qed.

Lemma foldl_min_attained (l : list nat) (a : nat) :
  foldl Nat.min a l = a ∨ foldl Nat.min a l ∈ l.
Proof.
  revert a. induction l as [|x l IH]; intros a; cbn [foldl]; [by left|].
  destruct (IH (Nat.min a x)) as [->|Hin]; [|right; by right].
  destruct (Nat.min_spec a x) as [[_ ->]|[_ ->]]; [by left|right; left].
Qed.

Lemma minLength_le (first p : list TreeNode) (others : list (list TreeNode)) :
  p ∈ first :: others → minLength first others ≤ length p.
Proof.
  unfold minLength.
  destruct (foldl_min_le (map length others) (length first)) as [Hle Hall].
  intros [->|Hp]%elem_of_cons; [done|].
  rewrite Forall_forall in Hall. apply Hall, list_elem_of_fmap. by exists p.
Qed.

Lemma minLength_attained (first : list TreeNode) (others : list (list TreeNode)) :
  ∃ p, p ∈ first :: others ∧ length p = minLength first others.
Proof.
  unfold minLength.
  destruct (foldl_min_attained (map length others) (length first)) as [->|Hin].
  - exists first. split; [left|done].
  - apply list_elem_of_fmap in Hin as (p & -> & Hp). exists p. split; [by right|done].
Qed.

Section LcaFacts.
Context {pathLib : PathModule}.
Implicit Types (paths : list (list TreeNode)) (first : list TreeNode).

Lemma agreeAt_commonAt paths first (i : nat) (n : TreeNode) :
  first ∈ paths → first !! i = Some n →
  agreeAt paths i (fullPath n) = true ↔ commonAt paths i.
Proof.
  intros Hfirst Hn. unfold agreeAt, commonAt. rewrite forallb_forall. split.
  - intros Hall. exists (path_normalize (fullPath n)). intros p Hp%list_elem_of_In.
    specialize (Hall p Hp). destruct (p !! i) as [m|]; [|done].
    exists m. split; [done|]. by apply String.eqb_eq.
  - intros (common & Hc) p Hp%list_elem_of_In.
    destruct (Hc p Hp) as (m & -> & Hm). destruct (Hc first Hfirst) as (n' & Hn' & Hcn).
    apply String.eqb_eq. congruence.
Qed.

Lemma lcaLoop_spec paths first (steps i : nat) (lastCommonIndex : Z) :
  first ∈ paths → i + steps ≤ length first →
  (lcaLoop paths first i steps lastCommonIndex = lastCommonIndex
   ∧ (steps = 0 ∨ ¬ commonAt paths i))
  ∨ ∃ d, lcaLoop paths first i steps lastCommonIndex = Z.of_nat d
         ∧ i ≤ d ∧ d < i + steps
         ∧ (∀ j, i ≤ j → j ≤ d → commonAt paths j)
         ∧ (S d = i + steps ∨ ¬ commonAt paths (S d)).
Proof.
  intros Hfirst. revert i lastCommonIndex.
  induction steps as [|steps IH]; intros i lastCommonIndex Hlen; [left; auto|].
  cbn [lcaLoop].
  destruct (lookup_lt_is_Some_2 first i) as [n Hn]; [lia|]. rewrite Hn.
  destruct (agreeAt paths i (fullPath n)) eqn:Hagree.
  - apply (agreeAt_commonAt paths first i n Hfirst Hn) in Hagree. right.
    destruct (IH (S i) (Z.of_nat i)) as [[-> Hstop]|(d & -> & ? & ? & Hall & Hend)]; [lia|..].
    + exists i. split_and!; [done|lia|lia| |].
      * intros j ??. by replace j with i by lia.
      * destruct Hstop as [->|?]; [left; lia|by right].
    + exists d. split_and!; [done|lia|lia| |].
      * intros j ??. destruct (decide (j = i)) as [->|]; [done|]. apply Hall; lia.
      * destruct Hend as [?|?]; [left; lia|by right].
  - left. split; [done|right]. intros Hc.
    apply (agreeAt_commonAt paths first i n Hfirst Hn) in Hc. congruence.
Qed.

(** With two or more paths that share their first node, the node found is
    the deepest on which all paths agree. *)
Lemma findLowestCommonAncestor_deepest paths first second (rest : list (list TreeNode)) :
  paths = first :: second :: rest →
  commonAt paths 0 →
  ∃ d lca, findLowestCommonAncestor paths = Some lca
           ∧ first !! d = Some lca
           ∧ deepestCommon paths d.
Proof.
  intros -> Hzero.
  assert (first ∈ first :: second :: rest) as Hfirst by left.
  pose proof (minLength_le first first (second :: rest) Hfirst) as Hmin.
  destruct (minLength_attained first (second :: rest)) as (short & Hshort & Hlen).
  assert (0 < minLength first (second :: rest)) as Hpos.
  { destruct Hzero as (c & Hc). destruct (Hc short Hshort) as (n & Hn & _).
    apply lookup_lt_Some in Hn. lia. }
  cbn [findLowestCommonAncestor].
  destruct (lcaLoop_spec (first :: second :: rest) first
              (minLength first (second :: rest)) 0 (-1) Hfirst)
    as [[_ [?|Hno]]|(d & -> & _ & Hd & Hall & Hend)]; [lia|lia|done|].
  destruct (lookup_lt_is_Some_2 first d) as [lca Hlca]; [lia|].
  exists d, lca. rewrite index_of_nat.
  destruct (Z.ltb_spec (Z.of_nat d) 0) as [?|_]; [lia|].
  split_and!; [done|done|].
  split; [intros i ?; apply Hall; lia|].
  destruct Hend as [Hend|?]; [|done].
  intros (c & Hc). destruct (Hc short Hshort) as (n & Hn & _).
  apply lookup_lt_Some in Hn. lia.
Qed.
End LcaFacts.

(** ** The root of the pruned tree *)

Section PrunedRoot.
Context {pathLib : PathModule}.
Implicit Types (root : TreeNode) (sel : list string).

Lemma selectionPaths_cons root (s : string) sel :
  selectionPaths root (s :: sel)
  = match findPath root s with
    | Some p => p :: selectionPaths root sel
    | None => selectionPaths root sel
    end.
Proof. done. Qed.

Lemma selectionPaths_commonAt_root root sel : commonAt (selectionPaths root sel) 0.
Proof.
  exists (path_normalize (fullPath root)). intros p (rest & ->)%selectionPaths_from_root.
  by exists root.
Qed.

(** Whenever a selection is found, [findLowestCommonAncestor] finds a node. *)
Lemma selectionPaths_lca root sel :
  selectionPaths root sel ≠ [] →
  is_Some (findLowestCommonAncestor (selectionPaths root sel)).
Proof.
  intros Hne. pose proof (selectionPaths_commonAt_root root sel) as Hzero.
  pose proof (selectionPaths_from_root root sel) as Hroot.
  destruct (selectionPaths root sel) as [|first [|second rest]]; [done|..].
  - destruct (Hroot first) as (tl & ->); [left|].
    cbn [findLowestCommonAncestor]. rewrite index_last, last_cons.
    by destruct (last tl).
  - destruct (findLowestCommonAncestor_deepest _ first second rest eq_refl Hzero)
      as (d & lca & -> & _). by eexists.
Qed.

(** With one selection the node found is the last of its path, and it is
    the selected folder: the second [singleFolder] branch is never taken. *)
Lemma buildPrunedTree_from_lca root sel (lca : TreeNode) :
  findLowestCommonAncestor (selectionPaths root sel) = Some lca →
  buildPrunedTree root sel = Returns (pruneChildren (deepCloneTree lca) sel).
Proof.
  intros Hlca. unfold buildPrunedTree.
  destruct (selectionPaths root sel) as [|first others] eqn:Hpaths; [done|].
  rewrite Hlca.
  destruct sel as [|s [|s' sel']]; [done| |done].
  cbn [length Nat.eqb andb].
  rewrite selectionPaths_cons in Hpaths.
  destruct (findPath root s) as [p|] eqn:Hp; [|done].
  injection Hpaths as <- <-.
  cbn [findLowestCommonAncestor] in Hlca. rewrite index_last in Hlca.
  apply findPath_Some in Hp as (_ & _ & (n & Hlast & Hn) & _).
  assert (n = lca) as -> by congruence.
  apply String.eqb_eq in Hn. by rewrite Hn.
Qed.
End PrunedRoot.

(** The older variant keeps the root it was given. *)
Lemma pruneTreeForSelection_keeps_root {pathLib : PathModule}
    (root : TreeNode) (sel : list string) :
  pruneTreeForSelection root sel
  = mkNode (name root) (fullPath root)
      (Some (pruneChildrenOf (map deepCloneTree (default [] (children root))) sel)).
Proof. by destruct root as [n p [cs|]]. Qed.

(** C2 as stated fails for the older pruner: on [root/{x/{p, q}, y}] with
    [x] selected, [pruneTreeForSelection] returns a tree rooted at [root],
    the ancestor of [x], with [x] and a placeholder below it. *)
Lemma pruneTreeForSelection_shows_ancestor :
  let p := mkNode "p" "/root/x/p" (Some []) in
  let q := mkNode "q" "/root/x/q" (Some []) in
  let x := mkNode "x" "/root/x" (Some [p; q]) in
  let y := mkNode "y" "/root/y" (Some []) in
  let root := mkNode "root" "/root" (Some [x; y]) in
  is_Some (findPath (pathLib := Posix.pathModule "/") root "/root/x")
  ∧ pruneTreeForSelection (pathLib := Posix.pathModule "/") root ["/root/x"]
    = mkNode "root" "/root" (Some [x; placeholder])
  ∧ pruneTreeForSelection (pathLib := Posix.pathModule "/") root ["/root/x"] ≠ x.
Proof. split_and!; [by eexists|reflexivity|discriminate]. Qed.

(** C2, amended: with one selected path that is found in the tree, the tree
    that [buildPrunedTree] returns is rooted at the selected folder itself
    (the last node of its root-to-selection path): it carries that folder's
    name and path, its children are the folder's children after pruning, and
    every node of the output is an entry of the folder's subtree or a
    placeholder, so no ancestor of the folder is shown. The older
    [pruneTreeForSelection] returns a tree rooted at the root it was given,
    whatever is selected. *)
Theorem buildPrunedTree_single_selection {pathLib : PathModule} (root : TreeNode) (s : string) :
  is_Some (findPath root s) →
  ∃ path selected,
    findPath root s = Some path
    ∧ head path = Some root ∧ descends path ∧ last path = Some selected
    ∧ path_normalize (fullPath selected) = path_normalize s
    ∧ let out := pruneChildren (deepCloneTree selected) [s] in
      buildPrunedTree root [s] = Returns out
      ∧ name out = name selected ∧ fullPath out = fullPath selected
      ∧ children out
        = Some (pruneChildrenOf
                  (map deepCloneTree (default [] (children selected))) [s])
      ∧ withinSubtree out selected
      ∧ pruneTreeForSelection root [s]
        = mkNode (name root) (fullPath root)
            (Some (pruneChildrenOf
                     (map deepCloneTree (default [] (children root))) [s])).
Proof.
  intros [path Hpath].
  destruct (findPath_Some _ _ _ Hpath) as ((rest & ->) & Hdesc & (selected & Hlast & Hsel) & _).
  exists (root :: rest), selected. cbv zeta. split_and!; try done.
  - apply buildPrunedTree_from_lca.
    rewrite selectionPaths_cons, Hpath.
    cbn [selectionPaths omap list_omap findLowestCommonAncestor]. by rewrite index_last.
  - by rewrite pruneChildren_name, deepCloneTree_name.
  - by rewrite pruneChildren_fullPath, deepCloneTree_fullPath.
  - destruct selected as [n p [[|c cs]|]]; [done| |done].
    cbn [deepCloneTree]. rewrite pruneChildren_children by done.
    by rewrite pruneChildrenOf_spec.
  - apply pruned_clone_within.
  - apply pruneTreeForSelection_keeps_root.
Qed.

(** The specification's example: [root/{x/{p, q}, y}] with [x] selected. *)
Lemma buildPrunedTree_single_selection_witness :
  let p := mkNode "p" "/root/x/p" (Some []) in
  let q := mkNode "q" "/root/x/q" (Some []) in
  let x := mkNode "x" "/root/x" (Some [p; q]) in
  let y := mkNode "y" "/root/y" (Some []) in
  let root := mkNode "root" "/root" (Some [x; y]) in
  is_Some (findPath (pathLib := Posix.pathModule "/") root "/root/x")
  ∧ buildPrunedTree (pathLib := Posix.pathModule "/") root ["/root/x"]
    = Returns (mkNode "x" "/root/x" (Some [p; q])).
Proof.
  intros p q x y root.
  assert (is_Some (findPath (pathLib := Posix.pathModule "/") root "/root/x")) as Hfound
    by (by eexists).
  split; [done|].
  destruct (buildPrunedTree_single_selection (pathLib := Posix.pathModule "/")
              root "/root/x" Hfound)
    as (path & selected & Hpath & _ & _ & Hlast & _ & -> & _).
  vm_compute in Hpath. injection Hpath as <-.
  vm_compute in Hlast. injection Hlast as <-.
  reflexivity.
Defined.

(** C3: with two or more selected paths, all found in the tree, each path
    computed runs from the root, through children, to a node of the tree
    with the normalized path of its selection, and the pruned tree is rooted
    at the lowest common ancestor: the node of the first of these
    root-to-selection paths at the deepest index [d] such that, at every index
    up to [d], all paths have a node with one normalized full path, while at
    [d + 1] they no longer do. Every node of the output is an entry of that
    node's subtree or a placeholder. *)
Theorem buildPrunedTree_lowest_common_ancestor {pathLib : PathModule}
    (root : TreeNode) (sel : list string) :
  2 ≤ length sel →
  Forall (fun s => is_Some (findPath root s)) sel →
  ∃ paths first d lca,
    paths = selectionPaths root sel
    ∧ Forall2 (fun s p => findPath root s = Some p ∧ head p = Some root ∧ descends p
                          ∧ ∃ n, last p = Some n ∧ n ∈ tree_nodes root
                                 ∧ path_normalize (fullPath n) = path_normalize s)
        sel paths
    ∧ head paths = Some first ∧ first !! d = Some lca
    ∧ deepestCommon paths d
    ∧ findLowestCommonAncestor paths = Some lca
    ∧ let out := pruneChildren (deepCloneTree lca) sel in
      buildPrunedTree root sel = Returns out
      ∧ name out = name lca ∧ fullPath out = fullPath lca
      ∧ withinSubtree out lca.
Proof.
  intros Hlen Hfound.
  pose proof (selectionPaths_all_found root sel Hfound) as Hall.
  pose proof (selectionPaths_commonAt_root root sel) as Hzero.
  destruct (selectionPaths root sel) as [|first [|second rest]] eqn:Hpaths.
  - apply Forall2_length in Hall. cbn in Hall. lia.
  - apply Forall2_length in Hall. cbn in Hall. lia.
  - destruct (findLowestCommonAncestor_deepest _ first second rest eq_refl Hzero)
      as (d & lca & Hlca & Hd & Hdeep).
    exists (first :: second :: rest), first, d, lca. cbv zeta. split_and!; try done.
    + eapply Forall2_impl; [exact Hall|]. intros s p Hp. cbn beta in Hp.
      destruct (findPath_Some _ _ _ Hp) as ((tl & ->) & ? & (n & Hlast & Hn) & Hin).
      split_and!; try done. exists n. split_and!; try done.
      rewrite Forall_forall in Hin. apply Hin.
      rewrite last_lookup in Hlast. by eapply list_elem_of_lookup_2.
    + apply buildPrunedTree_from_lca. by rewrite Hpaths.
    + by rewrite pruneChildren_name, deepCloneTree_name.
    + by rewrite pruneChildren_fullPath, deepCloneTree_fullPath.
    + apply pruned_clone_within.
Qed.

(** The specification's example: [root/{p/{a, b}}] with [p/a] and [p/b]
    selected. *)
Lemma buildPrunedTree_lowest_common_ancestor_witness :
  let a := mkNode "a" "/root/p/a" (Some []) in
  let b := mkNode "b" "/root/p/b" (Some []) in
  let p := mkNode "p" "/root/p" (Some [a; b]) in
  let root := mkNode "root" "/root" (Some [p]) in
  let sel := ["/root/p/a"; "/root/p/b"] in
  (2 ≤ length sel
   ∧ Forall (fun s => is_Some (findPath (pathLib := Posix.pathModule "/") root s)) sel)
  ∧ buildPrunedTree (pathLib := Posix.pathModule "/") root sel
    = Returns (mkNode "p" "/root/p" (Some [a; b])).
Proof.
  intros a b p root sel.
  assert (2 ≤ length sel) as Hlen by (cbn; lia).
  assert (Forall (fun s => is_Some (findPath (pathLib := Posix.pathModule "/") root s)) sel)
    as Hfound by (repeat constructor; by eexists).
  split; [done|].
  destruct (buildPrunedTree_lowest_common_ancestor (pathLib := Posix.pathModule "/")
              root sel Hlen Hfound)
    as (paths & first & d & lca & -> & _ & _ & _ & _ & Hlca & -> & _).
  vm_compute in Hlca. injection Hlca as <-.
  reflexivity.
Defined.

(** C8 as stated fails: for a selection that is not in the tree no common
    ancestor is determined, and a node named [(empty)] is returned. *)
Lemma buildPrunedTree_no_ancestor_returns :
  let root := mkNode "root" "/root" (Some [mkNode "x" "/root/x" (Some [])]) in
  findLowestCommonAncestor (pathLib := Posix.pathModule "/")
    (selectionPaths (pathLib := Posix.pathModule "/") root ["/root/gone"]) = None
  ∧ buildPrunedTree (pathLib := Posix.pathModule "/") root ["/root/gone"]
    = Returns emptyNode.
Proof. split; reflexivity. Qed.

(** C8, amended: [buildPrunedTree] never throws. When no selected path is
    found in the tree it returns the node [(empty)]; otherwise a lowest
    common ancestor is always found (every path starts at the root, so the
    fallback that returns the unpruned root is never taken) and the result is
    the pruned clone of that ancestor. *)
Theorem buildPrunedTree_always_returns {pathLib : PathModule}
    (root : TreeNode) (sel : list string) :
  ∃ out,
    buildPrunedTree root sel = Returns out
    ∧ (selectionPaths root sel = [] → out = emptyNode)
    ∧ (selectionPaths root sel ≠ [] →
       ∃ lca, findLowestCommonAncestor (selectionPaths root sel) = Some lca
              ∧ out = pruneChildren (deepCloneTree lca) sel).
Proof.
  destruct (selectionPaths root sel) as [|first others] eqn:Hpaths.
  - exists emptyNode. unfold buildPrunedTree. rewrite Hpaths. by split_and!.
  - destruct (selectionPaths_lca root sel) as [lca Hlca]; [by rewrite Hpaths|].
    exists (pruneChildren (deepCloneTree lca) sel). split_and!.
    + by apply buildPrunedTree_from_lca.
    + done.
    + intros _. exists lca. by rewrite <- Hpaths.
Qed.

(** ** Patterns *)

Lemma replaceFirst_first (search : ascii) (replacement a b : string) :
  occurs search a = false →
  replaceFirst search replacement (a +:+ String search b) = a +:+ replacement +:+ b.
Proof.
  induction a as [|c a IH]; intros Ha.
  - change ("" +:+ String search b) with (String search b).
    cbn [replaceFirst]. by rewrite Ascii.eqb_refl.
  - cbn [occurs] in Ha. apply orb_false_elim in Ha as [Hc Ha].
    change (String c a +:+ String search b) with (String c (a +:+ String search b)).
    cbn [replaceFirst]. rewrite Hc, IH by done. done.
Qed.

Lemma replaceFirst_none (search : ascii) (replacement s : string) :
  occurs search s = false → replaceFirst search replacement s = s.
Proof.
  induction s as [|c s IH]; intros Hs; [done|].
  cbn [occurs] in Hs. apply orb_false_elim in Hs as [Hc Hs].
  cbn [replaceFirst]. by rewrite Hc, IH.
Qed.

(** The model's [test] is unanchored: a match from any position counts. *)
Lemma regex_test_unanchored (r : list Regex.item) (s : string) :
  Regex.test r s = true ↔ ∃ pre suf, s = pre +:+ suf ∧ Regex.matchHere r suf = true.
Proof.
  split.
  - induction s as [|c s IH]; cbn [Regex.test].
    + rewrite orb_false_r. intros Hm. by exists "", "".
    + intros [Hm|Ht]%orb_true_iff.
      * by exists "", (String c s).
      * destruct (IH Ht) as (pre & suf & -> & Hm). by exists (String c pre), suf.
  - intros (pre & suf & -> & Hm). induction pre as [|c pre IH].
    + change ("" +:+ suf) with suf. destruct suf; cbn [Regex.test]; by rewrite Hm.
    + change (String c pre +:+ suf) with (String c (pre +:+ suf)).
      cbn [Regex.test]. by rewrite IH, orb_true_r.
Qed.

(** A starred item may match nothing. *)
Lemma regex_star_skip (a : Regex.atom) (r : list Regex.item) (s : string) :
  Regex.matchHere r s = true → Regex.matchHere (Regex.mkRepeat a true :: r) s = true.
Proof. intros Hm. cbn [Regex.matchHere Regex.it_star]. destruct s; by rewrite Hm. Qed.

Lemma regex_star_inv (a : Regex.atom) (r : list Regex.item) (s : string) :
  Regex.matchHere (Regex.mkRepeat a true :: r) s = true →
  ∃ pre suf, s = pre +:+ suf ∧ Regex.matchHere r suf = true.
Proof.
  cbn [Regex.matchHere Regex.it_star Regex.it_atom].
  induction s as [|c s IH].
  - rewrite orb_false_r. intros Hm. by exists "", "".
  - intros [Hm|[_ Hs]%andb_true_iff]%orb_true_iff.
    + by exists "", (String c s).
    + destruct (IH Hs) as (pre & suf & -> & Hm). by exists (String c pre), suf.
Qed.

(** What [*.log] looks for: some character that is no line terminator,
    followed by [log]. *)
Lemma regex_star_dot_log (s : string) :
  Regex.test (Regex.compiled "*.log") s = true
  ↔ ∃ pre c post, s = pre +:+ String c ("log" +:+ post)
                  ∧ Regex.isLineTerminator c = false.
Proof.
  rewrite regex_test_unanchored. change (Regex.compiled "*.log") with
    (Regex.mkRepeat Regex.Dot true
       :: [Regex.mkRepeat Regex.Dot false; Regex.mkRepeat (Regex.Lit "l") false;
           Regex.mkRepeat (Regex.Lit "o") false; Regex.mkRepeat (Regex.Lit "g") false]).
  assert (∀ t, Regex.matchHere
                 [Regex.mkRepeat Regex.Dot false; Regex.mkRepeat (Regex.Lit "l") false;
                  Regex.mkRepeat (Regex.Lit "o") false; Regex.mkRepeat (Regex.Lit "g") false] t
               = true
               ↔ ∃ c post, t = String c ("log" +:+ post)
                           ∧ Regex.isLineTerminator c = false) as Htail.
  { intros t. split.
    - destruct t as [|c [|c1 [|c2 [|c3 post]]]]; cbn; rewrite ?andb_false_r; try done.
      intros (Hc & (->%Ascii.eqb_eq & (->%Ascii.eqb_eq
              & [->%Ascii.eqb_eq _]%andb_true_iff)%andb_true_iff)%andb_true_iff)%andb_true_iff.
      exists c, post. split; [done|]. by apply negb_true_iff.
    - intros (c & post & -> & Hc). cbn. by rewrite Hc. }
  split.
  - intros (pre & suf & -> & (mid & tl & -> & (c & post & -> & Hc)%Htail)%regex_star_inv).
    exists (pre +:+ mid), c, post. by rewrite append_assoc.
  - intros (pre & c & post & -> & Hc).
    exists pre, (String c ("log" +:+ post)). split; [done|].
    apply regex_star_skip, Htail. by exists c, post.
Qed.

(** ** Tree builder *)

Lemma bind_Returns {A B : Type} (a : A) (k : A → outcome B) : (Returns a ≫= k) = k a.
Proof. done. Qed.

Lemma bind_Throws {A B : Type} (e : exn) (k : A → outcome B) : (Throws e ≫= k) = Throws e.
Proof. done. Qed.

Lemma some_Returns {A : Type} (f : A → outcome bool) (g : A → bool) (l : list A) :
  Forall (fun x => f x = Returns (g x)) l → some f l = Returns (existsb g l).
Proof.
  induction 1 as [|x l Hx _ IH]; [done|].
  cbn [some existsb]. rewrite Hx, bind_Returns. by destruct (g x).
Qed.

(** [some] stops at the first callback that returns [true]. *)
Lemma some_short_circuit {A : Type} (f : A → outcome bool) (before after : list A) (x : A) :
  Forall (fun y => ∃ b, f y = Returns b) before →
  f x = Returns true →
  some f (before ++ x :: after) = Returns true.
Proof.
  intros Hbefore Hx. induction Hbefore as [|y before [b Hy] _ IH]; cbn [app some].
  - by rewrite Hx.
  - rewrite Hy, bind_Returns. by destruct b.
Qed.

Lemma forEachOutcome_Returns {A B : Type} (f : A → outcome B) (g : A → B) (l : list A) :
  Forall (fun x => f x = Returns (g x)) l → forEachOutcome f l = Returns (map g l).
Proof.
  induction 1 as [|x l Hx _ IH]; [done|].
  cbn [forEachOutcome map]. by rewrite Hx, IH.
Qed.


Lemma forEachOutcome_Forall {A B : Type} (f : A → outcome B) (P : B → Prop)
    (l : list A) (ys : list B) :
  Forall (fun x => ∀ y, f x = Returns y → P y) l →
  forEachOutcome f l = Returns ys → Forall P ys.
Proof.
  intros Hl. revert ys. induction Hl as [|x l Hx _ IH]; intros ys; cbn [forEachOutcome].
  - by intros [= <-].
  - destruct (f x) as [y|] eqn:Hy; [|done]. rewrite bind_Returns.
    destruct (forEachOutcome f l) as [ys'|]; [|done]. rewrite bind_Returns.
    intros [= <-]. constructor; [by apply Hx|by apply IH].
Qed.

(** The [map] pass is a [map] over the entries that the [filter] kept. *)
Lemma mapKept_filter {T : Type} (build : string → FsEntry → outcome T)
    (excludedBy : string → bool) (entries : list (string * FsEntry)) :
  mapKept build entries (map excludedBy entries.*1)
  = forEachOutcome (fun e => build e.1 e.2)
      (List.filter (fun e => negb (excludedBy e.1)) entries).
Proof.
  induction entries as [|[entry sub] entries IH]; [done|].
  cbn [fmap list_fmap map mapKept List.filter fst]. fold (mapKept build).
  destruct (excludedBy entry); cbn [negb]; [done|].
  cbn [forEachOutcome fst snd]. by rewrite <- IH.
Qed.

Lemma statable_dir (entries : list (string * FsEntry)) :
  statable (FsDir entries) ↔ Forall (fun e => statable e.2) entries.
Proof.
  cbn [statable]. induction entries as [|[entry sub] entries IH].
  - split; [constructor|done].
  - rewrite Forall_cons, <- IH. done.
Qed.


Section BuilderFacts.
Context {pathLib : PathModule} {regexpLib : RegExpEngine}.
Implicit Types (dirPath entry pattern : string) (pats : list string)
  (entries : list (string * FsEntry)) (compiled : string → RegExp).

Lemma isExcluded_matchedBy compiled dirPath pats entry :
  compiles compiled pats →
  isExcluded dirPath pats entry
  = Returns (existsb (matchedBy compiled dirPath entry) pats).
Proof.
  intros Hc. unfold isExcluded. apply some_Returns.
  eapply Forall_impl; [exact Hc|]. intros pattern Hp. cbn beta. by rewrite Hp.
Qed.

Lemma buildTree_dir compiled dirPath pats entries :
  compiles compiled pats →
  buildTree dirPath (FsDir entries) pats
  = cs ← forEachOutcome (fun e => buildTree (path_join dirPath e.1) e.2 pats)
           (keptEntries compiled dirPath pats entries);
    Returns (mkNode (nodeName dirPath) dirPath (Some cs)).
Proof.
  intros Hc. cbn [buildTree].
  rewrite (forEachOutcome_Returns _
             (fun entry => existsb (matchedBy compiled dirPath entry) pats)).
  - by rewrite bind_Returns, mapKept_filter.
  - apply Forall_forall. intros entry _. by apply isExcluded_matchedBy.
Qed.



End BuilderFacts.

Lemma forEachOutcome_Forall2 {A B : Type} (f : A → outcome B) (l : list A) (ys : list B) :
  forEachOutcome f l = Returns ys → Forall2 (fun x y => f x = Returns y) l ys.
Proof.
  revert ys. induction l as [|x l IH]; intros ys; cbn [forEachOutcome].
  - intros [= <-]. constructor.
  - destruct (f x) as [y|] eqn:Hy; [|done]. rewrite bind_Returns.
    destruct (forEachOutcome f l) as [ys'|]; [|done]. rewrite bind_Returns.
    intros [= <-]. constructor; [done|by apply IH].
Qed.

Section BuilderRoot.
Context {pathLib : PathModule} {regexpLib : RegExpEngine}.

(** The node returned for a path is the node of that path: the root is not
    tested against the patterns. *)
Lemma buildTree_root (dirPath : string) (fs : FsEntry) (pats : list string) (t : TreeNode) :
  buildTree dirPath fs pats = Returns t →
  name t = nodeName dirPath ∧ fullPath t = dirPath.
Proof.
  destruct fs as [|entries|]; cbn [buildTree]; [by intros [= <-]| |done].
  destruct (forEachOutcome _ _) as [excluded|]; [|done]. rewrite bind_Returns.
  destruct (mapKept _ _ _) as [cs|]; [|done]. rewrite bind_Returns.
  by intros [= <-].
Qed.
End BuilderRoot.




(** C9 as stated fails: an invalid pattern before the empty one is compiled
    first, and the build throws. *)
Lemma buildTree_empty_pattern_after_invalid :
  buildTree (pathLib := Posix.pathModule "/") (regexpLib := Regex.engine)
    "/work" (FsDir [("a.txt", FsFile)]) ["**"; ""]
  = Throws SyntaxError.
Proof. reflexivity. Qed.

Lemma list_filter_none {A : Type} (l : list A) : List.filter (fun _ => false) l = [].
Proof. by induction l. Qed.

(** C9, amended: when the pattern list holds the empty string, every
    pattern before its first occurrence yields a regular expression, and the
    empty pattern yields one that is found in every string, each entry of a
    directory is excluded and [buildTree] returns the root with an empty
    list of children (patterns after the empty one are never compiled, and no
    entry is statted). *)
Theorem buildTree_empty_pattern {pathLib : PathModule} {regexpLib : RegExpEngine}
    (dirPath : string) (entries : list (string * FsEntry))
    (before after : list string) (any : RegExp) :
  Forall (fun pattern => ∃ r, patternRegExp pattern = Returns r) before →
  RegExp_new "" = Returns any →
  (∀ s, RegExp_test any s = true) →
  (∀ entry, isExcluded dirPath (before ++ "" :: after) entry = Returns true)
  ∧ buildTree dirPath (FsDir entries) (before ++ "" :: after)
    = Returns (mkNode (nodeName dirPath) dirPath (Some []))
  ∧ buildTree_js dirPath (FsDir entries) (before ++ "" :: after)
    = Returns (mkItem (path_basename dirPath) (Some [])).
Proof.
  intros Hbefore Hnew Hany.
  assert (∀ entry, isExcluded dirPath (before ++ "" :: after) entry = Returns true)
    as Hex.
  { intros entry. unfold isExcluded. apply some_short_circuit.
    - eapply Forall_impl; [exact Hbefore|]. intros pattern [r Hr]. cbn beta.
      rewrite Hr. by eexists.
    - unfold patternRegExp. cbn [replaceFirst]. by rewrite Hnew, bind_Returns, Hany. }
  split_and!; [done|..].
  - cbn [buildTree].
    rewrite (forEachOutcome_Returns _ (fun _ => true))
      by (apply Forall_forall; intros entry _; apply Hex).
    by rewrite bind_Returns, mapKept_filter, list_filter_none.
  - cbn [buildTree_js].
    rewrite (forEachOutcome_Returns _ (fun _ => true))
      by (apply Forall_forall; intros entry _; apply Hex).
    by rewrite bind_Returns, mapKept_filter, list_filter_none.
Qed.

Lemma buildTree_empty_pattern_witness :
  let entries := [("a", FsBroken); ("b", FsDir [("c.txt", FsFile)])] in
  (Forall (fun pattern => ∃ r, patternRegExp (regexpLib := Regex.engine) pattern = Returns r)
     ["*.log"]
   ∧ RegExp_new (RegExpEngine := Regex.engine) "" = Returns []
   ∧ ∀ s, RegExp_test (RegExpEngine := Regex.engine) [] s = true)
  ∧ buildTree (pathLib := Posix.pathModule "/") (regexpLib := Regex.engine)
      "/work" (FsDir entries) ["*.log"; ""; "**"]
    = Returns (mkNode "work" "/work" (Some [])).
Proof.
  intros entries.
  assert (Forall (fun pattern =>
                    ∃ r, patternRegExp (regexpLib := Regex.engine) pattern = Returns r)
            ["*.log"]) as Hbefore by (repeat constructor; by eexists).
  assert (∀ s, RegExp_test (RegExpEngine := Regex.engine) [] s = true) as Hany
    by (by intros [|c s]).
  split; [by split_and!|].
  destruct (buildTree_empty_pattern (pathLib := Posix.pathModule "/")
              (regexpLib := Regex.engine) "/work" entries ["*.log"] ["**"] []
              Hbefore eq_refl Hany) as (_ & Hbuild & _).
  exact Hbuild.
Defined.

(** C6 as stated fails: under a directory whose path holds [log] after some
    character, [*.log] excludes [app.txt] too, through its full path. *)
Lemma isExcluded_app_txt_under_blog :
  isExcluded (pathLib := Posix.pathModule "/") (regexpLib := Regex.engine)
    "/blog" ["*.log"] "app.txt" = Returns true
  ∧ buildTree (pathLib := Posix.pathModule "/") (regexpLib := Regex.engine)
      "/blog" (FsDir [("app.txt", FsFile)]) ["*.log"]
    = Returns (mkNode "blog" "/blog" (Some [])).
Proof. split; reflexivity. Qed.

(** C6, amended: the regular expression of a pattern is the pattern with
    its first [*] replaced by [.*], any later [*] left as it is; the pattern
    [*.log] excludes an entry named [app.log] in every directory, and excludes
    an entry named [app.txt] exactly when the pattern is found in the entry's
    full path, that is when some character other than a line terminator is
    followed there by [log] (not below [/work], for one). *)
Theorem pattern_first_star_only :
  (∀ (regexpLib : RegExpEngine) pattern,
     patternRegExp pattern = RegExp_new (replaceFirst "*" ".*" pattern))
  ∧ (∀ a b, occurs "*" a = false →
            replaceFirst "*" ".*" (a +:+ "*" +:+ b) = a +:+ ".*" +:+ b)
  ∧ (∀ s, occurs "*" s = false → replaceFirst "*" ".*" s = s)
  ∧ replaceFirst "*" ".*" "*.min.*" = ".*.min.*"
  ∧ (∀ (pathLib : PathModule) dirPath,
       isExcluded (regexpLib := Regex.engine) dirPath ["*.log"] "app.log" = Returns true)
  ∧ (∀ (pathLib : PathModule) dirPath,
       isExcluded (regexpLib := Regex.engine) dirPath ["*.log"] "app.txt"
       = Returns (Regex.test (Regex.compiled "*.log") (path_join dirPath "app.txt")))
  ∧ (∀ fullEntryPath,
       Regex.test (Regex.compiled "*.log") fullEntryPath = true
       ↔ ∃ pre c post, fullEntryPath = pre +:+ String c ("log" +:+ post)
                       ∧ Regex.isLineTerminator c = false)
  ∧ isExcluded (pathLib := Posix.pathModule "/") (regexpLib := Regex.engine)
      "/work" ["*.log"] "app.txt" = Returns false.
Proof.
  split_and!; try done.
  - intros a b Ha. exact (replaceFirst_first "*" ".*" a b Ha).
  - intros s Hs. by apply replaceFirst_none.
  - intros pathLib dirPath. unfold isExcluded. cbn [some].
    change (patternRegExp "*.log") with (Returns (Regex.compiled "*.log")).
    rewrite bind_Returns.
    change (@RegExp_test Regex.engine (Regex.compiled "*.log") "app.txt") with false.
    cbn [orb]. rewrite bind_Returns.
    change (@RegExp_test Regex.engine) with Regex.test.
    by destruct (Regex.test _ _).
  - apply regex_star_dot_log.
Qed.

(** ** The [children] field *)

Lemma childrenPresent_node (n p : string) (cs : list TreeNode) :
  childrenPresent (mkNode n p (Some cs)) ↔ Forall childrenPresent cs.
Proof.
  unfold childrenPresent. cbn [tree_nodes]. rewrite Forall_cons. cbn [children].
  split.
  - intros [_ Hall]. apply Forall_forall. intros c Hc. apply Forall_forall. intros m Hm.
    rewrite Forall_forall in Hall. apply Hall.
    apply list_elem_of_In, in_concat. exists (tree_nodes c).
    rewrite <- !list_elem_of_In. split; [|done]. apply list_elem_of_fmap. by exists c.
  - intros Hall. split; [by eexists|]. apply Forall_forall. intros m Hm.
    apply list_elem_of_In, in_concat in Hm as (l & (c & <- & Hc)%in_map_iff & Hm).
    rewrite Forall_forall in Hall. specialize (Hall c). rewrite list_elem_of_In in Hall.
    specialize (Hall Hc). rewrite Forall_forall in Hall. by apply Hall, list_elem_of_In.
Qed.

Lemma itemChildrenPresent_node (n : string) (cs : list Item) :
  itemChildrenPresent (mkItem n (Some cs)) ↔ Forall itemChildrenPresent cs.
Proof.
  unfold itemChildrenPresent. cbn [item_nodes]. rewrite Forall_cons. cbn [item_children].
  split.
  - intros [_ Hall]. apply Forall_forall. intros c Hc. apply Forall_forall. intros m Hm.
    rewrite Forall_forall in Hall. apply Hall.
    apply list_elem_of_In, in_concat. exists (item_nodes c).
    rewrite <- !list_elem_of_In. split; [|done]. apply list_elem_of_fmap. by exists c.
  - intros Hall. split; [by eexists|]. apply Forall_forall. intros m Hm.
    apply list_elem_of_In, in_concat in Hm as (l & (c & <- & Hc)%in_map_iff & Hm).
    rewrite Forall_forall in Hall. specialize (Hall c). rewrite list_elem_of_In in Hall.
    specialize (Hall Hc). rewrite Forall_forall in Hall. by apply Hall, list_elem_of_In.
Qed.

Lemma deepCloneTree_present (t : TreeNode) : childrenPresent (deepCloneTree t).
Proof.
  induction t as [n p|n p cs IH] using TreeNode_rose_ind; cbn [deepCloneTree].
  - by apply childrenPresent_node.
  - apply childrenPresent_node, Forall_map. exact IH.
Qed.

Lemma placeholder_present : childrenPresent placeholder.
Proof. by apply childrenPresent_node. Qed.

Lemma pruneChildren_present {pathLib : PathModule} (t : TreeNode) (sel : list string) :
  childrenPresent t → childrenPresent (pruneChildren t sel).
Proof.
  induction t as [n p|n p cs IH] using TreeNode_rose_ind; [done|].
  intros Hcs%childrenPresent_node.
  destruct cs as [|c cs]; [by apply childrenPresent_node|].
  rewrite pruneChildren_children by done.
  apply childrenPresent_node, Forall_app. split.
  - unfold keptChildren. apply Forall_map, Forall_list_filter.
    apply Forall_forall. intros x Hx. rewrite Forall_forall in IH, Hcs. by apply IH, Hcs.
  - destruct (hasIrrelevant _ _); [|constructor].
    apply Forall_singleton, placeholder_present.
Qed.

Lemma pruneChildrenOf_present {pathLib : PathModule} (cs : list TreeNode) (sel : list string) :
  Forall childrenPresent cs → Forall childrenPresent (pruneChildrenOf cs sel).
Proof.
  intros Hcs. rewrite pruneChildrenOf_spec. apply Forall_app. split.
  - unfold keptChildren. apply Forall_map, Forall_list_filter.
    eapply Forall_impl; [exact Hcs|]. intros x Hx. by apply pruneChildren_present.
  - destruct (hasIrrelevant _ _); [|constructor].
    apply Forall_singleton, placeholder_present.
Qed.

Lemma mapKept_Forall {T : Type} (build : string → FsEntry → outcome T) (P : T → Prop)
    (entries : list (string * FsEntry)) (excluded : list bool) (cs : list T) :
  Forall (fun e => ∀ t, build e.1 e.2 = Returns t → P t) entries →
  mapKept build entries excluded = Returns cs → Forall P cs.
Proof.
  intros Hall. revert excluded cs.
  induction Hall as [|[entry sub] entries He _ IH]; intros excluded cs.
  - by intros [= <-].
  - cbn [mapKept]. fold (mapKept build).
    destruct excluded as [|[|] excluded]; [by intros [= <-]|apply IH|].
    destruct (build entry sub) as [c|] eqn:Hc; [|done]. rewrite bind_Returns.
    destruct (mapKept build entries excluded) as [cs'|] eqn:Hcs; [|done].
    rewrite bind_Returns. intros [= <-]. constructor; [by apply He|by eapply IH].
Qed.

Section BuilderPresent.
Context {pathLib : PathModule} {regexpLib : RegExpEngine}.

Lemma buildTree_present (fs : FsEntry) (dirPath : string) (pats : list string) (t : TreeNode) :
  buildTree dirPath fs pats = Returns t → childrenPresent t.
Proof.
  revert dirPath t.
  induction fs as [| |entries IH] using FsEntry_rose_ind; intros dirPath t; cbn [buildTree].
  - intros [= <-]. by apply childrenPresent_node.
  - done.
  - destruct (forEachOutcome _ _) as [excluded|]; [|done]. rewrite bind_Returns.
    destruct (mapKept _ _ _) as [cs|] eqn:Hcs; [|done]. rewrite bind_Returns.
    intros [= <-]. apply childrenPresent_node.
    eapply mapKept_Forall; [|exact Hcs].
    eapply Forall_impl; [exact IH|]. intros e He t. apply He.
Qed.

Lemma buildTree_js_present (fs : FsEntry) (dirPath : string) (pats : list string) (t : Item) :
  buildTree_js dirPath fs pats = Returns t → itemChildrenPresent t.
Proof.
  revert dirPath t.
  induction fs as [| |entries IH] using FsEntry_rose_ind; intros dirPath t; cbn [buildTree_js].
  - intros [= <-]. by apply itemChildrenPresent_node.
  - done.
  - destruct (forEachOutcome _ _) as [excluded|]; [|done]. rewrite bind_Returns.
    destruct (mapKept _ _ _) as [cs|] eqn:Hcs; [|done]. rewrite bind_Returns.
    intros [= <-]. apply itemChildrenPresent_node.
    eapply mapKept_Forall; [|exact Hcs].
    eapply Forall_impl; [exact IH|]. intros e He t. apply He.
Qed.
End BuilderPresent.

(** C10: every node produced by [buildTree], [deepCloneTree] or the pruner
    has its [children] field present: a file becomes a node with the empty
    array, [deepCloneTree] turns an absent field into the empty array, and
    the pruner returns a pruned clone or the node [(empty)]. *)
Theorem children_always_present {pathLib : PathModule} {regexpLib : RegExpEngine} :
  (∀ dirPath fs pats t, buildTree dirPath fs pats = Returns t → childrenPresent t)
  ∧ (∀ dirPath fs pats t, buildTree_js dirPath fs pats = Returns t → itemChildrenPresent t)
  ∧ (∀ dirPath pats,
       buildTree dirPath FsFile pats = Returns (mkNode (nodeName dirPath) dirPath (Some []))
       ∧ buildTree_js dirPath FsFile pats = Returns (mkItem (path_basename dirPath) (Some [])))
  ∧ (∀ t, childrenPresent (deepCloneTree t))
  ∧ (∀ n p, deepCloneTree (mkNode n p None) = mkNode n p (Some []))
  ∧ (∀ root sel out, buildPrunedTree root sel = Returns out → childrenPresent out)
  ∧ (∀ root sel, childrenPresent (pruneTreeForSelection root sel)).
Proof.
  split_and!; try done.
  - intros dirPath fs pats t. apply buildTree_present.
  - intros dirPath fs pats t. apply buildTree_js_present.
  - apply deepCloneTree_present.
  - intros root sel out Hout.
    destruct (selectionPaths root sel) as [|first others] eqn:Hpaths.
    + unfold buildPrunedTree in Hout. rewrite Hpaths in Hout. injection Hout as <-.
      by apply childrenPresent_node.
    + destruct (selectionPaths_lca root sel) as [lca Hlca]; [by rewrite Hpaths|].
      rewrite (buildPrunedTree_from_lca root sel lca Hlca) in Hout. injection Hout as <-.
      apply pruneChildren_present, deepCloneTree_present.
  - intros root sel. rewrite pruneTreeForSelection_keeps_root.
    apply childrenPresent_node, pruneChildrenOf_present, Forall_map.
    apply Forall_forall. intros c _. apply deepCloneTree_present.
Qed.

(** ** The pruner on objects *)

Section HeapBasics.
Implicit Types (h : list Heap.NodeObj) (l : Heap.loc) (fp : list Heap.loc) (t : TreeNode).

Lemma run_bind_Some {A B : Type} (m : Heap.Run A) (k : A → Heap.Run B) h (a : A) h1 :
  m h = Some (a, h1) → (m ≫= k) h = k a h1.
Proof. intros Hm. unfold mbind, Heap.run_bind. by rewrite Hm. Qed.

Lemma readObj_Some h l (o : Heap.NodeObj) : h !! l = Some o → Heap.readObj l h = Some (o, h).
Proof. intros Hl. unfold Heap.readObj. by rewrite Hl. Qed.

Lemma mkObj_eta (o : Heap.NodeObj) :
  Heap.mkObj (Heap.o_name o) (Heap.o_fullPath o) (Heap.o_children o) = o.
Proof. by destruct o. Qed.

Lemma all3_length {A B C : Type} (R : A → B → C → Prop) xs ys zs :
  Heap.all3 R xs ys zs → length xs = length ys ∧ length ys = length zs.
Proof.
  revert ys zs. induction xs as [|x xs IH]; intros [|y ys] [|z zs]; cbn; try done.
  intros [_ (-> & ->)%IH]. done.
Qed.

Lemma all3_impl {A B C : Type} (R R' : A → B → C → Prop) xs ys zs :
  Forall (fun x => ∀ y z, R x y z → R' x y z) xs →
  Heap.all3 R xs ys zs → Heap.all3 R' xs ys zs.
Proof.
  intros Hxs. revert ys zs.
  induction Hxs as [|x xs Hx _ IH]; intros [|y ys] [|z zs]; cbn; try done.
  intros [? ?]. split; [by apply Hx|by apply IH].
Qed.

Lemma all3_app {A B C : Type} (R : A → B → C → Prop) xs ys zs xs' ys' zs' :
  Heap.all3 R xs ys zs → Heap.all3 R xs' ys' zs' →
  Heap.all3 R (xs ++ xs') (ys ++ ys') (zs ++ zs').
Proof.
  revert ys zs. induction xs as [|x xs IH]; intros [|y ys] [|z zs]; cbn; try done.
  intros [? ?] ?. split; [done|by apply IH].
Qed.

Lemma tree_at_head h t l fp : Heap.tree_at h t l fp → ∃ rest, fp = l :: rest.
Proof.
  destruct t as [n p [ts|]]; cbn.
  - intros (o & _ & _ & _ & ls & fps & _ & -> & _). by eexists.
  - intros (o & _ & _ & _ & _ & ->). by eexists.
Qed.

Lemma tree_at_obj h t l fp :
  Heap.tree_at h t l fp →
  ∃ o, h !! l = Some o ∧ Heap.o_name o = name t ∧ Heap.o_fullPath o = fullPath t.
Proof.
  destruct t as [n p cs]. cbn. intros (o & ? & ? & ? & _). by exists o.
Qed.

(** The objects of a tree are allocated. *)
Lemma tree_at_bound h t l fp : Heap.tree_at h t l fp → Forall (fun x => x < length h) fp.
Proof.
  revert l fp. induction t as [n p|n p ts IH] using TreeNode_rose_ind; intros l fp; cbn.
  - intros (o & Hl%lookup_lt_Some & _ & _ & _ & ->). by constructor.
  - intros (o & Hl%lookup_lt_Some & _ & _ & ls & fps & _ & -> & Hall).
    constructor; [done|]. clear Hl.
    revert ls fps Hall. induction IH as [|t ts Ht _ IHts]; intros [|l' ls] [|fp' fps]; cbn;
      try done.
    intros [Hfirst Hrest]. apply Forall_app. split; [by eapply Ht|by eapply IHts].
Qed.

(** A tree only depends on its objects. *)
Lemma tree_at_agree h h' t l fp :
  Heap.tree_at h t l fp → (∀ x, x ∈ fp → h' !! x = h !! x) → Heap.tree_at h' t l fp.
Proof.
  revert l fp. induction t as [n p|n p ts IH] using TreeNode_rose_ind; intros l fp; cbn.
  - intros (o & Hl & ? & ? & ? & ->) Hfp. exists o. rewrite Hfp by left. done.
  - intros (o & Hl & ? & ? & ls & fps & Hcs & -> & Hall) Hfp.
    exists o. rewrite Hfp by left. split_and!; [done..|].
    exists ls, fps. split_and!; [done..|].
    assert (∀ x, x ∈ concat fps → h' !! x = h !! x) as Hsub
      by (intros x Hx; apply Hfp; by right).
    clear Hfp Hl Hcs. revert ls fps Hall Hsub.
    induction IH as [|t ts Ht _ IHts]; intros [|l' ls] [|fp' fps]; cbn; try done.
    intros [Hfirst Hrest] Hsub. split.
    + apply Ht; [done|]. intros x Hx. apply Hsub, elem_of_app. by left.
    + apply IHts; [done|]. intros x Hx. apply Hsub, elem_of_app. by right.
Qed.

Lemma tree_at_app h new t l fp : Heap.tree_at h t l fp → Heap.tree_at (h ++ new) t l fp.
Proof.
  intros Ht. eapply tree_at_agree; [exact Ht|].
  intros x Hx. apply lookup_app_l.
  pose proof (tree_at_bound _ _ _ _ Ht) as Hb. rewrite Forall_forall in Hb. by apply Hb.
Qed.

Lemma all3_tree_at_agree h h' (ts : list TreeNode) (ls : list Heap.loc)
    (fps : list (list Heap.loc)) :
  Heap.all3 (fun t l fp => Heap.tree_at h t l fp) ts ls fps →
  (∀ x, x ∈ concat fps → h' !! x = h !! x) →
  Heap.all3 (fun t l fp => Heap.tree_at h' t l fp) ts ls fps.
Proof.
  revert ls fps. induction ts as [|t ts IH]; intros [|l ls] [|fp fps]; cbn; try done.
  intros [Hfirst Hrest] Hsub. split.
  - eapply tree_at_agree; [done|]. intros x Hx. apply Hsub, elem_of_app. by left.
  - apply IH; [done|]. intros x Hx. apply Hsub, elem_of_app. by right.
Qed.

Lemma all3_tree_at_bound h (ts : list TreeNode) (ls : list Heap.loc) (fps : list (list Heap.loc)) :
  Heap.all3 (fun t l fp => Heap.tree_at h t l fp) ts ls fps →
  Forall (fun x => x < length h) (concat fps).
Proof.
  revert ls fps. induction ts as [|t ts IH]; intros [|l ls] [|fp fps]; cbn; try done.
  intros [Hfirst Hrest]. apply Forall_app. split; [by eapply tree_at_bound|by eapply IH].
Qed.

Lemma all3_tree_at_app h new (ts : list TreeNode) (ls : list Heap.loc)
    (fps : list (list Heap.loc)) :
  Heap.all3 (fun t l fp => Heap.tree_at h t l fp) ts ls fps →
  Heap.all3 (fun t l fp => Heap.tree_at (h ++ new) t l fp) ts ls fps.
Proof.
  intros Hall. eapply all3_tree_at_agree; [exact Hall|].
  intros x Hx. apply lookup_app_l.
  pose proof (all3_tree_at_bound _ _ _ _ Hall) as Hb. rewrite Forall_forall in Hb.
  by apply Hb.
Qed.
End HeapBasics.

Lemma tree_size_children (n p : string) (ts : list TreeNode) (fuel : nat) :
  tree_size (mkNode n p (Some ts)) ≤ S fuel → Forall (fun t => tree_size t ≤ fuel) ts.
Proof.
  cbn [tree_size]. intros Hle. apply le_S_n in Hle. revert fuel Hle.
  induction ts as [|t ts IH]; intros fuel Hle; [constructor|].
  change (tree_size t + sum_list (map tree_size ts) ≤ fuel) in Hle.
  constructor; [lia|]. apply IH. lia.
Qed.

Lemma tree_size_pos (t : TreeNode) : 0 < tree_size t.
Proof. destruct t as [n p [ts|]]; cbn; lia. Qed.

Section HeapClone.
Implicit Types (h : list Heap.NodeObj) (l : Heap.loc) (fp : list Heap.loc) (t : TreeNode).

(** Cloning the children, one after the other. *)
Lemma heap_clone_children (fuel : nat) (ts : list TreeNode) :
  Forall (fun t => ∀ l fp h, Heap.tree_at h t l fp →
            ∃ l' new fp', Heap.deepCloneTree fuel l h = Some (l', h ++ new)
                          ∧ Heap.tree_at (h ++ new) (deepCloneTree t) l' fp'
                          ∧ NoDup fp' ∧ Forall (fun x => length h ≤ x) fp') ts →
  ∀ (ls : list Heap.loc) (fps : list (list Heap.loc)) h,
    Heap.all3 (fun t l fp => Heap.tree_at h t l fp) ts ls fps →
    ∃ ls' new fps',
      Heap.forEachRun (Heap.deepCloneTree fuel) ls h = Some (ls', h ++ new)
      ∧ Heap.all3 (fun t l fp => Heap.tree_at (h ++ new) t l fp)
          (map deepCloneTree ts) ls' fps'
      ∧ NoDup (concat fps') ∧ Forall (fun x => length h ≤ x) (concat fps').
Proof.
  induction 1 as [|t ts Ht _ IH]; intros [|l ls] [|fp fps] h; cbn [Heap.all3]; try done.
  - intros _. exists [], [], []. rewrite app_nil_r. split_and!; [done|done|constructor|constructor].
  - intros [Hfirst Hrest].
    destruct (Ht l fp h Hfirst) as (l1 & new1 & fp1 & Hrun1 & Hat1 & Hnd1 & Hge1).
    destruct (IH ls fps (h ++ new1)) as (ls2 & new2 & fps2 & Hrun2 & Hat2 & Hnd2 & Hge2);
      [by apply all3_tree_at_app|].
    exists (l1 :: ls2), (new1 ++ new2), (fp1 :: fps2).
    pose proof (tree_at_bound _ _ _ _ Hat1) as Hlt1.
    rewrite Forall_forall in Hge1, Hge2, Hlt1.
    split_and!.
    + cbn [Heap.forEachRun]. rewrite (run_bind_Some _ _ _ _ _ Hrun1).
      rewrite (run_bind_Some _ _ _ _ _ Hrun2). by rewrite app_assoc.
    + cbn [map Heap.all3]. rewrite app_assoc. split; [by apply tree_at_app|done].
    + cbn [concat]. apply NoDup_app. split_and!; [done| |done].
      intros x Hx1 Hx2. specialize (Hlt1 x Hx1). specialize (Hge2 x Hx2). lia.
    + cbn [concat]. apply Forall_forall. intros x [Hx|Hx]%elem_of_app; [by apply Hge1|].
      specialize (Hge2 x Hx). rewrite length_app in Hge2. lia.
Qed.

(** A clone is a copy of the tree in newly allocated objects, each of them
    used once. *)
Lemma heap_deepCloneTree_ok t (fuel : nat) l fp h :
  Heap.tree_at h t l fp → tree_size t ≤ fuel →
  ∃ l' new fp', Heap.deepCloneTree fuel l h = Some (l', h ++ new)
                ∧ Heap.tree_at (h ++ new) (deepCloneTree t) l' fp'
                ∧ NoDup fp' ∧ Forall (fun x => length h ≤ x) fp'.
Proof.
  revert fuel l fp h.
  induction t as [n p|n p ts IH] using TreeNode_rose_ind; intros fuel l fp h Hat Hfuel.
  - destruct fuel as [|fuel]; [cbn in Hfuel; lia|].
    destruct Hat as (o & Hl & Hn & Hp & Hcs & ->).
    exists (length h), [Heap.mkObj n p (Some [])], [length h].
    split_and!.
    + cbn [Heap.deepCloneTree]. rewrite (run_bind_Some _ _ _ _ _ (readObj_Some _ _ _ Hl)).
      rewrite Hcs, Hn, Hp. done.
    + cbn. eexists. rewrite lookup_app_r, Nat.sub_diag by done. cbn.
      split_and!; [done..|]. by exists [], [].
    + apply NoDup_singleton.
    + by repeat constructor.
  - destruct fuel as [|fuel]; [cbn in Hfuel; lia|].
    destruct Hat as (o & Hl & Hn & Hp & ls & fps & Hcs & -> & Hall).
    apply tree_size_children in Hfuel.
    destruct (heap_clone_children fuel ts) with (ls := ls) (fps := fps) (h := h)
      as (ls' & new & fps' & Hrun & Hat' & Hnd & Hge); [|done|].
    { rewrite Forall_forall in IH, Hfuel. apply Forall_forall. intros t Ht l' fp' h' Hat'.
      by eapply IH, Hfuel. }
    exists (length (h ++ new)), (new ++ [Heap.mkObj n p (Some ls')]),
      (length (h ++ new) :: concat fps').
    pose proof (all3_tree_at_bound _ _ _ _ Hat') as Hlt.
    rewrite Forall_forall in Hge, Hlt.
    split_and!.
    + cbn [Heap.deepCloneTree]. rewrite (run_bind_Some _ _ _ _ _ (readObj_Some _ _ _ Hl)).
      rewrite Hcs. rewrite (run_bind_Some _ _ _ _ _ Hrun).
      unfold Heap.alloc. by rewrite Hn, Hp, app_assoc.
    + cbn [deepCloneTree Heap.tree_at]. eexists. rewrite app_assoc.
      rewrite lookup_app_r, Nat.sub_diag by done. cbn [lookup list_lookup].
      split_and!; [done..|]. exists ls', fps'. split_and!; [done..|].
      by apply all3_tree_at_app.
    + apply NoDup_cons. split; [|done]. intros Hin%Hlt. lia.
    + apply Forall_forall. intros x [->|Hx]%elem_of_cons; [|by apply Hge].
      rewrite length_app. lia.
Qed.
End HeapClone.

Section HeapPrune.
Context {pathLib : PathModule}.
Implicit Types (h : list Heap.NodeObj) (l : Heap.loc) (fp : list Heap.loc) (t : TreeNode)
  (sel : list string).

Lemma heap_isRelevant h t l fp (o : Heap.NodeObj) sel :
  Heap.tree_at h t l fp → h !! l = Some o → Heap.isRelevant o sel = isRelevant t sel.
Proof.
  intros (o' & Ho' & _ & Hp)%tree_at_obj Ho. assert (o' = o) as -> by congruence.
  unfold Heap.isRelevant, isRelevant. by rewrite Hp.
Qed.

Lemma heap_setChildren_same h l (o : Heap.NodeObj) :
  h !! l = Some o → Heap.setChildren l (Heap.o_children o) h = Some ((), h).
Proof.
  intros Hl. unfold Heap.setChildren. rewrite Hl, mkObj_eta. by rewrite list_insert_id.
Qed.

(** The loop's accumulators only collect. *)
Lemma heap_siblingLoop_acc (prune : Heap.loc → Heap.Run Heap.loc) sel
    (ls acc : list Heap.loc) (flag : bool) h :
  Heap.siblingLoop prune sel ls acc flag h
  = match Heap.siblingLoop prune sel ls [] false h with
    | Some ((kept, had), h') => Some ((acc ++ kept, flag || had), h')
    | None => None
    end.
Proof.
  revert acc flag h. induction ls as [|child rest IH]; intros acc flag h.
  - cbn. unfold Heap.ret. by rewrite app_nil_r, orb_false_r.
  - cbn [Heap.siblingLoop]. unfold mbind, Heap.run_bind.
    destruct (Heap.readObj child h) as [[o h0]|]; [|done].
    destruct (Heap.isRelevant o sel).
    + destruct (prune child h0) as [[pruned h1]|]; [|done].
      destruct (Heap.readObj pruned h1) as [[po h2]|]; [|done].
      destruct (Heap.setChildren child (Heap.o_children po) h2) as [[[] h3]|]; [|done].
      rewrite (IH (acc ++ [child])), (IH ([] ++ [child])).
      destruct (Heap.siblingLoop prune sel rest [] false h3) as [[[kept had] h4]|]; [|done].
      by rewrite <- app_assoc.
    + rewrite (IH acc true), (IH [] true).
      destruct (Heap.siblingLoop prune sel rest [] false h0) as [[[kept had] h4]|]; [|done].
      by rewrite orb_true_r.
Qed.

Lemma keptChildren_cons t (ts : list TreeNode) sel :
  keptChildren (t :: ts) sel
  = if isRelevant t sel then pruneChildren t sel :: keptChildren ts sel
    else keptChildren ts sel.
Proof. unfold keptChildren. cbn [List.filter]. by destruct (isRelevant t sel). Qed.

Lemma hasIrrelevant_cons t (ts : list TreeNode) sel :
  hasIrrelevant (t :: ts) sel = negb (isRelevant t sel) || hasIrrelevant ts sel.
Proof. done. Qed.

(** The loop prunes the relevant children in place, one after the other. *)
Lemma heap_siblingLoop_ok (fuel : nat) sel (ts : list TreeNode) :
  Forall (prunedInPlace fuel sel) ts →
  ∀ (ls : list Heap.loc) (fps : list (list Heap.loc)) h,
    Heap.all3 (fun t l fp => Heap.tree_at h t l fp) ts ls fps →
    NoDup (concat fps) →
    ∃ h' keptLs keptFps,
      Heap.siblingLoop (fun child => Heap.pruneChildren fuel child sel) sel ls [] false h
      = Some ((keptLs, hasIrrelevant ts sel), h')
      ∧ length h ≤ length h'
      ∧ (∀ x, x < length h → x ∉ concat fps → h' !! x = h !! x)
      ∧ Heap.all3 (fun t l fp => Heap.tree_at h' t l fp)
          (keptChildren ts sel) keptLs keptFps
      ∧ NoDup (concat keptFps)
      ∧ (∀ x, x ∈ concat keptFps → x ∈ concat fps ∨ length h ≤ x).
Proof.
  induction 1 as [|t ts Ht _ IH]; intros [|l ls] [|fp fps] h; cbn [Heap.all3]; try done.
  - intros _ _. exists h, [], []. split_and!; try done; [constructor|by left].
  - intros [Hfirst Hrest] Hnd. cbn [concat] in Hnd |- *.
    apply NoDup_app in Hnd as (Hnd1 & Hdisj & Hnd2).
    pose proof (all3_tree_at_bound _ _ _ _ Hrest) as Hlt. rewrite Forall_forall in Hlt.
    destruct (tree_at_obj _ _ _ _ Hfirst) as (o & Ho & _).
    cbn [Heap.siblingLoop]. rewrite (run_bind_Some _ _ _ _ _ (readObj_Some _ _ _ Ho)).
    rewrite (heap_isRelevant _ _ _ _ _ sel Hfirst Ho).
    rewrite keptChildren_cons, hasIrrelevant_cons.
    destruct (isRelevant t sel) eqn:Hrel; cbn [negb orb].
    + destruct (Ht l fp h Hfirst Hnd1)
        as (h1 & fp1 & Hrun1 & Hlen1 & Hframe1 & Hat1 & Hnd1' & Hsub1).
      rewrite (run_bind_Some _ _ _ _ _ Hrun1).
      destruct (tree_at_obj _ _ _ _ Hat1) as (po & Hpo & _).
      rewrite (run_bind_Some _ _ _ _ _ (readObj_Some _ _ _ Hpo)).
      rewrite (run_bind_Some _ _ _ _ _ (heap_setChildren_same _ _ _ Hpo)).
      rewrite heap_siblingLoop_acc.
      destruct (IH ls fps h1)
        as (h2 & keptLs & keptFps & -> & Hlen2 & Hframe2 & Hat2 & Hnd2' & Hsub2).
      { eapply all3_tree_at_agree; [exact Hrest|]. intros x Hx.
        apply Hframe1; [by apply Hlt|]. intros Hx1. by apply (Hdisj x). }
      { done. }
      pose proof (tree_at_bound _ _ _ _ Hat1) as Hlt1. rewrite Forall_forall in Hlt1.
      assert (∀ x, x ∈ fp1 → x ∉ concat fps) as Hfresh1.
      { intros x Hx Hx'. destruct (Hsub1 x Hx) as [Hin|Hge].
        - by apply (Hdisj x).
        - specialize (Hlt x Hx'). lia. }
      exists h2, (l :: keptLs), (fp1 :: keptFps). split_and!.
      * done.
      * lia.
      * intros x Hx Hnot. rewrite Hframe2, Hframe1; [done|done| |lia|].
        -- intros Hx1. apply Hnot, elem_of_app. by left.
        -- intros Hx2. apply Hnot, elem_of_app. by right.
      * cbn [Heap.all3]. split; [|done].
        eapply tree_at_agree; [exact Hat1|]. intros x Hx.
        apply Hframe2; [by apply Hlt1|by apply Hfresh1].
      * cbn [concat]. apply NoDup_app. split_and!; [done| |done].
        intros x Hx1 Hx2. destruct (Hsub2 x Hx2) as [Hin|Hge].
        -- by apply (Hfresh1 x).
        -- specialize (Hlt1 x Hx1). lia.
      * cbn [concat]. intros x [Hx|Hx]%elem_of_app.
        -- destruct (Hsub1 x Hx) as [?|?]; [left; apply elem_of_app; by left|by right].
        -- destruct (Hsub2 x Hx) as [?|?]; [left; apply elem_of_app; by right|right; lia].
    + rewrite heap_siblingLoop_acc.
      destruct (IH ls fps h Hrest Hnd2)
        as (h2 & keptLs & keptFps & -> & Hlen2 & Hframe2 & Hat2 & Hnd2' & Hsub2).
      exists h2, keptLs, keptFps. split_and!; try done.
      * intros x Hx Hnot. apply Hframe2; [done|]. intros Hx2. apply Hnot, elem_of_app. by right.
      * intros x Hx. destruct (Hsub2 x Hx) as [?|?]; [left; apply elem_of_app; by right|by right].
Qed.
End HeapPrune.

Section HeapPruneTree.
Context {pathLib : PathModule}.
Implicit Types (h : list Heap.NodeObj) (l : Heap.loc) (fp : list Heap.loc) (t : TreeNode)
  (sel : list string).

(** [root.children = relevantChildren]. *)
Lemma heap_store_children h l (o : Heap.NodeObj) (kids : list TreeNode)
    (kls : list Heap.loc) (kfps : list (list Heap.loc)) :
  h !! l = Some o →
  Heap.all3 (fun t l fp => Heap.tree_at h t l fp) kids kls kfps →
  l ∉ concat kfps →
  Heap.tree_at (<[l := Heap.mkObj (Heap.o_name o) (Heap.o_fullPath o) (Some kls)]> h)
    (mkNode (Heap.o_name o) (Heap.o_fullPath o) (Some kids)) l (l :: concat kfps).
Proof.
  intros Hl Hall Hnot. cbn [Heap.tree_at]. eexists.
  rewrite list_lookup_insert_eq by (by eapply lookup_lt_Some).
  split_and!; [done..|]. exists kls, kfps. split_and!; [done..|].
  eapply all3_tree_at_agree; [exact Hall|].
  intros x Hx. apply list_lookup_insert_ne. by intros ->.
Qed.

Lemma all3_nil_inv {A B C : Type} (R : A → B → C → Prop) (ys : list B) (zs : list C) :
  Heap.all3 R [] ys zs → ys = [] ∧ zs = [].
Proof. by destruct ys, zs. Qed.

(** [pruneChildren] prunes the tree it is given in place. *)
Lemma heap_pruneChildren_ok sel t (fuel : nat) :
  tree_size t ≤ fuel → prunedInPlace fuel sel t.
Proof.
  revert fuel.
  induction t as [n p|n p ts IH] using TreeNode_rose_ind; intros fuel Hfuel l fp h Hat Hnd;
    (destruct fuel as [|fuel]; [cbn in Hfuel; lia|]).
  - pose proof Hat as (o & Hl & Hn & Hp & Hcs & ->).
    exists h, [l]. split_and!; try done.
    + cbn [Heap.pruneChildren]. rewrite (run_bind_Some _ _ _ _ _ (readObj_Some _ _ _ Hl)).
      by rewrite Hcs.
    + by left.
  - pose proof Hat as (o & Hl & Hn & Hp & ls & fps & Hcs & -> & Hall).
    destruct ts as [|c cs].
    { apply all3_nil_inv in Hall as [-> ->].
      exists h, [l]. split_and!; try done.
      - cbn [Heap.pruneChildren]. rewrite (run_bind_Some _ _ _ _ _ (readObj_Some _ _ _ Hl)).
        by rewrite Hcs.
      - by left. }
    apply tree_size_children in Hfuel.
    apply NoDup_cons in Hnd as [Hroot Hnd].
    destruct (heap_siblingLoop_ok fuel sel (c :: cs)) with (ls := ls) (fps := fps) (h := h)
      as (h1 & keptLs & keptFps & Hloop & Hlen1 & Hframe1 & Hat1 & Hnd1 & Hsub1);
      [|done|done|].
    { rewrite Forall_forall in IH, Hfuel. apply Forall_forall. intros t Ht.
      by apply IH, Hfuel. }
    assert (l < length h) as Hlt by (by eapply lookup_lt_Some).
    assert (h1 !! l = Some o) as Hl1 by (by rewrite Hframe1).
    pose proof (all3_tree_at_bound _ _ _ _ Hat1) as Hlt1. rewrite Forall_forall in Hlt1.
    assert (l ∉ concat keptFps) as Hroot1.
    { intros Hin. destruct (Hsub1 l Hin) as [?|?]; [done|lia]. }
    destruct ls as [|l0 ls0]; [by destruct fps|].
    rewrite pruneChildren_children by done.
    cbn [Heap.pruneChildren]. rewrite (run_bind_Some _ _ _ _ _ (readObj_Some _ _ _ Hl)).
    rewrite Hcs. rewrite (run_bind_Some _ _ _ _ _ Hloop).
    rewrite <- Hn, <- Hp.
    destruct (hasIrrelevant (c :: cs) sel).
    + set (ph := length h1).
      assert ((h1 ++ [Heap.placeholderObj]) !! l = Some o) as Hl2
        by (by rewrite lookup_app_l by (by eapply lookup_lt_Some)).
      exists (<[l := Heap.mkObj (Heap.o_name o) (Heap.o_fullPath o) (Some (keptLs ++ [ph]))]>
                (h1 ++ [Heap.placeholderObj])),
        (l :: concat (keptFps ++ [[ph]])).
      split_and!.
      * unfold mbind at 1, Heap.run_bind at 1. cbn [Heap.alloc Heap.ret].
        unfold mbind at 1, Heap.run_bind at 1. unfold Heap.alloc at 1.
        unfold mbind at 1, Heap.run_bind at 1. unfold Heap.ret at 1.
        unfold mbind, Heap.run_bind, Heap.setChildren. by rewrite Hl2.
      * rewrite length_insert, length_app. lia.
      * intros x Hx Hnot. rewrite list_lookup_insert_ne, lookup_app_l by
          (first [lia | intros ->; apply Hnot; left]).
        apply Hframe1; [done|]. intros Hin. apply Hnot. by right.
      * apply heap_store_children; [done| |].
        -- apply all3_app; [by apply all3_tree_at_app|].
           cbn. split; [|done]. eexists. rewrite lookup_app_r, Nat.sub_diag by done.
           cbn. split_and!; [done..|]. by exists [], [].
        -- rewrite concat_app. cbn [concat app].
           intros [Hin|Hin%list_elem_of_singleton]%elem_of_app; [done|]. subst ph. lia.
      * rewrite concat_app. cbn [concat app]. apply NoDup_cons. split.
        -- intros [Hin|Hin%list_elem_of_singleton]%elem_of_app; [done|]. subst ph. lia.
        -- apply NoDup_app. split_and!; [done| |apply NoDup_singleton].
           intros x Hx Hph%list_elem_of_singleton. specialize (Hlt1 x Hx). subst ph. lia.
      * rewrite concat_app. cbn [concat app].
        intros x [-> | [Hx | ->%list_elem_of_singleton]%elem_of_app]%elem_of_cons.
        -- left. left.
        -- destruct (Hsub1 x Hx) as [?|?]; [left; by right|by right].
        -- right. subst ph. lia.
    + exists (<[l := Heap.mkObj (Heap.o_name o) (Heap.o_fullPath o) (Some keptLs)]> h1),
        (l :: concat keptFps).
      rewrite ?app_nil_r. split_and!.
      * unfold mbind at 1, Heap.run_bind at 1. unfold Heap.ret at 1.
        unfold mbind, Heap.run_bind, Heap.setChildren. by rewrite Hl1.
      * rewrite length_insert. lia.
      * intros x Hx Hnot. rewrite list_lookup_insert_ne by (intros ->; apply Hnot; left).
        apply Hframe1; [done|]. intros Hin. apply Hnot. by right.
      * by apply heap_store_children.
      * by apply NoDup_cons.
      * intros x [->|Hx]%elem_of_cons; [left; left|].
        destruct (Hsub1 x Hx) as [?|?]; [left; by right|by right].
Qed.
End HeapPruneTree.

Section HeapFind.
Context {pathLib : PathModule}.
Implicit Types (h : list Heap.NodeObj) (l : Heap.loc) (fp : list Heap.loc) (t : TreeNode)
  (sel : list string).

Lemma heap_repr_fullPath h l t (o : Heap.NodeObj) :
  Heap.repr h l t → h !! l = Some o → Heap.o_fullPath o = fullPath t.
Proof.
  intros [fp (o' & Ho' & _ & Hp)%tree_at_obj] Ho. congruence.
Qed.

Lemma heap_firstChildPath_ok (target : string) (fuel : nat) h l (rootT : TreeNode)
    (ts : list TreeNode) :
  Heap.repr h l rootT →
  Forall (fun c => ∀ l fp, Heap.tree_at h c l fp →
            ∃ r, Heap.findPath fuel l target h = Some (r, h)
                 ∧ option_Forall2 (Forall2 (Heap.repr h)) r (findPath c target)) ts →
  ∀ (ls : list Heap.loc) (fps : list (list Heap.loc)),
    Heap.all3 (fun t l fp => Heap.tree_at h t l fp) ts ls fps →
    ∃ r, Heap.firstChildPath l (fun child => Heap.findPath fuel child target) ls h
         = Some (r, h)
         ∧ option_Forall2 (Forall2 (Heap.repr h)) r
             (firstChildPath rootT (fun child => findPath child target) ts).
Proof.
  intros Hroot.
  induction 1 as [|c cs Hc _ IHcs]; intros [|l1 ls] [|fp1 fps]; cbn [Heap.all3]; try done.
  - intros _. eexists. split; [done|]. constructor.
  - intros [Hfirst Hrest].
    destruct (Hc l1 fp1 Hfirst) as (r1 & Hrun1 & Hr1).
    cbn [Heap.firstChildPath firstChildPath].
    rewrite (run_bind_Some _ _ _ _ _ Hrun1).
    destruct Hr1 as [lp tp Hpath|].
    + eexists. split; [done|]. constructor. by constructor.
    + by eapply IHcs.
Qed.

(** [findPath] only reads, and finds the objects of the path. *)
Lemma heap_findPath_ok (target : string) t (fuel : nat) l fp h :
  Heap.tree_at h t l fp → tree_size t ≤ fuel →
  ∃ r, Heap.findPath fuel l target h = Some (r, h)
       ∧ option_Forall2 (Forall2 (Heap.repr h)) r (findPath t target).
Proof.
  revert fuel l fp.
  induction t as [n p|n p ts IH] using TreeNode_rose_ind; intros fuel l fp Hat Hfuel;
    (destruct fuel as [|fuel]; [cbn in Hfuel; lia|]).
  - pose proof Hat as (o & Hl & Hn & Hp & Hcs & ->).
    cbn [Heap.findPath findPath fullPath].
    rewrite (run_bind_Some _ _ _ _ _ (readObj_Some _ _ _ Hl)), Hp.
    destruct (String.eqb _ _).
    + eexists. split; [done|]. repeat constructor. by eexists.
    + rewrite Hcs. eexists. split; [done|]. constructor.
  - pose proof Hat as (o & Hl & Hn & Hp & ls & fps & Hcs & -> & Hall).
    cbn [Heap.findPath findPath fullPath].
    rewrite (run_bind_Some _ _ _ _ _ (readObj_Some _ _ _ Hl)), Hp.
    destruct (String.eqb _ _).
    { eexists. split; [done|]. repeat constructor. by eexists. }
    rewrite Hcs. apply tree_size_children in Hfuel.
    eapply heap_firstChildPath_ok; [by eexists| |exact Hall].
    rewrite Forall_forall in IH, Hfuel. apply Forall_forall. intros c Hc l' fp' Hat'.
    by eapply IH, Hfuel.
Qed.

Lemma heap_selectionPaths_ok t (fuel : nat) l fp h sel :
  Heap.tree_at h t l fp → tree_size t ≤ fuel →
  ∃ paths, Heap.selectionPaths fuel l sel h = Some (paths, h)
           ∧ Forall2 (Forall2 (Heap.repr h)) paths (selectionPaths t sel).
Proof.
  intros Hat Hfuel. induction sel as [|s sel (paths & Hrun & Hpaths)].
  - exists []. split; [done|constructor].
  - destruct (heap_findPath_ok s t fuel l fp h Hat Hfuel) as (r & Hfind & Hr).
    cbn [Heap.selectionPaths]. rewrite (run_bind_Some _ _ _ _ _ Hfind).
    rewrite (run_bind_Some _ _ _ _ _ Hrun). rewrite selectionPaths_cons.
    destruct Hr as [lp tp Hpath|]; eexists; (split; [done|]); [by constructor|done].
Qed.

Lemma heap_fullPathAt h (lp : list Heap.loc) (tp : list TreeNode) (i : nat) :
  Forall2 (Heap.repr h) lp tp →
  Heap.fullPathAt h lp i = fullPath <$> tp !! i.
Proof.
  intros Hp. unfold Heap.fullPathAt.
  destruct (lp !! i) as [l|] eqn:Hl; cbn.
  - destruct (Forall2_lookup_l _ _ _ _ _ Hp Hl) as (t & -> & Hrepr). cbn.
    destruct Hrepr as [fp (o & Ho & _ & Hpath)%tree_at_obj]. rewrite Ho. cbn. by rewrite Hpath.
  - apply lookup_ge_None in Hl. rewrite (Forall2_length _ _ _ Hp) in Hl.
    apply lookup_ge_None in Hl. by rewrite Hl.
Qed.

Lemma heap_agreeAt h (lps : list (list Heap.loc)) (tps : list (list TreeNode))
    (i : nat) (candidate : string) :
  Forall2 (Forall2 (Heap.repr h)) lps tps →
  Heap.agreeAt h lps i candidate = agreeAt tps i candidate.
Proof.
  unfold Heap.agreeAt, agreeAt. induction 1 as [|lp tp lps tps Hp _ IH]; [done|].
  cbn [forallb]. rewrite IH, (heap_fullPathAt _ _ _ _ Hp). by destruct (tp !! i).
Qed.

Lemma heap_lcaLoop h (lps : list (list Heap.loc)) (tps : list (list TreeNode))
    (lfirst : list Heap.loc) (tfirst : list TreeNode) (steps i : nat) (last : Z) :
  Forall2 (Forall2 (Heap.repr h)) lps tps → Forall2 (Heap.repr h) lfirst tfirst →
  Heap.lcaLoop h lps lfirst i steps last = lcaLoop tps tfirst i steps last.
Proof.
  intros Hps Hfirst. revert i last. induction steps as [|steps IH]; intros i last; [done|].
  cbn [Heap.lcaLoop lcaLoop]. rewrite (heap_fullPathAt _ _ _ _ Hfirst).
  destruct (tfirst !! i) as [n|]; cbn; [|done].
  rewrite (heap_agreeAt _ _ _ _ _ Hps), IH. done.
Qed.

Lemma heap_minLength h (lfirst : list Heap.loc) (tfirst : list TreeNode)
    (lps : list (list Heap.loc)) (tps : list (list TreeNode)) :
  Forall2 (Heap.repr h) lfirst tfirst → Forall2 (Forall2 (Heap.repr h)) lps tps →
  Heap.minLength lfirst lps = minLength tfirst tps.
Proof.
  intros Hfirst Hps. unfold Heap.minLength, minLength.
  rewrite (Forall2_length _ _ _ Hfirst). f_equal.
  induction Hps as [|lp tp lps tps Hp _ IH]; [done|].
  cbn [map]. by rewrite IH, (Forall2_length _ _ _ Hp).
Qed.

Lemma heap_index {A B : Type} (R : A → B → Prop) (xs : list A) (ys : list B) (i : Z) :
  Forall2 R xs ys → option_Forall2 R (index xs i) (index ys i).
Proof.
  intros Hxy. unfold index. destruct (i <? 0)%Z; [constructor|].
  by apply Forall2_lookup.
Qed.

Lemma heap_findLowestCommonAncestor_ok h (lps : list (list Heap.loc))
    (tps : list (list TreeNode)) :
  Forall2 (Forall2 (Heap.repr h)) lps tps →
  ∃ r, Heap.findLowestCommonAncestor lps h = Some (r, h)
       ∧ option_Forall2 (Heap.repr h) r (findLowestCommonAncestor tps).
Proof.
  intros Hps. eexists. split; [done|].
  destruct Hps as [|lfirst tfirst lps tps Hfirst Hps]; [constructor|].
  destruct Hps as [|lsecond tsecond lps tps Hsecond Hps].
  - cbn. rewrite (Forall2_length _ _ _ Hfirst). by apply heap_index.
  - cbn [Heap.findLowestCommonAncestor findLowestCommonAncestor].
    rewrite (heap_minLength h lfirst tfirst (lsecond :: lps) (tsecond :: tps))
      by (done || by constructor).
    rewrite (heap_lcaLoop h (lfirst :: lsecond :: lps) (tfirst :: tsecond :: tps)
               lfirst tfirst) by (done || by repeat constructor).
    destruct (_ <? 0)%Z; [constructor|]. by apply heap_index.
Qed.
End HeapFind.

Lemma tree_size_deepCloneTree (t : TreeNode) : tree_size (deepCloneTree t) = tree_size t.
Proof.
  induction t as [n p|n p ts IH] using TreeNode_rose_ind; [done|].
  cbn [deepCloneTree tree_size]. f_equal. rewrite map_map.
  induction IH as [|c cs Hc _ IHcs]; [done|]. cbn [map sum_list]. by rewrite Hc, IHcs.
Qed.

Lemma tree_size_nodes (t m : TreeNode) : m ∈ tree_nodes t → tree_size m ≤ tree_size t.
Proof.
  revert m. induction t as [n p|n p ts IH] using TreeNode_rose_ind; intros m Hm.
  - apply tree_nodes_inv in Hm as [->|(cs & c & [=] & _)]. done.
  - apply tree_nodes_inv in Hm as [->|(cs & c & [= <-] & Hc & Hm)]; [done|].
    rewrite Forall_forall in IH. specialize (IH c Hc m Hm).
    pose proof (tree_size_children n p ts (sum_list (map tree_size ts))) as Hsum.
    rewrite Forall_forall in Hsum. specialize (Hsum (le_n _) c Hc).
    cbn [tree_size]. lia.
Qed.

Section LcaInTree.
Context {pathLib : PathModule}.

Lemma index_elem_of {A : Type} (l : list A) (i : Z) (x : A) : index l i = Some x → x ∈ l.
Proof.
  unfold index. destruct (i <? 0)%Z; [done|]. apply list_elem_of_lookup_2.
Qed.

Lemma findLowestCommonAncestor_in_first (paths : list (list TreeNode)) (lca : TreeNode) :
  findLowestCommonAncestor paths = Some lca →
  ∃ first, head paths = Some first ∧ lca ∈ first.
Proof.
  destruct paths as [|first [|second rest]]; cbn [findLowestCommonAncestor]; [done|..].
  - intros Hi%index_elem_of. by exists first.
  - destruct (_ <? 0)%Z; [done|]. intros Hi%index_elem_of. by exists first.
Qed.

(** The common ancestor is a node of the tree. *)
Lemma selectionPaths_lca_in_tree (root : TreeNode) (sel : list string) (lca : TreeNode) :
  findLowestCommonAncestor (selectionPaths root sel) = Some lca →
  lca ∈ tree_nodes root.
Proof.
  intros (first & Hhead & Hin)%findLowestCommonAncestor_in_first.
  assert (first ∈ selectionPaths root sel) as Hfirst.
  { destruct (selectionPaths root sel); [done|]. injection Hhead as ->. left. }
  unfold selectionPaths in Hfirst. apply list_elem_of_omap in Hfirst as (s & _ & Hs).
  apply findPath_Some in Hs as (_ & _ & _ & Hall). rewrite Forall_forall in Hall.
  by apply Hall.
Qed.

(** With one selection, the common ancestor is the selected folder. *)
Lemma single_selection_lca (root : TreeNode) (s : string) (lca : TreeNode) :
  findLowestCommonAncestor (selectionPaths root [s]) = Some lca →
  String.eqb (path_normalize (fullPath lca)) (path_normalize s) = true.
Proof.
  rewrite selectionPaths_cons.
  destruct (findPath root s) as [p|] eqn:Hp; [|done].
  cbn [selectionPaths omap list_omap findLowestCommonAncestor]. rewrite index_last.
  apply findPath_Some in Hp as (_ & _ & (n & Hlast & Hn) & _).
  intros Hlca. assert (n = lca) as -> by congruence. by apply String.eqb_eq.
Qed.
End LcaInTree.

Section HeapRender.
Implicit Types (h : list Heap.NodeObj) (l : Heap.loc) (fp : list Heap.loc) (t : TreeNode).

Lemma heap_forEachChild_ok h (render : TreeNode → bool → string)
    (render_h : Heap.loc → bool → option string) (count : nat) (ts : list TreeNode) :
  Forall (fun c => ∀ l fp b, Heap.tree_at h c l fp → render_h l b = Some (render c b)) ts →
  ∀ (ls : list Heap.loc) (fps : list (list Heap.loc)) (i : nat) (line : string),
    Heap.all3 (fun t l fp => Heap.tree_at h t l fp) ts ls fps →
    Heap.forEachChild render_h count ls i line
    = Some (forEachChild render count ts i line).
Proof.
  induction 1 as [|c cs Hc _ IH]; intros [|l ls] [|fp fps] i line; cbn [Heap.all3]; try done.
  intros [Hfirst Hrest]. cbn [Heap.forEachChild forEachChild].
  rewrite (Hc l fp _ Hfirst). cbn. by apply IH with (fps := fps).
Qed.

(** Rendering from the heap renders the tree it holds. *)
Lemma heap_renderTree_ok t (fuel : nat) h l fp (prefix : string) (isLast : bool) :
  Heap.tree_at h t l fp → tree_size t ≤ fuel →
  Heap.renderTree fuel h l prefix isLast = Some (renderTree t prefix isLast).
Proof.
  revert fuel l fp prefix isLast.
  induction t as [n p|n p ts IH] using TreeNode_rose_ind;
    intros fuel l fp prefix isLast Hat Hfuel;
    (destruct fuel as [|fuel]; [cbn in Hfuel; lia|]).
  - destruct Hat as (o & Hl & Hn & Hp & Hcs & ->).
    cbn [Heap.renderTree]. rewrite Hl. cbn. by rewrite Hcs, Hn.
  - destruct Hat as (o & Hl & Hn & Hp & ls & fps & Hcs & -> & Hall).
    cbn [Heap.renderTree]. rewrite Hl. cbn [mbind option_bind]. rewrite Hcs, Hn.
    destruct (all3_length _ ts ls fps Hall) as [Hlen _].
    destruct ts as [|c cs]; [by apply all3_nil_inv in Hall as [-> _]|].
    destruct ls as [|l0 ls0]; [done|].
    cbn [renderTree name]. rewrite <- Hlen.
    apply heap_forEachChild_ok with (h := h) (fps := fps); [|done].
    apply tree_size_children in Hfuel.
    rewrite Forall_forall in IH, Hfuel. apply Forall_forall. intros x Hx l' fp' b Hat'.
    by eapply IH, Hfuel.
Qed.
End HeapRender.

(** C7: whatever the selection, [buildPrunedTree] returns (given fuel for
    the size of the tree) and leaves every object of the input heap as it
    was, so the input still holds the full tree and renders to the same
    string before and after; the tree returned is the pruned tree of the
    value-level [buildPrunedTree], held in objects that were all allocated
    by the call, each used once. *)
Theorem buildPrunedTree_leaves_input_unmodified {pathLib : PathModule}
    (h : list Heap.NodeObj) (root : Heap.loc) (t : TreeNode) (fp : list Heap.loc)
    (sel : list string) (fuel : nat) :
  Heap.tree_at h t root fp →
  tree_size t ≤ fuel →
  ∃ out h' pruned fp',
    Heap.buildPrunedTree fuel root sel h = Some (out, h')
    ∧ buildPrunedTree t sel = Returns pruned
    ∧ Heap.tree_at h' pruned out fp' ∧ NoDup fp'
    ∧ (∀ l, l < length h → h' !! l = h !! l)
    ∧ Heap.tree_at h' t root fp
    ∧ (∀ l, l ∈ fp' → length h ≤ l)
    ∧ Heap.renderTree fuel h root "" true = Some (render t)
    ∧ Heap.renderTree fuel h' root "" true = Some (render t).
Proof.
  intros Hat Hfuel.
  assert (∀ h', (∀ l, l < length h → h' !! l = h !! l) → Heap.tree_at h' t root fp)
    as Hkept.
  { intros h' Hframe. eapply tree_at_agree; [exact Hat|]. intros x Hx. apply Hframe.
    pose proof (tree_at_bound _ _ _ _ Hat) as Hb. rewrite Forall_forall in Hb.
    by apply Hb. }
  assert (∀ out h' pruned fp',
            Heap.buildPrunedTree fuel root sel h = Some (out, h') →
            buildPrunedTree t sel = Returns pruned →
            Heap.tree_at h' pruned out fp' → NoDup fp' →
            (∀ l, l < length h → h' !! l = h !! l) →
            (∀ l, l ∈ fp' → length h ≤ l) →
            ∃ out h' pruned fp',
              Heap.buildPrunedTree fuel root sel h = Some (out, h')
              ∧ buildPrunedTree t sel = Returns pruned
              ∧ Heap.tree_at h' pruned out fp' ∧ NoDup fp'
              ∧ (∀ l, l < length h → h' !! l = h !! l)
              ∧ Heap.tree_at h' t root fp
              ∧ (∀ l, l ∈ fp' → length h ≤ l)
              ∧ Heap.renderTree fuel h root "" true = Some (render t)
              ∧ Heap.renderTree fuel h' root "" true = Some (render t)) as Hfinish.
  { intros out h' pruned fp' Hrun Hpure Hout Hnd Hframe Hfresh.
    exists out, h', pruned, fp'. split_and!; try done.
    - by apply Hkept.
    - by eapply heap_renderTree_ok.
    - eapply heap_renderTree_ok; [by apply Hkept|done]. }
  destruct (heap_selectionPaths_ok t fuel root fp h sel Hat Hfuel) as (paths & Hpaths & Hrel).
  destruct (selectionPaths t sel) as [|tfirst tothers] eqn:Htpaths.
  - (* no selection is found: a new node [(empty)] *)
    apply Forall2_nil_inv_r in Hrel as ->.
    apply (Hfinish (length h) (h ++ [Heap.emptyObj]) emptyNode [length h]).
    + unfold Heap.buildPrunedTree. by rewrite (run_bind_Some _ _ _ _ _ Hpaths).
    + unfold buildPrunedTree. by rewrite Htpaths.
    + cbn. eexists. rewrite lookup_app_r, Nat.sub_diag by done. cbn.
      split_and!; [done..|]. by exists [], [].
    + apply NoDup_singleton.
    + intros l Hl. by apply lookup_app_l.
    + by intros l ->%list_elem_of_singleton.
  - (* the pruned clone of the common ancestor *)
    destruct (selectionPaths_lca t sel) as [lca Hlca]; [by rewrite Htpaths|].
    pose proof (buildPrunedTree_from_lca t sel lca Hlca) as Hpure.
    pose proof (selectionPaths_lca_in_tree t sel lca Hlca) as Hin%tree_size_nodes.
    rewrite Htpaths in Hlca.
    destruct (heap_findLowestCommonAncestor_ok h paths _ Hrel) as (r & Hfind & Hr).
    rewrite Hlca in Hr. inversion Hr as [lcaNode ? [fp0 Hat0] Heq1 Heq2|]. subst.
    destruct (tree_at_obj _ _ _ _ Hat0) as (o & Ho & _ & Hpath).
    destruct (heap_deepCloneTree_ok lca fuel lcaNode fp0 h Hat0) as
      (c & new & fpc & Hclone & Hatc & Hndc & Hfreshc); [lia|].
    rewrite Forall_forall in Hfreshc.
    destruct (heap_pruneChildren_ok sel (deepCloneTree lca) fuel) with
      (l := c) (fp := fpc) (h := h ++ new)
      as (h' & fp' & Hprune & Hlen & Hframe & Hat' & Hnd' & Hsub);
      [rewrite tree_size_deepCloneTree; lia|done|done|].
    assert (Heap.buildPrunedTree fuel root sel h = Some (c, h')) as Hrun.
    { unfold Heap.buildPrunedTree. rewrite (run_bind_Some _ _ _ _ _ Hpaths).
      destruct paths as [|lfirst lothers]; [by apply Forall2_nil_inv_l in Hrel|].
      rewrite (run_bind_Some _ _ _ _ _ Hfind).
      rewrite (run_bind_Some _ _ _ _ _ (readObj_Some _ _ _ Ho)).
      rewrite Hpath.
      assert ((if Nat.eqb (length sel) 1
                      && (Nat.eqb (length sel) 1
                          && match sel with
                             | s :: _ => String.eqb (path_normalize (fullPath lca))
                                           (path_normalize s)
                             | [] => false
                             end)
               then Heap.ret lcaNode
               else if Nat.eqb (length sel) 1
                    then match index lfirst (Z.of_nat (length lfirst) - 1) with
                         | Some n => Heap.ret n
                         | None => Heap.stuck
                         end
                    else Heap.ret lcaNode) = Heap.ret lcaNode) as ->.
      { destruct sel as [|s [|s' sel']]; [done| |done].
        cbn [length Nat.eqb andb]. rewrite <- Htpaths in Hlca.
        by rewrite (single_selection_lca t s lca Hlca). }
      unfold mbind at 1, Heap.run_bind at 1. unfold Heap.ret at 1.
      by rewrite (run_bind_Some _ _ _ _ _ Hclone). }
    apply (Hfinish c h' (pruneChildren (deepCloneTree lca) sel) fp').
    + done.
    + done.
    + done.
    + done.
    + intros l Hl. rewrite Hframe.
      * by apply lookup_app_l.
      * rewrite length_app. lia.
      * intros Hc%Hfreshc. lia.
    + intros l Hl. destruct (Hsub l Hl) as [Hc%Hfreshc|Hge]; [done|].
      rewrite length_app in Hge. lia.
Qed.

Lemma heap_tree_at_node (h : list Heap.NodeObj) (n p : string) (ts : list TreeNode)
    (l : Heap.loc) (ls : list Heap.loc) (fps : list (list Heap.loc)) :
  h !! l = Some (Heap.mkObj n p (Some ls)) →
  Heap.all3 (fun t l fp => Heap.tree_at h t l fp) ts ls fps →
  Heap.tree_at h (mkNode n p (Some ts)) l (l :: concat fps).
Proof.
  intros Hl Hall. cbn [Heap.tree_at]. eexists. split_and!; [done..|]. by exists ls, fps.
Qed.

(** [root/{x/{p, q}, y}] in five objects, with [x] selected: the pruned
    tree is built in three new objects. *)
Lemma buildPrunedTree_leaves_input_unmodified_witness :
  let h := [Heap.mkObj "p" "/root/x/p" (Some []); Heap.mkObj "q" "/root/x/q" (Some []);
            Heap.mkObj "x" "/root/x" (Some [0; 1]); Heap.mkObj "y" "/root/y" (Some []);
            Heap.mkObj "root" "/root" (Some [2; 3])] in
  let x := mkNode "x" "/root/x"
             (Some [mkNode "p" "/root/x/p" (Some []); mkNode "q" "/root/x/q" (Some [])]) in
  let t := mkNode "root" "/root" (Some [x; mkNode "y" "/root/y" (Some [])]) in
  (Heap.tree_at h t 4 [4; 2; 0; 1; 3] ∧ tree_size t ≤ 5)
  ∧ ∃ out h',
      Heap.buildPrunedTree (pathLib := Posix.pathModule "/") 5 4 ["/root/x"] h
      = Some (out, h')
      ∧ (∀ l, l < length h → h' !! l = h !! l)
      ∧ Heap.renderTree 5 h' 4 "" true = Some (render t).
Proof.
  intros h x t.
  assert (Heap.tree_at h t 4 [4; 2; 0; 1; 3]) as Hat.
  { apply (heap_tree_at_node h _ _ _ 4 [2; 3] [[2; 0; 1]; [3]]); [done|].
    split; [|split; [|done]].
    - apply (heap_tree_at_node h _ _ _ 2 [0; 1] [[0]; [1]]); [done|].
      split; [|split; [|done]]; by apply (heap_tree_at_node h _ _ [] _ [] []).
    - by apply (heap_tree_at_node h _ _ [] _ [] []). }
  assert (tree_size t ≤ 5) as Hfuel by (cbn; lia).
  split; [done|].
  destruct (buildPrunedTree_leaves_input_unmodified (pathLib := Posix.pathModule "/")
              h 4 t [4; 2; 0; 1; 3] ["/root/x"] 5 Hat Hfuel)
    as (out & h' & pruned & fp' & Hrun & _ & _ & _ & Hframe & _ & _ & _ & Hrender).
  by exists out, h'.
Defined.

(** * Further properties *)

(** ** More on the pruner *)

Section PrunerAlgebra.
Context {pathLib : PathModule}.
Implicit Types (t root node : TreeNode) (sel : list string).

Lemma isRelevant_pruneChildren t sel :
  isRelevant (pruneChildren t sel) sel = isRelevant t sel.
Proof. unfold isRelevant. by rewrite pruneChildren_fullPath. Qed.

Lemma keptChildren_app (l1 l2 : list TreeNode) sel :
  keptChildren (l1 ++ l2) sel = keptChildren l1 sel ++ keptChildren l2 sel.
Proof. unfold keptChildren. by rewrite List.filter_app, map_app. Qed.

Lemma hasIrrelevant_app (l1 l2 : list TreeNode) sel :
  hasIrrelevant (l1 ++ l2) sel = hasIrrelevant l1 sel || hasIrrelevant l2 sel.
Proof. unfold hasIrrelevant. apply existsb_app. Qed.

Lemma hasIrrelevant_keptChildren (siblings : list TreeNode) sel :
  hasIrrelevant (keptChildren siblings sel) sel = false.
Proof.
  induction siblings as [|c cs IH]; [done|].
  rewrite keptChildren_cons. destruct (isRelevant c sel) eqn:Hrel; [|done].
  rewrite hasIrrelevant_cons, isRelevant_pruneChildren, Hrel. done.
Qed.

Lemma keptChildren_all_relevant (siblings : list TreeNode) sel :
  hasIrrelevant siblings sel = false →
  keptChildren siblings sel = map (fun c => pruneChildren c sel) siblings.
Proof.
  induction siblings as [|c cs IH]; [done|].
  rewrite hasIrrelevant_cons, keptChildren_cons.
  intros [Hc Hcs]%orb_false_elim. apply negb_false_iff in Hc. rewrite Hc.
  cbn [map]. by rewrite IH.
Qed.

Lemma keptChildren_idemp (siblings : list TreeNode) sel :
  Forall (fun c => pruneChildren (pruneChildren c sel) sel = pruneChildren c sel) siblings →
  keptChildren (keptChildren siblings sel) sel = keptChildren siblings sel.
Proof.
  induction 1 as [|c cs Hc _ IH]; [done|].
  rewrite keptChildren_cons. destruct (isRelevant c sel) eqn:Hrel; [|done].
  by rewrite keptChildren_cons, isRelevant_pruneChildren, Hrel, Hc, IH.
Qed.

(** The children of a pruned node, for a node with children. *)
Lemma pruned_children_nonempty (c : TreeNode) (cs : list TreeNode) sel :
  keptChildren (c :: cs) sel
  ++ (if hasIrrelevant (c :: cs) sel then [placeholder] else []) ≠ [].
Proof.
  destruct (hasIrrelevant (c :: cs) sel) eqn:Hirr.
  - by destruct (keptChildren (c :: cs) sel).
  - by rewrite keptChildren_all_relevant.
Qed.
End PrunerAlgebra.

(** X1: pruning is idempotent: a second [pruneChildren] with the same
    selection changes nothing. The placeholders of the first pass are
    either kept or dropped and pushed again, at the same place. *)
Theorem pruneChildren_idempotent {pathLib : PathModule} (t : TreeNode) (sel : list string) :
  pruneChildren (pruneChildren t sel) sel = pruneChildren t sel.
Proof.
  induction t as [n p|n p cs IH] using TreeNode_rose_ind; [done|].
  destruct cs as [|c cs]; [done|].
  rewrite pruneChildren_children by done.
  rewrite pruneChildren_children by apply pruned_children_nonempty.
  do 2 f_equal.
  rewrite keptChildren_app, hasIrrelevant_app, hasIrrelevant_keptChildren, keptChildren_idemp
    by done.
  cbn [orb]. rewrite <- app_assoc. f_equal.
  destruct (hasIrrelevant (c :: cs) sel); [|done].
  unfold keptChildren, hasIrrelevant. cbn [List.filter existsb map].
  by destruct (isRelevant placeholder sel).
Qed.

Lemma sum_list_tree_size_elem (ts : list TreeNode) t :
  t ∈ ts → tree_size t ≤ sum_list (map tree_size ts).
Proof.
  induction 1 as [t ts|t t' ts _ IH]; cbn [map sum_list_with id]; [cbn; lia|].
  change (tree_size t ≤ tree_size t' + sum_list (map tree_size ts)). lia.
Qed.

Section PrunerSize.
Context {pathLib : PathModule}.
Implicit Types (t root node : TreeNode) (sel : list string).

Lemma pruned_children_size (siblings : list TreeNode) sel :
  Forall (fun c => tree_size (pruneChildren c sel) ≤ tree_size c) siblings →
  sum_list (map tree_size
              (keptChildren siblings sel
               ++ if hasIrrelevant siblings sel then [placeholder] else []))
  ≤ sum_list (map tree_size siblings).
Proof.
  induction 1 as [|c cs Hc _ IH]; [done|].
  rewrite keptChildren_cons, hasIrrelevant_cons.
  pose proof (tree_size_pos c) as Hpos.
  rewrite map_app, sum_list_with_app in IH |- *.
  destruct (isRelevant c sel); cbn [negb orb map sum_list_with id]; [lia|].
  destruct (hasIrrelevant cs sel); cbn in IH |- *; lia.
Qed.

Lemma pruneChildren_size t sel : tree_size (pruneChildren t sel) ≤ tree_size t.
Proof.
  induction t as [n p|n p cs IH] using TreeNode_rose_ind; [done|].
  destruct cs as [|c cs]; [done|].
  rewrite pruneChildren_children by done. cbn [tree_size].
  apply le_n_S. by apply pruned_children_size.
Qed.

Lemma pruneTreeForSelection_pruneChildren root sel :
  pruneTreeForSelection root sel = pruneChildren (deepCloneTree root) sel.
Proof.
  rewrite pruneTreeForSelection_keeps_root.
  destruct root as [n p [[|c cs]|]]; [done| |done].
  cbn [deepCloneTree default children name fullPath].
  by rewrite pruneChildren_children, pruneChildrenOf_spec.
Qed.
End PrunerSize.

(** X2: pruning never adds nodes: the pruned tree, of either variant, has at
    most as many nodes as the full tree, so its rendering has at most as
    many lines. (A placeholder takes the place of at least one dropped
    sibling.) *)
Theorem pruned_tree_no_larger {pathLib : PathModule} (t : TreeNode) (sel : list string) :
  tree_size (pruneChildren t sel) ≤ tree_size t
  ∧ tree_size (pruneTreeForSelection t sel) ≤ tree_size t
  ∧ (∃ out, buildPrunedTree t sel = Returns out ∧ tree_size out ≤ tree_size t
            ∧ length (treeLines out "" true) ≤ length (treeLines t "" true)).
Proof.
  split_and!.
  - apply pruneChildren_size.
  - rewrite pruneTreeForSelection_pruneChildren, <- (tree_size_deepCloneTree t).
    apply pruneChildren_size.
  - assert (∃ out, buildPrunedTree t sel = Returns out ∧ tree_size out ≤ tree_size t)
      as (out & Hout & Hle).
    { destruct (selectionPaths t sel) as [|first others] eqn:Hpaths.
      - exists emptyNode. unfold buildPrunedTree. rewrite Hpaths.
        split; [done|]. apply (tree_size_pos t).
      - destruct (selectionPaths_lca t sel) as [lca Hlca]; [by rewrite Hpaths|].
        eexists. split; [by apply buildPrunedTree_from_lca|].
        apply selectionPaths_lca_in_tree, tree_size_nodes in Hlca.
        pose proof (pruneChildren_size (deepCloneTree lca) sel) as Hle.
        rewrite tree_size_deepCloneTree in Hle. lia. }
    exists out. by rewrite !treeLines_length.
Qed.

(** X3: the newer pruner is the older one, applied at the common ancestor:
    [pruneTreeForSelection] is [pruneChildren] of the clone, and what
    [buildPrunedTree] returns is the node [(empty)] or
    [pruneTreeForSelection] of a node of the tree. *)
Theorem buildPrunedTree_pruneTreeForSelection {pathLib : PathModule}
    (root : TreeNode) (sel : list string) :
  pruneTreeForSelection root sel = pruneChildren (deepCloneTree root) sel
  ∧ (buildPrunedTree root sel = Returns emptyNode
     ∨ ∃ lca, lca ∈ tree_nodes root
              ∧ buildPrunedTree root sel = Returns (pruneTreeForSelection lca sel)).
Proof.
  split; [apply pruneTreeForSelection_pruneChildren|].
  destruct (selectionPaths root sel) as [|first others] eqn:Hpaths.
  - left. unfold buildPrunedTree. by rewrite Hpaths.
  - right. destruct (selectionPaths_lca root sel) as [lca Hlca]; [by rewrite Hpaths|].
    exists lca. split; [by eapply selectionPaths_lca_in_tree|].
    rewrite pruneTreeForSelection_pruneChildren. by apply buildPrunedTree_from_lca.
Qed.

Section PrunerSelection.
Context {pathLib : PathModule}.
Implicit Types (t root node : TreeNode) (sel : list string).

Lemma isRelevant_nil t : isRelevant t [] = false.
Proof. done. Qed.

Lemma keptChildren_nil (siblings : list TreeNode) : keptChildren siblings [] = [].
Proof. by induction siblings. Qed.

Lemma hasIrrelevant_nil (siblings : list TreeNode) :
  hasIrrelevant siblings [] = match siblings with [] => false | _ => true end.
Proof. by destruct siblings. Qed.

Lemma isRelevant_elements t sel sel' :
  (∀ s, s ∈ sel ↔ s ∈ sel') → isRelevant t sel = isRelevant t sel'.
Proof.
  intros Hsame. unfold isRelevant. apply eq_true_iff_eq.
  rewrite !existsb_exists. split; intros (s & Hs & Hrel); exists s;
    (split; [|done]); apply list_elem_of_In, Hsame, list_elem_of_In, Hs.
Qed.
End PrunerSelection.

(** X4: with an empty selection nothing is relevant: [buildPrunedTree]
    returns the node [(empty)], while [pruneChildren] and the older
    [pruneTreeForSelection] collapse all the children of the root into one
    placeholder. *)
Theorem prune_empty_selection {pathLib : PathModule} (t : TreeNode) :
  buildPrunedTree t [] = Returns emptyNode
  ∧ pruneChildren t []
    = match children t with
      | Some (_ :: _) => mkNode (name t) (fullPath t) (Some [placeholder])
      | _ => t
      end
  ∧ pruneTreeForSelection t []
    = mkNode (name t) (fullPath t)
        (Some (match children t with Some (_ :: _) => [placeholder] | _ => [] end)).
Proof.
  split_and!; [done| |].
  - destruct t as [n p [[|c cs]|]]; [done| |done].
    by rewrite pruneChildren_children, keptChildren_nil, hasIrrelevant_nil.
  - rewrite pruneTreeForSelection_keeps_root, pruneChildrenOf_spec, keptChildren_nil,
      hasIrrelevant_nil.
    by destruct t as [n p [[|c cs]|]].
Qed.

(** X5: below the root, only the set of selected paths matters: two
    selections with the same elements (in any order, with any repetition)
    prune a tree to the same result. *)
Theorem pruneChildren_selection_set {pathLib : PathModule}
    (t : TreeNode) (sel sel' : list string) :
  (∀ s, s ∈ sel ↔ s ∈ sel') →
  pruneChildren t sel = pruneChildren t sel'
  ∧ pruneTreeForSelection t sel = pruneTreeForSelection t sel'.
Proof.
  intros Hsame.
  assert (∀ t, pruneChildren t sel = pruneChildren t sel') as Hprune.
  { clear t. intros t. induction t as [n p|n p cs IH] using TreeNode_rose_ind; [done|].
    destruct cs as [|c cs]; [done|].
    rewrite !pruneChildren_children by done. do 2 f_equal.
    generalize (c :: cs) IH. clear c cs IH. intros siblings IH. f_equal.
    - induction IH as [|c cs Hc _ IHcs]; [done|].
      rewrite !keptChildren_cons, (isRelevant_elements c sel sel' Hsame), Hc, IHcs. done.
    - assert (hasIrrelevant siblings sel = hasIrrelevant siblings sel') as ->; [|done].
      clear IH. induction siblings as [|c cs IHcs]; [done|].
      by rewrite !hasIrrelevant_cons, (isRelevant_elements c sel sel' Hsame), IHcs. }
  split; [apply Hprune|].
  by rewrite !pruneTreeForSelection_pruneChildren.
Qed.

Lemma pruneChildren_selection_set_witness :
  let x := mkNode "x" "/root/x" (Some []) in
  let y := mkNode "y" "/root/y" (Some []) in
  let z := mkNode "z" "/root/z" (Some []) in
  let root := mkNode "root" "/root" (Some [x; y; z]) in
  (∀ s, s ∈ ["/root/y"; "/root/x"; "/root/y"] ↔ s ∈ ["/root/x"; "/root/y"])
  ∧ pruneChildren (pathLib := Posix.pathModule "/") root ["/root/y"; "/root/x"; "/root/y"]
    = mkNode "root" "/root" (Some [x; y; placeholder]).
Proof.
  intros x y z root.
  assert (∀ s, s ∈ ["/root/y"; "/root/x"; "/root/y"] ↔ s ∈ ["/root/x"; "/root/y"]) as Hsame.
  { intros s. rewrite !elem_of_cons, !elem_of_nil. tauto. }
  split; [done|].
  destruct (pruneChildren_selection_set (pathLib := Posix.pathModule "/") root _ _ Hsame)
    as [-> _].
  reflexivity.
Defined.

Lemma Forall_concat_map {A B : Type} (P : B → Prop) (f : A → list B) (l : list A) :
  Forall P (concat (map f l)) ↔ Forall (fun x => Forall P (f x)) l.
Proof.
  induction l as [|x l IH]; cbn [map concat].
  - split; constructor.
  - by rewrite Forall_app, Forall_cons, IH.
Qed.

Section FindPathComplete.
Context {pathLib : PathModule}.

(** [findPath] misses exactly the targets that no node of the tree has. *)
Lemma findPath_None (t : TreeNode) (target : string) :
  findPath t target = None
  ↔ Forall (fun m => path_normalize (fullPath m) ≠ path_normalize target) (tree_nodes t).
Proof.
  induction t as [n p|n p cs IH] using TreeNode_rose_ind; cbn [findPath tree_nodes fullPath].
  - rewrite Forall_singleton. cbn [fullPath].
    destruct (String.eqb_spec (path_normalize p) (path_normalize target)); by split.
  - rewrite Forall_cons, Forall_concat_map. cbn [fullPath].
    destruct (String.eqb_spec (path_normalize p) (path_normalize target)) as [Heq|Hne].
    + split; [done|]. by intros [? _].
    + rewrite firstChildPath_None. rewrite Forall_forall in IH.
      split.
      * intros Hall. split; [done|]. rewrite Forall_forall in Hall.
        apply Forall_forall. intros c Hc. apply (IH c Hc). exact (Hall c Hc).
      * intros [_ Hall]. rewrite Forall_forall in Hall.
        apply Forall_forall. intros c Hc. apply (IH c Hc). exact (Hall c Hc).
Qed.
End FindPathComplete.

(** X6: [findPath] returns [null] exactly when no node of the tree has the
    target's normalized path; otherwise it returns a path from the root,
    through children, to a node with that normalized path. *)
Theorem findPath_found_iff_present {pathLib : PathModule} (t : TreeNode) (target : string) :
  (findPath t target = None
   ↔ ∀ m, m ∈ tree_nodes t → path_normalize (fullPath m) ≠ path_normalize target)
  ∧ (is_Some (findPath t target)
     ↔ ∃ m, m ∈ tree_nodes t ∧ path_normalize (fullPath m) = path_normalize target)
  ∧ ∀ path, findPath t target = Some path →
      head path = Some t ∧ descends path
      ∧ ∃ m, last path = Some m ∧ m ∈ tree_nodes t
             ∧ path_normalize (fullPath m) = path_normalize target.
Proof.
  assert (∀ path, findPath t target = Some path →
      head path = Some t ∧ descends path
      ∧ ∃ m, last path = Some m ∧ m ∈ tree_nodes t
             ∧ path_normalize (fullPath m) = path_normalize target) as Hsome.
  { intros path ((rest & ->) & Hdesc & (m & Hlast & Hm) & Hall)%findPath_Some.
    split_and!; [done..|]. exists m. split_and!; [done| |done].
    rewrite Forall_forall in Hall. apply Hall. rewrite last_lookup in Hlast.
    by eapply list_elem_of_lookup_2. }
  split_and!; [| |done].
  - by rewrite findPath_None, Forall_forall.
  - split.
    + intros [path Hpath]. destruct (Hsome path Hpath) as (_ & _ & m & _ & ? & ?).
      by exists m.
    + intros (m & Hm & Heq). destruct (findPath t target) eqn:Hfind; [done|].
      apply findPath_None in Hfind. rewrite Forall_forall in Hfind.
      by destruct (Hfind m Hm).
Qed.

(** ** What pruning keeps *)

Section PrunerKeeps.
Context {pathLib : PathModule}.
Implicit Types (t root node : TreeNode) (sel : list string).

Lemma pruneChildren_identity t sel :
  Forall (fun c => Forall (fun m => isRelevant m sel = true) (tree_nodes c))
    (default [] (children t)) →
  pruneChildren t sel = t.
Proof.
  induction t as [n p|n p cs IH] using TreeNode_rose_ind; [done|].
  cbn [children default]. intros Hall.
  destruct cs as [|c cs]; [done|].
  rewrite pruneChildren_children by done.
  assert (hasIrrelevant (c :: cs) sel = false) as Hirr.
  { unfold hasIrrelevant. apply not_true_is_false. rewrite existsb_exists.
    intros (x & Hx%list_elem_of_In & Hrel). rewrite Forall_forall in Hall.
    specialize (Hall x Hx). rewrite Forall_forall in Hall.
    rewrite (Hall x (tree_nodes_self x)) in Hrel. done. }
  rewrite Hirr, app_nil_r, keptChildren_all_relevant by done.
  do 2 f_equal. rewrite <- (map_id (c :: cs)) at 2. apply map_ext_Forall.
  rewrite Forall_forall in IH. rewrite Forall_forall in Hall.
  apply Forall_forall. intros x Hx. cbn beta. unfold id.
  apply (IH x Hx). specialize (Hall x Hx). rewrite Forall_forall in Hall.
  apply Forall_forall. intros k Hk. apply Forall_forall. intros m Hm.
  apply Hall. destruct x as [xn xp [xcs|]]; [|by apply elem_of_nil in Hk].
  by eapply (tree_nodes_child (mkNode xn xp (Some xcs))).
Qed.

Lemma pruneChildren_child_kept (n p : string) (cs : list TreeNode) (c : TreeNode) sel :
  c ∈ cs → isRelevant c sel = true →
  pruneChildren c sel ∈ default [] (children (pruneChildren (mkNode n p (Some cs)) sel)).
Proof.
  intros Hc Hrel. destruct cs as [|c0 cs0]; [by apply elem_of_nil in Hc|].
  rewrite pruneChildren_children by done. cbn [children default].
  apply elem_of_app. left. unfold keptChildren. apply list_elem_of_fmap. exists c.
  split; [done|]. apply list_elem_of_In, filter_In. by rewrite <- list_elem_of_In.
Qed.

(** A node reached from the root through relevant nodes is kept. *)
Lemma pruneChildren_keeps_path (path : list TreeNode) t sel :
  head path = Some t → descends path →
  Forall (fun m => isRelevant m sel = true) (tail path) →
  ∀ m, last path = Some m →
    ∃ m', m' ∈ tree_nodes (pruneChildren t sel)
          ∧ name m' = name m ∧ fullPath m' = fullPath m.
Proof.
  revert t. induction path as [|a rest IH]; intros t Hhead Hdesc Hrel m Hlast; [done|].
  injection Hhead as ->. cbn [tail] in Hrel.
  destruct rest as [|b rest'].
  - injection Hlast as <-. exists (pruneChildren t sel).
    split_and!; [apply tree_nodes_self|apply pruneChildren_name|apply pruneChildren_fullPath].
  - destruct Hdesc as [Hb Hdesc]. apply Forall_cons in Hrel as Hrel'. destruct Hrel' as [Hrelb _].
    destruct (IH b eq_refl Hdesc) with (m := m) as (m' & Hm' & Hsame).
    { destruct rest'; [constructor|]. by apply Forall_cons in Hrel as [_ ?]. }
    { exact Hlast. }
    exists m'. split; [|done].
    destruct t as [n p [cs|]]; [|by apply elem_of_nil in Hb]. cbn [children default] in Hb.
    pose proof (pruneChildren_child_kept n p cs b sel Hb Hrelb) as Hkept.
    destruct (pruneChildren (mkNode n p (Some cs)) sel) as [n' p' [cs'|]] eqn:Hpruned;
      [|by apply elem_of_nil in Hkept].
    by eapply (tree_nodes_child (mkNode n' p' (Some cs'))).
Qed.

Lemma isRelevant_more t sel sel' :
  (∀ s, s ∈ sel → s ∈ sel') → isRelevant t sel = true → isRelevant t sel' = true.
Proof.
  intros Hsub. unfold isRelevant. rewrite !existsb_exists.
  intros (s & Hs & Hrel). exists s. split; [|done].
  apply list_elem_of_In, Hsub, list_elem_of_In, Hs.
Qed.

Lemma pruneChildren_more t sel sel' :
  (∀ s, s ∈ sel → s ∈ sel') →
  ∀ m, m ∈ tree_nodes (pruneChildren t sel) →
    m = placeholder
    ∨ ∃ m', m' ∈ tree_nodes (pruneChildren t sel')
            ∧ name m = name m' ∧ fullPath m = fullPath m'.
Proof.
  intros Hsub. induction t as [n p|n p cs IH] using TreeNode_rose_ind; intros m Hm.
  - right. by exists m.
  - destruct cs as [|c0 cs0]; [right; by exists m|].
    rewrite pruneChildren_children in Hm by done.
    apply tree_nodes_inv in Hm as [->|(cs' & c' & [= <-] & Hc & Hm)].
    + right. exists (pruneChildren (mkNode n p (Some (c0 :: cs0))) sel').
      split_and!; [apply tree_nodes_self|..].
      * by rewrite pruneChildren_name.
      * by rewrite pruneChildren_fullPath.
    + apply elem_of_app in Hc as [Hc|Hc].
      * apply keptChildren_elem in Hc as (c & Hc & Hrel & ->).
        rewrite Forall_forall in IH.
        destruct (IH c Hc m Hm) as [->|(m' & Hm' & Hsame)]; [by left|right].
        exists m'. split; [|done].
        pose proof (pruneChildren_child_kept n p (c0 :: cs0) c sel' Hc
                      (isRelevant_more c sel sel' Hsub Hrel)) as Hkept.
        destruct (pruneChildren (mkNode n p (Some (c0 :: cs0))) sel') as [n' p' [cs'|]];
          [|by apply elem_of_nil in Hkept].
        by eapply (tree_nodes_child (mkNode n' p' (Some cs'))).
      * left. assert (c' = placeholder) as ->.
        { destruct (_ : bool); [|by apply elem_of_nil in Hc].
          by apply list_elem_of_singleton in Hc. }
        apply tree_nodes_inv in Hm as [->|(? & ? & [= <-] & Hnil & _)]; [done|].
        by apply elem_of_nil in Hnil.
Qed.
End PrunerKeeps.

(** X7: pruning changes nothing when all is relevant: a tree whose nodes
    below the root are all relevant to the selection is returned as it is,
    with no placeholder added. *)
Theorem pruneChildren_all_relevant {pathLib : PathModule} (t : TreeNode) (sel : list string) :
  (∀ m, m ∈ tree_nodes t → m = t ∨ isRelevant m sel = true) →
  pruneChildren t sel = t.
Proof.
  intros Hall. apply pruneChildren_identity. apply Forall_forall. intros c Hc.
  apply Forall_forall. intros m Hm.
  destruct t as [n p [cs|]]; [|by apply elem_of_nil in Hc]. cbn [children default] in Hc.
  assert (m ∈ tree_nodes (mkNode n p (Some cs))) as Hin
    by (by eapply (tree_nodes_child (mkNode n p (Some cs)))).
  destruct (Hall m Hin) as [->|?]; [|done].
  apply tree_size_nodes in Hm.
  pose proof (sum_list_tree_size_elem cs c Hc) as Hle. cbn [tree_size] in Hm. lia.
Qed.

(** The selected folder [x] of the specification's example, pruned for its
    own selection: both children are relevant. *)
Lemma pruneChildren_all_relevant_witness :
  let x := mkNode "x" "/root/x"
             (Some [mkNode "p" "/root/x/p" (Some []); mkNode "q" "/root/x/q" (Some [])]) in
  (∀ m, m ∈ tree_nodes x →
        m = x ∨ isRelevant (pathLib := Posix.pathModule "/") m ["/root/x"] = true)
  ∧ pruneChildren (pathLib := Posix.pathModule "/") x ["/root/x"] = x.
Proof.
  intros x.
  assert (∀ m, m ∈ tree_nodes x →
               m = x ∨ isRelevant (pathLib := Posix.pathModule "/") m ["/root/x"] = true)
    as Hall.
  { intros m Hm. cbn in Hm. rewrite !elem_of_cons, elem_of_nil in Hm.
    destruct Hm as [->|[->|[->|[]]]]; [by left|by right..]. }
  split; [done|].
  exact (pruneChildren_all_relevant (pathLib := Posix.pathModule "/") x ["/root/x"] Hall).
Defined.

(** X8: pruning keeps what is relevant, however deep: a node that is
    reached from the root through relevant nodes only (its ancestors below
    the root, and itself) is in the pruned tree, with its name and path. *)
Theorem pruneChildren_keeps_relevant {pathLib : PathModule}
    (t : TreeNode) (sel : list string) (path : list TreeNode) (m : TreeNode) :
  head path = Some t → descends path → last path = Some m →
  Forall (fun a => isRelevant a sel = true) (tail path) →
  ∃ m', m' ∈ tree_nodes (pruneChildren t sel)
        ∧ name m' = name m ∧ fullPath m' = fullPath m.
Proof.
  intros Hhead Hdesc Hlast Hrel. by eapply pruneChildren_keeps_path.
Qed.

Lemma pruneChildren_keeps_relevant_witness :
  let p := mkNode "p" "/root/x/p" (Some []) in
  let x := mkNode "x" "/root/x" (Some [p; mkNode "q" "/root/x/q" (Some [])]) in
  let root := mkNode "root" "/root" (Some [x; mkNode "y" "/root/y" (Some [])]) in
  (head [root; x; p] = Some root ∧ descends [root; x; p] ∧ last [root; x; p] = Some p
   ∧ Forall (fun a => isRelevant (pathLib := Posix.pathModule "/") a ["/root/x/p"] = true)
       (tail [root; x; p]))
  ∧ ∃ m', m' ∈ tree_nodes (pruneChildren (pathLib := Posix.pathModule "/") root ["/root/x/p"])
          ∧ name m' = "p" ∧ fullPath m' = "/root/x/p".
Proof.
  intros p x root.
  assert (descends [root; x; p]) as Hdesc.
  { cbn. split_and!; try done; [left|left]. }
  assert (Forall (fun a => isRelevant (pathLib := Posix.pathModule "/") a ["/root/x/p"] = true)
            (tail [root; x; p])) as Hrel by (by repeat constructor).
  split; [by split_and!|].
  exact (pruneChildren_keeps_relevant (pathLib := Posix.pathModule "/")
           root ["/root/x/p"] [root; x; p] p eq_refl Hdesc eq_refl Hrel).
Defined.

(** X9: selecting more never hides an entry: when every path of one
    selection is in another, each node of the tree pruned for the first,
    unless it is a placeholder, is in the tree pruned for the second, with
    its name and path. *)
Theorem pruneChildren_more_selected {pathLib : PathModule}
    (t : TreeNode) (sel sel' : list string) :
  (∀ s, s ∈ sel → s ∈ sel') →
  ∀ m, m ∈ tree_nodes (pruneChildren t sel) →
    m = placeholder
    ∨ ∃ m', m' ∈ tree_nodes (pruneChildren t sel')
            ∧ name m = name m' ∧ fullPath m = fullPath m'.
Proof. apply pruneChildren_more. Qed.

Lemma pruneChildren_more_selected_witness :
  let x := mkNode "x" "/root/x" (Some []) in
  let root := mkNode "root" "/root"
                (Some [x; mkNode "y" "/root/y" (Some []); mkNode "z" "/root/z" (Some [])]) in
  ((∀ s, s ∈ ["/root/x"] → s ∈ ["/root/y"; "/root/x"])
   ∧ x ∈ tree_nodes (pruneChildren (pathLib := Posix.pathModule "/") root ["/root/x"]))
  ∧ (x = placeholder
     ∨ ∃ m', m' ∈ tree_nodes (pruneChildren (pathLib := Posix.pathModule "/") root
                                ["/root/y"; "/root/x"])
             ∧ name x = name m' ∧ fullPath x = fullPath m').
Proof.
  intros x root.
  assert (∀ s, s ∈ ["/root/x"] → s ∈ ["/root/y"; "/root/x"]) as Hsub.
  { intros s ->%list_elem_of_singleton. right. left. }
  assert (x ∈ tree_nodes (pruneChildren (pathLib := Posix.pathModule "/") root ["/root/x"]))
    as Hx by (right; left).
  split; [done|].
  exact (pruneChildren_more_selected (pathLib := Posix.pathModule "/")
           root ["/root/x"] ["/root/y"; "/root/x"] Hsub x Hx).
Defined.

(** X10: the edge cases of [findLowestCommonAncestor]: [null] for no path;
    for one path its last node ([undefined] when the path is empty); for
    two or more paths [null] exactly when the paths do not all have a first
    node with one normalized full path. *)
Theorem findLowestCommonAncestor_null {pathLib : PathModule} :
  findLowestCommonAncestor [] = None
  ∧ (∀ only, findLowestCommonAncestor [only] = last only)
  ∧ (∀ first second rest,
       findLowestCommonAncestor (first :: second :: rest) = None
       ↔ ¬ commonAt (first :: second :: rest) 0).
Proof.
  split_and!; [done|intros only; apply index_last|].
  intros first second rest.
  assert (first ∈ first :: second :: rest) as Hfirst by left.
  pose proof (minLength_le first first (second :: rest) Hfirst) as Hmin.
  destruct (minLength_attained first (second :: rest)) as (short & Hshort & Hlen).
  cbn [findLowestCommonAncestor].
  destruct (lcaLoop_spec (first :: second :: rest) first
              (minLength first (second :: rest)) 0 (-1) Hfirst)
    as [[-> Hstop]|(d & -> & _ & Hd & Hall & _)]; [lia| |].
  - split; [intros _|done]. destruct Hstop as [Hzero|?]; [|done].
    intros (c & Hc). destruct (Hc short Hshort) as (n & Hn%lookup_lt_Some & _). lia.
  - destruct (Z.ltb_spec (Z.of_nat d) 0) as [?|_]; [lia|]. rewrite index_of_nat.
    destruct (lookup_lt_is_Some_2 first d) as [lca ->]; [lia|].
    split; [done|]. intros []. apply Hall; lia.
Qed.

(** ** More on the renderer *)

Lemma siblingLines_map {T : Type} (lines lines' : T → bool → list string)
    (f : string → string) (l : list T) :
  Forall (fun c => ∀ b, lines' c b = map f (lines c b)) l →
  siblingLines lines' l = map f (siblingLines lines l).
Proof.
  induction 1 as [|c l Hc _ IH]; [done|].
  cbn [siblingLines]. fold (siblingLines lines l). fold (siblingLines lines' l).
  by rewrite map_app, Hc, IH.
Qed.

Lemma treeLines_prefix (t : TreeNode) (pre prefix : string) (isLast : bool) :
  treeLines t (pre +:+ prefix) isLast = map (String.append pre) (treeLines t prefix isLast).
Proof.
  revert prefix isLast.
  induction t as [n p|n p cs IH] using TreeNode_rose_ind; intros prefix isLast.
  - cbn [treeLines map name]. by rewrite !append_assoc.
  - cbn [treeLines map name]. rewrite !append_assoc. f_equal.
    apply siblingLines_map.
    eapply Forall_impl; [exact IH|]. intros c Hc b. cbn beta.
    apply Hc.
Qed.

(** X11: the prefix only indents: rendering a tree under the prefix
    [pre ++ prefix] gives the lines of its rendering under [prefix], each
    with [pre] in front. So the lines of a subtree, wherever it hangs, are
    the lines of the subtree rendered on its own, behind the prefix of its
    place. *)
Theorem renderTree_prefix (t : TreeNode) (pre prefix : string) (isLast : bool) :
  renderTree t (pre +:+ prefix) isLast
  = join_empty (map (String.append pre) (treeLines t prefix isLast))
  ∧ renderTree t pre isLast
    = join_empty (map (String.append pre) (treeLines t "" isLast)).
Proof.
  split.
  - by rewrite renderTree_treeLines, treeLines_prefix.
  - by rewrite renderTree_treeLines, <- treeLines_prefix, append_nil_r.
Qed.

Lemma renderTree_map_treeLines (t : TreeNode) (prefix : string) (isLast : bool) :
  renderTree_map t prefix isLast = join_empty (treeLines t prefix isLast).
Proof.
  revert prefix isLast.
  induction t as [n p|n p cs IH] using TreeNode_rose_ind; intros prefix isLast.
  - cbn. by rewrite !append_assoc, append_nil_r.
  - destruct cs as [|c cs].
    + cbn. by rewrite !append_assoc, append_nil_r.
    + cbn [renderTree_map treeLines name join_empty foldr].
      fold (join_empty (siblingLines
                          (fun c last => treeLines c (prefix +:+ indent isLast) last)
                          (c :: cs))).
      rewrite <- (mapChild_lines id
                   (fun c last => renderTree_map c (prefix +:+ indent isLast) last)
                   (fun c last => renderTree_map c (prefix +:+ indent isLast) last)
                   (fun c last => treeLines c (prefix +:+ indent isLast) last)
                   (c :: cs) []).
      * cbn [app]. rewrite !map_id. by rewrite !append_assoc.
      * eapply Forall_impl; [exact IH|]. intros x Hx b. apply Hx.
Qed.

(** X12: the renderer of the older extension.ts, which maps over the
    children and joins the results, prints what the current one prints
    with its [forEach]. *)
Theorem renderTree_map_renderTree (t : TreeNode) (prefix : string) (isLast : bool) :
  renderTree_map t prefix isLast = renderTree t prefix isLast.
Proof. by rewrite renderTree_map_treeLines, renderTree_treeLines. Qed.

(** ** More on [deepCloneTree] *)

Lemma deepCloneTree_fixed (t : TreeNode) : childrenPresent t → deepCloneTree t = t.
Proof.
  induction t as [n p|n p cs IH] using TreeNode_rose_ind.
  - intros [[cs Hcs] _]%Forall_cons. done.
  - intros Hcs%childrenPresent_node. cbn [deepCloneTree]. do 2 f_equal.
    rewrite <- (map_id cs) at 2. apply map_ext_Forall.
    rewrite Forall_forall in IH, Hcs. apply Forall_forall. intros c Hc. by apply IH, Hcs.
Qed.

(** X13: [deepCloneTree] copies the tree as it is, except that an absent
    [children] field becomes the empty array: the clone equals the tree
    exactly when every node has the field; cloning twice is cloning once;
    and the clone renders to the same text. *)
Theorem deepCloneTree_copy (t : TreeNode) :
  (deepCloneTree t = t ↔ childrenPresent t)
  ∧ deepCloneTree (deepCloneTree t) = deepCloneTree t
  ∧ tree_size (deepCloneTree t) = tree_size t
  ∧ ∀ prefix isLast, renderTree (deepCloneTree t) prefix isLast = renderTree t prefix isLast.
Proof.
  split_and!.
  - split; [intros <-; apply deepCloneTree_present|apply deepCloneTree_fixed].
  - apply deepCloneTree_fixed, deepCloneTree_present.
  - apply tree_size_deepCloneTree.
  - intros prefix isLast. rewrite !renderTree_treeLines. f_equal. revert prefix isLast.
    induction t as [n p|n p cs IH] using TreeNode_rose_ind; intros prefix isLast; [done|].
    cbn [deepCloneTree treeLines name]. f_equal.
    induction IH as [|c cs' Hc _ IHcs]; [done|].
    cbn [map siblingLines]. rewrite Hc. f_equal; [|exact IHcs].
    by destruct cs'.
Qed.

(** ** Reading a rendering back *)

Lemma append_inj_l (p a b : string) : p +:+ a = p +:+ b → a = b.
Proof.
  induction p as [|c p IH]; [done|].
  change (String c (p +:+ a) = String c (p +:+ b) → a = b). intros [= H]. by apply IH.
Qed.

Lemma append_LF_inj (a b : string) : a +:+ LF = b +:+ LF → a = b.
Proof.
  revert b. induction a as [|c a IH]; intros [|c' b]; [done|..].
  - change (LF = String c' (b +:+ LF) → "" = String c' b). unfold LF.
    intros [= _ H]. by destruct b.
  - change (String c (a +:+ LF) = LF → String c a = ""). unfold LF.
    intros [= _ H]. by destruct a.
  - change (String c (a +:+ LF) = String c' (b +:+ LF) → String c a = String c' b).
    intros [= -> H]. f_equal. by apply IH.
Qed.

Lemma prefix_append (q x : string) : String.prefix q (q +:+ x) = true.
Proof.
  induction q as [|c q IH]; [by destruct x|].
  change (String c q +:+ x) with (String c (q +:+ x)). cbn [String.prefix].
  by destruct (ascii_dec c c).
Qed.

Lemma prefix_append_l (p q line : string) :
  String.prefix (p +:+ q) (p +:+ line) = String.prefix q line.
Proof.
  induction p as [|c p IH]; [done|].
  change (String.prefix (String c (p +:+ q)) (String c (p +:+ line)) = String.prefix q line).
  cbn [String.prefix]. by destruct (ascii_dec c c).
Qed.

Lemma prefix_append_false (q x line : string) :
  String.prefix q line = false → String.prefix (q +:+ x) line = false.
Proof.
  revert line. induction q as [|c q IH]; intros line; [by destruct line|].
  change (String c q +:+ x) with (String c (q +:+ x)).
  destruct line as [|c' line]; [done|]. cbn [String.prefix].
  destruct (ascii_dec c c'); [apply IH|done].
Qed.

Lemma connector_inj (b1 b2 : bool) (n1 n2 : string) :
  connector b1 +:+ n1 = connector b2 +:+ n2 → b1 = b2 ∧ n1 = n2.
Proof.
  destruct b1, b2; intros H.
  - split; [done|]. by eapply append_inj_l.
  - cbv in H. discriminate.
  - cbv in H. discriminate.
  - split; [done|]. by eapply append_inj_l.
Qed.

Lemma indent_not_connector (b b' : bool) (x : string) :
  String.prefix (indent b) (connector b' +:+ x) = false.
Proof. by destruct b, b'. Qed.

Lemma occurs_append (c : ascii) (a b : string) :
  occurs c (a +:+ b) = occurs c a || occurs c b.
Proof.
  induction a as [|c' a IH]; [done|].
  change (String c' a +:+ b) with (String c' (a +:+ b)). cbn [occurs].
  by rewrite IH, orb_assoc.
Qed.

(** A text made of lines, each closed by the only line feed it holds, is
    made of these lines only. *)
Lemma join_empty_lines_inj (l1 l2 : list string) :
  Forall (fun line => ∃ body, line = body +:+ LF ∧ occurs "010" body = false) l1 →
  Forall (fun line => ∃ body, line = body +:+ LF ∧ occurs "010" body = false) l2 →
  join_empty l1 = join_empty l2 → l1 = l2.
Proof.
  assert (∀ body rest, join_empty ((body +:+ LF) :: rest) ≠ "") as Hne.
  { intros body rest. cbn [join_empty foldr]. rewrite append_assoc. by destruct body. }
  assert (∀ b1 b2 r1 r2, occurs "010" b1 = false → occurs "010" b2 = false →
            b1 +:+ LF +:+ r1 = b2 +:+ LF +:+ r2 → b1 = b2 ∧ r1 = r2) as Hsplit.
  { induction b1 as [|c b1 IHb]; intros [|c' b2] r1 r2 Hb1 Hb2.
    - change (String "010" r1 = String "010" r2 → "" = "" ∧ r1 = r2). by intros [= ->].
    - change (String "010" r1 = String c' (b2 +:+ LF +:+ r2) → "" = String c' b2 ∧ r1 = r2).
      intros [= <- _]. done.
    - change (String c (b1 +:+ LF +:+ r1) = String "010" r2 → String c b1 = "" ∧ r1 = r2).
      intros [= -> _]. done.
    - change (String c (b1 +:+ LF +:+ r1) = String c' (b2 +:+ LF +:+ r2)
              → String c b1 = String c' b2 ∧ r1 = r2).
      intros [= -> H]. cbn [occurs] in Hb1, Hb2.
      apply orb_false_elim in Hb1 as [_ Hb1]. apply orb_false_elim in Hb2 as [_ Hb2].
      destruct (IHb b2 r1 r2 Hb1 Hb2 H) as [-> ->]. done. }
  intros H1. revert l2. induction H1 as [|x1 l1 (b1 & -> & Hb1) _ IH]; intros l2 H2 Heq.
  - destruct H2 as [|x2 l2 (b2 & -> & Hb2) _]; [done|].
    symmetry in Heq. by apply Hne in Heq.
  - destruct H2 as [|x2 l2 (b2 & -> & Hb2) H2]; [by apply Hne in Heq|].
    cbn [join_empty foldr] in Heq. rewrite !append_assoc in Heq.
    destruct (Hsplit _ _ _ _ Hb1 Hb2 Heq) as [-> Hrest].
    f_equal. by apply IH.
Qed.

Lemma siblingLines_proper {T : Type} (lines : T → bool → list string) (P : string → Prop)
    (l : list T) :
  Forall (fun c => ∀ b, Forall P (lines c b)) l → Forall P (siblingLines lines l).
Proof.
  induction 1 as [|c l Hc _ IH]; [constructor|].
  cbn [siblingLines]. fold (siblingLines lines l). apply Forall_app. by split.
Qed.

Lemma treeLines_proper (t : TreeNode) (prefix : string) (isLast : bool) :
  Forall (fun m => occurs "010" (name m) = false) (tree_nodes t) →
  occurs "010" prefix = false →
  Forall (fun line => ∃ body, line = body +:+ LF ∧ occurs "010" body = false)
    (treeLines t prefix isLast).
Proof.
  revert prefix isLast.
  assert (∀ b, occurs "010" (connector b) = false) as Hconn by (by intros []).
  assert (∀ b, occurs "010" (indent b) = false) as Hind by (by intros []).
  assert (∀ n prefix isLast, occurs "010" n = false → occurs "010" prefix = false →
            ∃ body, prefix +:+ connector isLast +:+ n +:+ LF = body +:+ LF
                    ∧ occurs "010" body = false) as Hline.
  { intros n prefix isLast Hn Hp. exists (prefix +:+ connector isLast +:+ n).
    split; [by rewrite !append_assoc|]. by rewrite !occurs_append, Hp, Hconn, Hn. }
  induction t as [n p|n p cs IH] using TreeNode_rose_ind; intros prefix isLast;
    cbn [tree_nodes treeLines name].
  - intros [Hn _]%Forall_cons Hp. constructor; [by apply Hline|constructor].
  - intros [Hn Hcs%Forall_concat_map]%Forall_cons Hp. constructor; [by apply Hline|].
    apply siblingLines_proper.
    rewrite Forall_forall in IH, Hcs. apply Forall_forall. intros c Hc b.
    apply (IH c Hc); [by apply Hcs|]. by rewrite occurs_append, Hp, Hind.
Qed.

(** The lines of a tree, followed by lines that are not below it, tell the
    names and the shape of the tree. *)
Lemma treeLines_inj (t1 : TreeNode) :
  ∀ (t2 : TreeNode) (prefix : string) (b1 b2 : bool) (r1 r2 : list string),
    treeLines t1 prefix b1 ++ r1 = treeLines t2 prefix b2 ++ r2 →
    (∀ line, head r1 = Some line → String.prefix (prefix +:+ indent b1) line = false) →
    (∀ line, head r2 = Some line → String.prefix (prefix +:+ indent b2) line = false) →
    b1 = b2
    ∧ forgetPath (deepCloneTree t1) = forgetPath (deepCloneTree t2)
    ∧ r1 = r2.
Proof.
  assert (∀ t, forgetPath (deepCloneTree t)
               = mkItem (name t)
                   (Some (map (fun c => forgetPath (deepCloneTree c))
                            (default [] (children t))))) as Hshape.
  { intros [n p [cs|]]; cbn; [|done]. by rewrite map_map. }
  assert (∀ t prefix b,
            treeLines t prefix b
            = (prefix +:+ connector b +:+ name t +:+ LF)
              :: siblingLines (fun c last => treeLines c (prefix +:+ indent b) last)
                   (default [] (children t))) as Hlines.
  { by intros [n p [cs|]] prefix b. }
  assert (∀ cs1 : list TreeNode,
            Forall (fun t1 => ∀ t2 prefix b1 b2 r1 r2,
                      treeLines t1 prefix b1 ++ r1 = treeLines t2 prefix b2 ++ r2 →
                      (∀ line, head r1 = Some line →
                               String.prefix (prefix +:+ indent b1) line = false) →
                      (∀ line, head r2 = Some line →
                               String.prefix (prefix +:+ indent b2) line = false) →
                      b1 = b2
                      ∧ forgetPath (deepCloneTree t1) = forgetPath (deepCloneTree t2)
                      ∧ r1 = r2) cs1 →
            ∀ (cs2 : list TreeNode) (q : string) (r1 r2 : list string),
              siblingLines (fun c last => treeLines c q last) cs1 ++ r1
              = siblingLines (fun c last => treeLines c q last) cs2 ++ r2 →
              (∀ line, head r1 = Some line → String.prefix q line = false) →
              (∀ line, head r2 = Some line → String.prefix q line = false) →
              map (fun c => forgetPath (deepCloneTree c)) cs1
              = map (fun c => forgetPath (deepCloneTree c)) cs2
              ∧ r1 = r2) as Hsiblings.
  { assert (∀ (c : TreeNode) (cs : list TreeNode) q r line,
              head (siblingLines (fun c last => treeLines c q last) (c :: cs) ++ r)
              = Some line → String.prefix q line = true) as Hfirst.
    { intros c cs q r line. cbn [siblingLines]. rewrite Hlines. cbn [app head].
      intros [= <-]. apply prefix_append. }
    assert (∀ (cs : list TreeNode) q r b line,
              (∀ line, head r = Some line → String.prefix q line = false) →
              head (siblingLines (fun c last => treeLines c q last) cs ++ r) = Some line →
              String.prefix (q +:+ indent b) line = false) as Hnext.
    { intros [|c cs] q r b line Hr.
      - cbn [siblingLines app]. intros Hline. by apply prefix_append_false, Hr.
      - cbn [siblingLines]. rewrite Hlines. cbn [app head]. intros [= <-].
        rewrite prefix_append_l. apply indent_not_connector. }
    induction 1 as [|c1 cs1 Hc1 _ IH]; intros [|c2 cs2] q r1 r2 Heq Hr1 Hr2.
    - done.
    - change (r1 = siblingLines (fun c last => treeLines c q last) (c2 :: cs2) ++ r2) in Heq.
      exfalso. subst r1.
      destruct (siblingLines (fun c last => treeLines c q last) (c2 :: cs2) ++ r2)
        as [|line rest] eqn:Hlines2.
      + cbn [siblingLines] in Hlines2. rewrite Hlines in Hlines2. done.
      + specialize (Hr1 line eq_refl).
        rewrite (Hfirst c2 cs2 q r2 line) in Hr1 by (by rewrite Hlines2). done.
    - change (siblingLines (fun c last => treeLines c q last) (c1 :: cs1) ++ r1 = r2) in Heq.
      exfalso. subst r2.
      destruct (siblingLines (fun c last => treeLines c q last) (c1 :: cs1) ++ r1)
        as [|line rest] eqn:Hlines1.
      + cbn [siblingLines] in Hlines1. rewrite Hlines in Hlines1. done.
      + specialize (Hr2 line eq_refl).
        rewrite (Hfirst c1 cs1 q r1 line) in Hr2 by (by rewrite Hlines1). done.
    - cbn [siblingLines] in Heq.
      fold (siblingLines (fun c last => treeLines c q last) cs1) in Heq.
      fold (siblingLines (fun c last => treeLines c q last) cs2) in Heq.
      rewrite <- !app_assoc in Heq.
      destruct (Hc1 _ _ _ _ _ _ Heq) as (_ & Hshape1 & Hrest).
      { intros line. by apply Hnext. }
      { intros line. by apply Hnext. }
      destruct (IH cs2 q r1 r2 Hrest Hr1 Hr2) as [Hshapes ->].
      cbn [map]. by rewrite Hshape1, Hshapes. }
  induction t1 as [n1 p1|n1 p1 cs1 IH] using TreeNode_rose_ind;
    intros t2 prefix b1 b2 r1 r2 Heq Hr1 Hr2;
    rewrite !Hlines in Heq; cbn [app name children default] in Heq;
    injection Heq as Hhead Htail;
    apply append_inj_l, connector_inj in Hhead as [<- Hname];
    apply append_LF_inj in Hname;
    rewrite !Hshape; cbn [name children default].
  - destruct (Hsiblings [] (Forall_nil_2 _) (default [] (children t2))
                (prefix +:+ indent b1) r1 r2 Htail Hr1 Hr2) as [Hkids ->].
    cbn [map] in Hkids. by rewrite <- Hkids, Hname.
  - destruct (Hsiblings cs1 IH (default [] (children t2))
                (prefix +:+ indent b1) r1 r2 Htail Hr1 Hr2) as [Hkids ->].
    by rewrite <- Hkids, Hname.
Qed.

(** X14: a rendering can be read back: two trees whose names hold no line
    feed and that render to the same text have the same names and the same
    shape (the text tells neither the paths nor whether a node without
    children has an empty [children] array or none). *)
Theorem render_determines_tree (t1 t2 : TreeNode) :
  (∀ m, m ∈ tree_nodes t1 → occurs "010" (name m) = false) →
  (∀ m, m ∈ tree_nodes t2 → occurs "010" (name m) = false) →
  render t1 = render t2 →
  forgetPath (deepCloneTree t1) = forgetPath (deepCloneTree t2).
Proof.
  intros H1 H2 Heq. unfold render in Heq. rewrite !renderTree_treeLines in Heq.
  apply join_empty_lines_inj in Heq.
  - destruct (treeLines_inj t1 t2 "" true true [] []) as (_ & Hshape & _);
      [by rewrite !app_nil_r|done..].
  - apply treeLines_proper; [by apply Forall_forall|done].
  - apply treeLines_proper; [by apply Forall_forall|done].
Qed.

(** Two trees that differ in their paths and in the [children] field of a
    leaf, with one rendering. *)
Lemma render_determines_tree_witness :
  let t1 := mkNode "root" "/a" (Some [mkNode "x" "/a/x" None]) in
  let t2 := mkNode "root" "/b" (Some [mkNode "x" "/b/x" (Some [])]) in
  ((∀ m, m ∈ tree_nodes t1 → occurs "010" (name m) = false)
   ∧ (∀ m, m ∈ tree_nodes t2 → occurs "010" (name m) = false)
   ∧ render t1 = render t2)
  ∧ forgetPath (deepCloneTree t1) = forgetPath (deepCloneTree t2).
Proof.
  intros t1 t2.
  assert (∀ m, m ∈ tree_nodes t1 → occurs "010" (name m) = false) as H1.
  { intros m Hm. cbn in Hm. rewrite !elem_of_cons, elem_of_nil in Hm.
    by destruct Hm as [->|[->|[]]]. }
  assert (∀ m, m ∈ tree_nodes t2 → occurs "010" (name m) = false) as H2.
  { intros m Hm. cbn in Hm. rewrite !elem_of_cons, elem_of_nil in Hm.
    by destruct Hm as [->|[->|[]]]. }
  split; [by split_and!|].
  exact (render_determines_tree t1 t2 H1 H2 eq_refl).
Defined.

(** With a line feed in a name the rendering is ambiguous: a leaf can pass
    for a node with a child. *)
Example render_ambiguous_with_line_feed :
  render (mkNode ("a" +:+ LF +:+ "    └── b") "/a" (Some []))
  = render (mkNode "a" "/a" (Some [mkNode "b" "/a/b" (Some [])])).
Proof. reflexivity. Qed.

(** ** More on the tree builder *)

Lemma forEachOutcome_ext {A B : Type} (f g : A → outcome B) (l : list A) :
  Forall (fun x => f x = g x) l → forEachOutcome f l = forEachOutcome g l.
Proof.
  induction 1 as [|x l Hx _ IH]; [done|]. cbn [forEachOutcome]. by rewrite Hx, IH.
Qed.

Section BuilderInvariant.
Context {pathLib : PathModule} {regexpLib : RegExpEngine}.

(** What holds of every node that [buildTree] makes. *)
Lemma buildTree_nodes (fs : FsEntry) (dirPath : string) (pats : list string) (t : TreeNode) :
  buildTree dirPath fs pats = Returns t →
  Forall (fun m => name m = nodeName (fullPath m)
                   ∧ Forall (fun c => ∃ entry, fullPath c = path_join (fullPath m) entry)
                       (default [] (children m)))
    (tree_nodes t).
Proof.
  revert dirPath t.
  induction fs as [| |entries IH] using FsEntry_rose_ind; intros dirPath t; cbn [buildTree].
  - intros [= <-]. by repeat constructor.
  - done.
  - destruct (forEachOutcome _ _) as [excluded|]; [|done]. rewrite bind_Returns.
    destruct (mapKept _ _ _) as [cs|] eqn:Hcs; [|done]. rewrite bind_Returns.
    intros [= <-].
    apply (mapKept_Forall _
             (fun c => (∃ entry, fullPath c = path_join dirPath entry)
                       ∧ Forall (fun m => name m = nodeName (fullPath m)
                                   ∧ Forall (fun c => ∃ entry,
                                               fullPath c = path_join (fullPath m) entry)
                                       (default [] (children m)))
                           (tree_nodes c))) in Hcs.
    + cbn [tree_nodes]. constructor.
      * split; [done|]. cbn [children default fullPath].
        eapply Forall_impl; [exact Hcs|]. by intros c [? _].
      * apply Forall_concat_map. eapply Forall_impl; [exact Hcs|]. by intros c [_ ?].
    + eapply Forall_impl; [exact IH|]. intros [entry sub] He c Hc. cbn [fst snd] in *.
      split; [|by eapply He].
      exists entry. by apply buildTree_root in Hc as [_ ?].
Qed.
End BuilderInvariant.

(** The [map] pass, given the verdicts of the [filter] pass. *)
Lemma mapKept_verdicts {T : Type} (build : string → FsEntry → outcome T)
    (verdict : string → outcome bool) (entries : list (string * FsEntry))
    (excluded : list bool) :
  Forall2 (fun entry b => verdict entry = Returns b) entries.*1 excluded →
  mapKept build entries excluded
  = forEachOutcome (fun e => build e.1 e.2)
      (List.filter (fun e => match verdict e.1 with
                             | Returns false => true
                             | _ => false
                             end) entries).
Proof.
  revert excluded.
  induction entries as [|[entry sub] entries IH]; intros excluded Hall.
  - by inversion Hall.
  - cbn [fmap list_fmap fst] in Hall.
    inversion Hall as [|? b ? excluded' Hb Hrest]; subst.
    cbn [mapKept List.filter fst]. fold (mapKept build). rewrite Hb.
    destruct b; [by apply IH|].
    cbn [forEachOutcome fst snd]. by rewrite (IH excluded').
Qed.

Lemma Forall2_fmap_exists {A B C : Type} (f : A → B) (P : B → C → Prop)
    (l : list A) (k : list C) :
  Forall2 P (f <$> l) k → Forall (fun x => ∃ y, P (f x) y) l.
Proof.
  revert k. induction l as [|x l IH]; intros k Hall; [constructor|].
  cbn [fmap list_fmap] in Hall. inversion Hall as [|? y ? k' Hy Hrest]; subst.
  constructor; [by exists y|by eapply IH].
Qed.

Section BuilderEntries.
Context {pathLib : PathModule} {regexpLib : RegExpEngine}.

(** The children of a node are the builds of the entries that the filter
    kept, in directory order. *)
Lemma buildTree_children (dirPath : string) (fs : FsEntry) (pats : list string)
    (t : TreeNode) :
  buildTree dirPath fs pats = Returns t →
  Forall (fun e => ∃ excluded, isExcluded dirPath pats e.1 = Returns excluded)
    (entriesOf fs)
  ∧ Forall2 (fun e c => buildTree (path_join dirPath e.1) e.2 pats = Returns c)
      (notExcluded dirPath pats (entriesOf fs)) (default [] (children t)).
Proof.
  destruct fs as [|entries|]; cbn [buildTree entriesOf]; [|  |done].
  - intros [= <-]. split; constructor.
  - destruct (forEachOutcome _ _) as [excluded|] eqn:Hex; [|done].
    rewrite bind_Returns. apply forEachOutcome_Forall2 in Hex.
    rewrite (mapKept_verdicts _ (isExcluded dirPath pats)) by done.
    destruct (forEachOutcome _ _) as [cs|] eqn:Hcs; [|done]. rewrite bind_Returns.
    intros [= <-]. split.
    + exact (Forall2_fmap_exists fst
               (fun entry b => isExcluded dirPath pats entry = Returns b) _ _ Hex).
    + by apply forEachOutcome_Forall2 in Hcs.
Qed.

(** Every node of the tree is the build of what lies at its path. *)
Lemma buildTree_reached (fs : FsEntry) :
  ∀ (dirPath : string) (pats : list string) (t : TreeNode),
    buildTree dirPath fs pats = Returns t →
    Forall (fun m => ∃ names below,
                reaches fs names below
                ∧ fullPath m = foldl path_join dirPath names
                ∧ buildTree (fullPath m) below pats = Returns m)
      (tree_nodes t).
Proof.
  induction fs as [| |entries IH] using FsEntry_rose_ind; intros dirPath pats t Ht.
  - injection Ht as <-. constructor; [|constructor]. by exists [], FsFile.
  - done.
  - destruct (buildTree_children _ _ _ _ Ht) as [_ Hcs].
    destruct (buildTree_root _ _ _ _ Ht) as [_ Hpath].
    assert (∃ cs, children t = Some cs) as [cs Hchildren].
    { cbn [buildTree] in Ht.
      destruct (forEachOutcome _ _) as [excluded|]; [|done]. rewrite bind_Returns in Ht.
      destruct (mapKept _ _ _) as [cs|]; [|done]. rewrite bind_Returns in Ht.
      injection Ht as <-. by eexists. }
    destruct t as [n p cs']. cbn [children fullPath] in *. subst cs' p.
    cbn [default from_option id] in Hcs. cbn [tree_nodes]. constructor.
    + by exists [], (FsDir entries).
    + apply Forall_concat_map.
      assert (Forall (fun e => e ∈ entries)
                (notExcluded dirPath pats (entriesOf (FsDir entries)))) as Hin.
      { apply Forall_forall. intros e He. apply list_elem_of_In.
        apply list_elem_of_In, filter_In in He. tauto. }
      revert Hin Hcs. generalize (notExcluded dirPath pats (entriesOf (FsDir entries))).
      intros kept Hin Hcs. clear Ht.
      induction Hcs as [|[entry sub] c kept cs0 Hc _ IHcs]; [constructor|].
      apply Forall_cons in Hin as [He Hin]. constructor; [|by apply IHcs].
      rewrite Forall_forall in IH. cbn [fst snd] in Hc.
      eapply Forall_impl; [exact (IH _ He _ _ _ Hc)|].
      intros m (names & below & Hreach & Hm & Hbuild). cbn [snd] in Hreach.
      exists (entry :: names), below. split_and!; [|done|done].
      cbn [reaches entriesOf]. by exists sub.
Qed.
End BuilderEntries.

(** X15: in a tree that [buildTree] returns, the root carries the path it
    was built for, and every node is the build of the file-system entry at
    its place: the node is reached by a chain of entry names, each listed
    in the directory before it; its path is the root path joined with
    these names in turn, and its name is [path.basename(fullPath) ||
    fullPath]. Its children are, in directory order, the builds of the
    entries listed there for which the exclusion test returned [false],
    each with the path of its parent joined with the name of its entry. *)
Theorem buildTree_names_and_paths {pathLib : PathModule} {regexpLib : RegExpEngine}
    (dirPath : string) (fs : FsEntry) (pats : list string) (t : TreeNode) :
  buildTree dirPath fs pats = Returns t →
  fullPath t = dirPath
  ∧ ∀ m, m ∈ tree_nodes t →
      name m = nodeName (fullPath m)
      ∧ ∃ names below,
          reaches fs names below
          ∧ fullPath m = foldl path_join dirPath names
          ∧ buildTree (fullPath m) below pats = Returns m
          ∧ Forall (fun e => ∃ excluded,
                      isExcluded (fullPath m) pats e.1 = Returns excluded)
              (entriesOf below)
          ∧ Forall2 (fun e c => fullPath c = path_join (fullPath m) e.1
                                ∧ name c = nodeName (path_join (fullPath m) e.1)
                                ∧ buildTree (path_join (fullPath m) e.1) e.2 pats
                                  = Returns c)
              (notExcluded (fullPath m) pats (entriesOf below))
              (default [] (children m)).
Proof.
  intros Ht. split; [by apply buildTree_root in Ht as [_ ?]|].
  intros m Hm.
  pose proof (buildTree_reached _ _ _ _ Ht) as Hall. rewrite Forall_forall in Hall.
  destruct (Hall m Hm) as (names & below & Hreach & Hpath & Hbuild).
  destruct (buildTree_root _ _ _ _ Hbuild) as [Hname _].
  split; [done|]. exists names, below.
  destruct (buildTree_children _ _ _ _ Hbuild) as [Hverdicts Hcs].
  split_and!; try done.
  eapply Forall2_impl; [exact Hcs|]. intros e c Hc. cbn beta in Hc.
  destruct (buildTree_root _ _ _ _ Hc) as [? ?]. by split_and!.
Qed.

Lemma buildTree_names_and_paths_witness :
  let fs := FsDir [("a", FsDir [("b.txt", FsFile)]); ("c", FsFile)] in
  let t := mkNode "work" "/work"
             (Some [mkNode "a" "/work/a" (Some [mkNode "b.txt" "/work/a/b.txt" (Some [])]);
                    mkNode "c" "/work/c" (Some [])]) in
  buildTree (pathLib := Posix.pathModule "/") (regexpLib := Regex.engine) "/work" fs ["*.log"]
  = Returns t
  ∧ Forall (fun m => name m = nodeName (pathLib := Posix.pathModule "/") (fullPath m))
      (tree_nodes t).
Proof.
  intros fs t.
  assert (buildTree (pathLib := Posix.pathModule "/") (regexpLib := Regex.engine)
            "/work" fs ["*.log"] = Returns t) as Ht by reflexivity.
  split; [done|].
  apply Forall_forall. intros m Hm.
  by destruct (buildTree_names_and_paths (pathLib := Posix.pathModule "/")
                 (regexpLib := Regex.engine) "/work" fs ["*.log"] t Ht)
    as [_ [? _]%(fun H => H m Hm)].
Defined.

Section BuilderNoPatterns.
Context {pathLib : PathModule} {regexpLib : RegExpEngine}.

Lemma buildTree_no_patterns_dir (dirPath : string) (entries : list (string * FsEntry)) :
  buildTree dirPath (FsDir entries) []
  = cs ← forEachOutcome (fun e => buildTree (path_join dirPath e.1) e.2 []) entries;
    Returns (mkNode (nodeName dirPath) dirPath (Some cs)).
Proof.
  cbn [buildTree].
  rewrite (forEachOutcome_Returns _ (fun _ => false)) by (by apply Forall_forall).
  rewrite bind_Returns, mapKept_filter. cbn [negb].
  assert (List.filter (fun _ : string * FsEntry => true) entries = entries) as ->; [|done].
  induction entries as [|e entries IH]; [done|]. cbn. by rewrite IH.
Qed.

Lemma buildTree_no_patterns_outcome (fs : FsEntry) (dirPath : string) :
  (statable fs ∧ ∃ t, buildTree dirPath fs [] = Returns t)
  ∨ (¬ statable fs ∧ buildTree dirPath fs [] = Throws FilesystemError).
Proof.
  revert dirPath.
  induction fs as [| |entries IH] using FsEntry_rose_ind; intros dirPath.
  - left. split; [done|]. by eexists.
  - right. split; [by intros []|done].
  - rewrite buildTree_no_patterns_dir, statable_dir.
    assert ((Forall (fun e => statable e.2) entries
             ∧ ∃ cs, forEachOutcome (fun e => buildTree (path_join dirPath e.1) e.2 [])
                       entries = Returns cs)
            ∨ (¬ Forall (fun e => statable e.2) entries
               ∧ forEachOutcome (fun e => buildTree (path_join dirPath e.1) e.2 []) entries
                 = Throws FilesystemError)) as [[Hs [cs ->]]|[Hs ->]].
    { induction IH as [|e entries He _ IHentries]; [left; split; [constructor|by eexists]|].
      cbn [forEachOutcome].
      destruct (He (path_join dirPath e.1)) as [[Hs (t & ->)]|[Hs ->]].
      - rewrite bind_Returns.
        destruct IHentries as [[Hss (cs & ->)]|[Hss ->]].
        + left. split; [by constructor|]. by eexists.
        + right. split; [|done]. by intros [_ ?]%Forall_cons.
      - right. split; [|done]. by intros [? _]%Forall_cons. }
    + left. split; [done|]. by eexists.
    + by right.
Qed.
End BuilderNoPatterns.

(** X16: without exclude patterns no regular expression is ever built:
    whatever the [RegExp] engine, a directory's node has one child per entry,
    in order. The build returns exactly when every entry below the path can
    be statted; one that cannot makes the whole build throw the file-system
    error, with no partial tree. *)
Theorem buildTree_no_patterns {pathLib : PathModule} {regexpLib : RegExpEngine}
    (dirPath : string) (fs : FsEntry) :
  ((statable fs ∧ ∃ t, buildTree dirPath fs [] = Returns t)
   ∨ (¬ statable fs ∧ buildTree dirPath fs [] = Throws FilesystemError))
  ∧ ∀ entries cs,
      buildTree dirPath (FsDir entries) [] = Returns (mkNode (nodeName dirPath) dirPath (Some cs))
      ↔ Forall2 (fun e c => buildTree (path_join dirPath e.1) e.2 [] = Returns c) entries cs.
Proof.
  split; [apply buildTree_no_patterns_outcome|].
  intros entries cs. rewrite buildTree_no_patterns_dir. split.
  - destruct (forEachOutcome _ entries) as [cs'|] eqn:Hcs; [|done].
    rewrite bind_Returns. intros [= <-]. by apply forEachOutcome_Forall2.
  - intros Hall.
    assert (forEachOutcome (fun e => buildTree (path_join dirPath e.1) e.2 []) entries
            = Returns cs) as ->; [|done].
    induction Hall as [|e c entries cs He _ IH]; [done|].
    cbn [forEachOutcome]. by rewrite He, IH.
Qed.

Lemma existsb_elements {A : Type} (f : A → bool) (l l' : list A) :
  (∀ x, x ∈ l ↔ x ∈ l') → existsb f l = existsb f l'.
Proof.
  intros Hsame. apply eq_true_iff_eq. rewrite !existsb_exists.
  split; intros (x & Hx & Hf); exists x; (split; [|done]);
    apply list_elem_of_In, Hsame, list_elem_of_In, Hx.
Qed.

Lemma list_filter_ext_Forall {A : Type} (f g : A → bool) (l : list A) :
  Forall (fun x => f x = g x) l → List.filter f l = List.filter g l.
Proof.
  induction 1 as [|x l Hx _ IH]; [done|]. cbn [List.filter]. by rewrite Hx, IH.
Qed.

Section BuilderPatterns.
Context {pathLib : PathModule} {regexpLib : RegExpEngine}.
Implicit Types (dirPath entry pattern : string) (pats : list string)
  (entries : list (string * FsEntry)) (compiled : string → RegExp).

Lemma keptEntries_elements compiled dirPath pats pats' entries :
  (∀ pattern, pattern ∈ pats ↔ pattern ∈ pats') →
  keptEntries compiled dirPath pats entries = keptEntries compiled dirPath pats' entries.
Proof.
  intros Hsame. unfold keptEntries. apply list_filter_ext_Forall, Forall_forall.
  intros e _. by rewrite (existsb_elements _ pats pats').
Qed.

Lemma buildTree_pattern_elements compiled pats pats' (fs : FsEntry) dirPath :
  compiles compiled pats → compiles compiled pats' →
  (∀ pattern, pattern ∈ pats ↔ pattern ∈ pats') →
  buildTree dirPath fs pats = buildTree dirPath fs pats'.
Proof.
  intros Hc Hc' Hsame. revert dirPath.
  induction fs as [| |entries IH] using FsEntry_rose_ind; intros dirPath; [done..|].
  rewrite !(buildTree_dir compiled) by done.
  rewrite (keptEntries_elements compiled dirPath pats pats') by done.
  f_equal. apply forEachOutcome_ext, Forall_list_filter.
  eapply Forall_impl; [exact IH|]. intros e He. apply He.
Qed.
End BuilderPatterns.

(** X17: when every pattern yields a regular expression, only the set of
    patterns matters: two pattern lists with the same elements (in any
    order, with any repetition) build the same tree. *)
Theorem buildTree_pattern_set {pathLib : PathModule} {regexpLib : RegExpEngine}
    (compiled : string → RegExp) (dirPath : string) (fs : FsEntry)
    (pats pats' : list string) :
  compiles compiled pats →
  (∀ pattern, pattern ∈ pats ↔ pattern ∈ pats') →
  buildTree dirPath fs pats = buildTree dirPath fs pats'.
Proof.
  intros Hc Hsame. apply (buildTree_pattern_elements compiled); [done| |done].
  unfold compiles in *. rewrite Forall_forall in Hc. apply Forall_forall.
  intros pattern Hp. by apply Hc, Hsame.
Qed.

Lemma buildTree_pattern_set_witness :
  let fs := FsDir [("a.log", FsFile); ("b.txt", FsFile); ("tmp", FsDir [("c", FsFile)])] in
  (compiles (regexpLib := Regex.engine) Regex.compiled ["tmp"; "*.log"; "tmp"]
   ∧ ∀ pattern, pattern ∈ ["tmp"; "*.log"; "tmp"] ↔ pattern ∈ ["*.log"; "tmp"])
  ∧ buildTree (pathLib := Posix.pathModule "/") (regexpLib := Regex.engine)
      "/work" fs ["tmp"; "*.log"; "tmp"]
    = Returns (mkNode "work" "/work" (Some [mkNode "b.txt" "/work/b.txt" (Some [])])).
Proof.
  intros fs.
  assert (compiles (regexpLib := Regex.engine) Regex.compiled ["tmp"; "*.log"; "tmp"]) as Hc
    by (by repeat constructor).
  assert (∀ pattern, pattern ∈ ["tmp"; "*.log"; "tmp"] ↔ pattern ∈ ["*.log"; "tmp"])
    as Hsame.
  { intros s. rewrite !elem_of_cons, !elem_of_nil. tauto. }
  split; [done|].
  rewrite (buildTree_pattern_set (pathLib := Posix.pathModule "/") (regexpLib := Regex.engine)
             Regex.compiled "/work" fs _ _ Hc Hsame).
  reflexivity.
Defined.

Lemma list_filter_andb {A : Type} (f g : A → bool) (l : list A) :
  List.filter (fun x => f x && g x) l = List.filter g (List.filter f l).
Proof.
  induction l as [|x l IH]; [done|]. cbn [List.filter].
  destruct (f x); cbn [andb List.filter]; [|done]. by rewrite IH.
Qed.

(** Building fewer entries, each to a smaller tree. *)
Lemma forEachOutcome_fewer {A : Type} (build build' : A → outcome TreeNode)
    (R : TreeNode → TreeNode → Prop) (keep : A → bool) (l : list A) (cs : list TreeNode) :
  Forall (fun e => ∀ c, build e = Returns c →
            ∃ c', build' e = Returns c' ∧ tree_size c' ≤ tree_size c ∧ R c' c) l →
  forEachOutcome build l = Returns cs →
  ∃ cs', forEachOutcome build' (List.filter keep l) = Returns cs'
         ∧ sum_list (map tree_size cs') ≤ sum_list (map tree_size cs)
         ∧ Forall (fun c' => ∃ c, c ∈ cs ∧ R c' c) cs'.
Proof.
  intros Hl. revert cs. induction Hl as [|e l He _ IH]; intros cs; cbn [forEachOutcome].
  - intros [= <-]. exists []. by split_and!.
  - destruct (build e) as [c|] eqn:Hc; [|done]. rewrite bind_Returns.
    destruct (forEachOutcome build l) as [cs0|]; [|done]. rewrite bind_Returns.
    intros [= <-]. destruct (IH cs0 eq_refl) as (cs' & Hcs' & Hsize & Hall).
    assert (Forall (fun c' => ∃ c1, c1 ∈ c :: cs0 ∧ R c' c1) cs') as Hall'.
    { eapply Forall_impl; [exact Hall|]. intros c' (c1 & ? & ?). exists c1.
      split; [by right|done]. }
    cbn [List.filter]. destruct (keep e).
    + destruct (He c eq_refl) as (c' & Hc' & Hle & HR).
      exists (c' :: cs'). cbn [forEachOutcome]. rewrite Hc', Hcs'.
      split_and!; [done|cbn; lia|].
      constructor; [|done]. exists c. split; [left|done].
    + exists cs'. split_and!; [done|cbn; lia|done].
Qed.

Section BuilderMonotone.
Context {pathLib : PathModule} {regexpLib : RegExpEngine}.
Implicit Types (dirPath entry pattern : string) (pats : list string)
  (entries : list (string * FsEntry)) (compiled : string → RegExp).

Lemma keptEntries_app compiled dirPath pats more entries :
  keptEntries compiled dirPath (pats ++ more) entries
  = List.filter (fun e => negb (existsb (matchedBy compiled dirPath e.1) more))
      (keptEntries compiled dirPath pats entries).
Proof.
  unfold keptEntries. rewrite <- list_filter_andb.
  apply list_filter_ext_Forall, Forall_forall. intros e _.
  by rewrite existsb_app, negb_orb.
Qed.

Lemma buildTree_more compiled pats more (fs : FsEntry) dirPath (t : TreeNode) :
  compiles compiled (pats ++ more) →
  buildTree dirPath fs pats = Returns t →
  ∃ t', buildTree dirPath fs (pats ++ more) = Returns t'
        ∧ tree_size t' ≤ tree_size t
        ∧ sameEntry t' t
        ∧ Forall (fun m' => ∃ m, m ∈ tree_nodes t ∧ sameEntry m' m) (tree_nodes t').
Proof.
  intros Hc. pose proof Hc as [Hpats _]%Forall_app. revert dirPath t.
  induction fs as [| |entries IH] using FsEntry_rose_ind; intros dirPath t.
  - intros [= <-]. eexists. split_and!; [done..|].
    repeat constructor. eexists. split; [left|done].
  - done.
  - rewrite !(buildTree_dir compiled) by done. rewrite keptEntries_app.
    destruct (forEachOutcome _ (keptEntries compiled dirPath pats entries))
      as [cs|] eqn:Hcs; [|done].
    rewrite bind_Returns. intros [= <-].
    destruct (forEachOutcome_fewer
                (fun e => buildTree (path_join dirPath e.1) e.2 pats)
                (fun e => buildTree (path_join dirPath e.1) e.2 (pats ++ more))
                (fun c' c => sameEntry c' c
                             ∧ Forall (fun m' => ∃ m, m ∈ tree_nodes c ∧ sameEntry m' m)
                                 (tree_nodes c'))
                (fun e => negb (existsb (matchedBy compiled dirPath e.1) more))
                (keptEntries compiled dirPath pats entries) cs)
      as (cs' & -> & Hsize & Hall); [|done|].
    { apply Forall_list_filter. eapply Forall_impl; [exact IH|].
      intros e He c Hbuild. destruct (He _ _ Hbuild) as (c' & ? & ? & ? & ?). by exists c'. }
    rewrite bind_Returns. eexists. split_and!; [done|cbn; lia|done|].
    cbn [tree_nodes]. constructor; [eexists; split; [left|done]|].
    apply Forall_concat_map. eapply Forall_impl; [exact Hall|].
    intros c' (c & Hin & _ & Hnodes). eapply Forall_impl; [exact Hnodes|].
    intros m' (m & Hm & Hsame). exists m. split; [|done].
    by eapply (tree_nodes_child (mkNode _ _ (Some cs))).
Qed.
End BuilderMonotone.

(** X18: more exclude patterns only remove: when the patterns yield regular
    expressions and a build returns, the build with further patterns returns
    too; its tree has the same root, no more nodes, and every node of it is
    an entry of the first tree. *)
Theorem buildTree_more_patterns {pathLib : PathModule} {regexpLib : RegExpEngine}
    (compiled : string → RegExp) (dirPath : string) (fs : FsEntry)
    (pats more : list string) (t : TreeNode) :
  compiles compiled (pats ++ more) →
  buildTree dirPath fs pats = Returns t →
  ∃ t', buildTree dirPath fs (pats ++ more) = Returns t'
        ∧ name t' = name t ∧ fullPath t' = fullPath t
        ∧ tree_size t' ≤ tree_size t
        ∧ ∀ m', m' ∈ tree_nodes t' →
            ∃ m, m ∈ tree_nodes t ∧ name m' = name m ∧ fullPath m' = fullPath m.
Proof.
  intros Hc Ht.
  destruct (buildTree_more compiled pats more fs dirPath t Hc Ht)
    as (t' & Ht' & Hsize & [Hname Hpath] & Hall).
  exists t'. split_and!; [done..|]. by rewrite Forall_forall in Hall.
Qed.

Lemma buildTree_more_patterns_witness :
  let fs := FsDir [("a.log", FsFile); ("b.txt", FsFile); ("tmp", FsDir [("c", FsFile)])] in
  (compiles (regexpLib := Regex.engine) Regex.compiled (["*.log"] ++ ["tmp"])
   ∧ buildTree (pathLib := Posix.pathModule "/") (regexpLib := Regex.engine)
       "/work" fs ["*.log"]
     = Returns (mkNode "work" "/work"
                  (Some [mkNode "b.txt" "/work/b.txt" (Some []);
                         mkNode "tmp" "/work/tmp"
                           (Some [mkNode "c" "/work/tmp/c" (Some [])])])))
  ∧ ∃ t', buildTree (pathLib := Posix.pathModule "/") (regexpLib := Regex.engine)
            "/work" fs (["*.log"] ++ ["tmp"]) = Returns t'
          ∧ tree_size t' ≤ 4.
Proof.
  intros fs.
  assert (compiles (regexpLib := Regex.engine) Regex.compiled (["*.log"] ++ ["tmp"])) as Hc
    by (by repeat constructor).
  split; [by split|].
  destruct (buildTree_more_patterns (pathLib := Posix.pathModule "/")
              (regexpLib := Regex.engine) Regex.compiled "/work" fs ["*.log"] ["tmp"] _
              Hc eq_refl) as (t' & Ht' & _ & _ & Hsize & _).
  by exists t'.
Defined.

Section BuildersAgree.
Context {pathLib : PathModule} {regexpLib : RegExpEngine}.

Lemma mapKept_ext {T U : Type} (build : string → FsEntry → outcome T)
    (build' : string → FsEntry → outcome U) (f : T → U)
    (entries : list (string * FsEntry)) (excluded : list bool) :
  Forall (fun e => build' e.1 e.2 = match build e.1 e.2 with
                                    | Returns t => Returns (f t)
                                    | Throws err => Throws err
                                    end) entries →
  mapKept build' entries excluded
  = match mapKept build entries excluded with
    | Returns cs => Returns (map f cs)
    | Throws err => Throws err
    end.
Proof.
  intros Hall. revert excluded.
  induction Hall as [|[entry sub] entries He _ IH]; intros excluded; [done|].
  cbn [mapKept]. fold (mapKept build). fold (mapKept build').
  destruct excluded as [|[|] excluded]; [done|apply IH|].
  cbn [fst snd] in He. rewrite He, IH.
  destruct (build entry sub) as [c|]; [|done]. rewrite !bind_Returns.
  by destruct (mapKept build entries excluded).
Qed.

Lemma buildTree_js_itemOf (fs : FsEntry) (dirPath : string) (pats : list string) :
  buildTree_js dirPath fs pats
  = match buildTree dirPath fs pats with
    | Returns t => Returns (itemOf t)
    | Throws err => Throws err
    end.
Proof.
  revert dirPath.
  induction fs as [| |entries IH] using FsEntry_rose_ind; intros dirPath; [done..|].
  cbn [buildTree_js buildTree].
  destruct (forEachOutcome _ _) as [excluded|]; [|done]. rewrite !bind_Returns.
  rewrite (mapKept_ext
             (fun entry sub => buildTree (path_join dirPath entry) sub pats)
             (fun entry sub => buildTree_js (path_join dirPath entry) sub pats) itemOf).
  - by destruct (mapKept _ entries excluded).
  - eapply Forall_impl; [exact IH|]. intros e He. apply He.
Qed.

Lemma itemOf_forgetPath (t : TreeNode) :
  Forall (fun m => name m = path_basename (fullPath m)) (tree_nodes t) →
  itemOf t = forgetPath t.
Proof.
  induction t as [n p|n p cs IH] using TreeNode_rose_ind; cbn [tree_nodes].
  - intros [Hn _]%Forall_cons. cbn in Hn |- *. by rewrite Hn.
  - intros [Hn Hcs%Forall_concat_map]%Forall_cons. cbn in Hn. cbn [itemOf forgetPath].
    rewrite Hn. do 2 f_equal. apply map_ext_Forall.
    rewrite Forall_forall in IH, Hcs. apply Forall_forall. intros c Hc. by apply IH, Hcs.
Qed.
End BuildersAgree.

(** X19: the builder of the compiled extension.js (and of the earliest
    variants) and the current one fail alike, and return the same tree but
    for the names: the older node is named [path.basename] of the path, the
    current one falls back to the path itself when that name is empty. *)
Theorem buildTree_js_buildTree {pathLib : PathModule} {regexpLib : RegExpEngine}
    (dirPath : string) (fs : FsEntry) (pats : list string) :
  buildTree_js dirPath fs pats
  = match buildTree dirPath fs pats with
    | Returns t => Returns (itemOf t)
    | Throws err => Throws err
    end
  ∧ ∀ t, buildTree dirPath fs pats = Returns t →
      (∀ m, m ∈ tree_nodes t → path_basename (fullPath m) ≠ "") →
      buildTree_js dirPath fs pats = Returns (forgetPath t).
Proof.
  split; [apply buildTree_js_itemOf|].
  intros t Ht Hnames. rewrite buildTree_js_itemOf, Ht. f_equal.
  apply itemOf_forgetPath. apply buildTree_nodes in Ht.
  rewrite Forall_forall in Ht. apply Forall_forall. intros m Hm.
  destruct (Ht m Hm) as [-> _]. unfold nodeName.
  destruct (String.eqb_spec (path_basename (fullPath m)) ""); [|done].
  by destruct (Hnames m Hm).
Qed.

(** ** Relevance, on POSIX paths *)

Lemma plainSegment_inv (s : string) :
  plainSegment s = true → s ≠ "" ∧ s ≠ "." ∧ s ≠ ".." ∧ occurs "/" s = false.
Proof.
  unfold plainSegment. rewrite !andb_true_iff, !negb_true_iff, !String.eqb_neq. tauto.
Qed.

Lemma segments_cons (s rest : string) :
  occurs "/" s = false →
  Posix.segments (s +:+ "/" +:+ rest) = s :: Posix.segments rest.
Proof.
  induction s as [|c s IH]; intros Hs; [done|].
  cbn [occurs] in Hs. apply orb_false_elim in Hs as [Hc Hs].
  change (String c s +:+ "/" +:+ rest) with (String c (s +:+ "/" +:+ rest)).
  cbn [Posix.segments]. rewrite Hc, IH by done. done.
Qed.

Lemma segments_plain (s : string) : occurs "/" s = false → Posix.segments s = [s].
Proof.
  induction s as [|c s IH]; intros Hs; [done|].
  cbn [occurs] in Hs. apply orb_false_elim in Hs as [Hc Hs].
  cbn [Posix.segments]. by rewrite Hc, IH.
Qed.

Lemma segments_joinWith (s : string) (segs : list string) :
  Forall (fun s => plainSegment s = true) (s :: segs) →
  Posix.segments (Posix.joinWith "/" (s :: segs)) = s :: segs.
Proof.
  revert s. induction segs as [|s' segs IH]; intros s [Hs Hrest]%Forall_cons.
  - apply segments_plain. by apply plainSegment_inv in Hs as (_ & _ & _ & ?).
  - change (Posix.joinWith "/" (s :: s' :: segs))
      with (s +:+ "/" +:+ Posix.joinWith "/" (s' :: segs)).
    rewrite segments_cons by (by apply plainSegment_inv in Hs as (_ & _ & _ & ?)).
    by rewrite IH.
Qed.

Lemma pushSegment_plain (stack : list string) (s : string) :
  plainSegment s = true → Posix.pushSegment false stack s = s :: stack.
Proof.
  intros (Hne & Hdot & Hup & _)%plainSegment_inv. unfold Posix.pushSegment.
  apply String.eqb_neq in Hne, Hdot, Hup. by rewrite Hne, Hdot, Hup.
Qed.

Lemma foldl_pushSegment_plain (segs stack : list string) :
  Forall (fun s => plainSegment s = true) segs →
  foldl (Posix.pushSegment false) stack segs = rev segs ++ stack.
Proof.
  intros Hsegs. revert stack. induction Hsegs as [|s segs Hs _ IH]; intros stack; [done|].
  cbn [foldl rev]. rewrite pushSegment_plain, IH by done. by rewrite <- app_assoc.
Qed.

Lemma isAbsolute_absolutePath (segs : list string) :
  Posix.isAbsolute (absolutePath segs) = true.
Proof.
  unfold Posix.isAbsolute, absolutePath.
  change ("/" +:+ Posix.joinWith "/" segs) with (String "/" (Posix.joinWith "/" segs)).
  cbn [String.prefix]. destruct (ascii_dec "/" "/"); [|done].
  by destruct (Posix.joinWith "/" segs).
Qed.

(** An absolute path of plain entries resolves to these entries. *)
Lemma resolve_absolutePath (cwd : string) (segs : list string) :
  Forall (fun s => plainSegment s = true) segs →
  Posix.resolve cwd (absolutePath segs) = segs.
Proof.
  intros Hsegs. unfold Posix.resolve. rewrite isAbsolute_absolutePath.
  unfold absolutePath, Posix.normalizeSegments.
  destruct segs as [|s segs]; [done|].
  change (Posix.segments ("/" +:+ Posix.joinWith "/" (s :: segs)))
    with ("" :: Posix.segments (Posix.joinWith "/" (s :: segs))).
  rewrite segments_joinWith by done.
  change (foldl (Posix.pushSegment false) [] ("" :: s :: segs))
    with (foldl (Posix.pushSegment false) [] (s :: segs)).
  rewrite foldl_pushSegment_plain by done. by rewrite app_nil_r, rev_involutive.
Qed.

Lemma dropCommon_app (dir from to : list string) :
  Posix.dropCommon (dir ++ from) (dir ++ to) = Posix.dropCommon from to.
Proof.
  induction dir as [|s dir IH]; [done|]. cbn [app Posix.dropCommon].
  by rewrite String.eqb_refl.
Qed.

Lemma dropCommon_below (dir below : list string) :
  Posix.dropCommon dir (dir ++ below) = ([], below).
Proof.
  induction dir as [|s dir IH]; [by destruct below|]. cbn [app Posix.dropCommon].
  by rewrite String.eqb_refl.
Qed.

Lemma dropCommon_above (dir below : list string) :
  Posix.dropCommon (dir ++ below) dir = (below, []).
Proof.
  induction dir as [|s dir IH]; [by destruct below|]. cbn [app Posix.dropCommon].
  by rewrite String.eqb_refl.
Qed.

Lemma prefix_up_joinWith (s : string) (rest : list string) :
  plainSegment s = true →
  String.prefix ".." (Posix.joinWith "/" (s :: rest)) = String.prefix ".." s.
Proof.
  intros (Hne & Hdot & _ & _)%plainSegment_inv.
  destruct rest as [|r rest]; [done|].
  change (Posix.joinWith "/" (s :: r :: rest))
    with (s +:+ "/" +:+ Posix.joinWith "/" (r :: rest)).
  destruct s as [|c1 [|c2 s]]; [done| |].
  - change (String c1 "" +:+ "/" +:+ Posix.joinWith "/" (r :: rest))
      with (String c1 ("/" +:+ Posix.joinWith "/" (r :: rest))).
    cbn [String.prefix]. destruct (ascii_dec "." c1) as [<-|]; done.
  - change (String c1 (String c2 s) +:+ "/" +:+ Posix.joinWith "/" (r :: rest))
      with (String c1 (String c2 (s +:+ "/" +:+ Posix.joinWith "/" (r :: rest)))).
    cbn [String.prefix]. destruct (ascii_dec "." c1); [|done].
    destruct (ascii_dec "." c2); [|done]. by destruct s.
Qed.

Lemma prefix_up_steps (up : string) (ups down : list string) :
  String.prefix ".."
    (Posix.joinWith "/" (map (fun _ : string => "..") (up :: ups) ++ down)) = true.
Proof.
  cbn [map app]. by destruct (map (fun _ : string => "..") ups ++ down).
Qed.

Section PosixRelevance.
Variable cwd : string.

Lemma relative_absolutePath (from to : list string) :
  Forall (fun s => plainSegment s = true) from →
  Forall (fun s => plainSegment s = true) to →
  String.prefix ".." (Posix.relative cwd (absolutePath from) (absolutePath to))
  = String.prefix ".."
      (Posix.joinWith "/"
         (map (fun _ : string => "..") (Posix.dropCommon from to).1
          ++ (Posix.dropCommon from to).2)).
Proof.
  intros Hfrom Hto. unfold Posix.relative.
  destruct (String.eqb_spec (absolutePath from) (absolutePath to)) as [Heq|_].
  - assert (from = to) as <-.
    { by rewrite <- (resolve_absolutePath cwd from), <- (resolve_absolutePath cwd to), Heq. }
    pose proof (dropCommon_below from []) as Hsame. rewrite app_nil_r in Hsame.
    by rewrite Hsame.
  - rewrite !resolve_absolutePath by done. by destruct (Posix.dropCommon from to).
Qed.
End PosixRelevance.

(** A path is an ancestor-or-self of the paths below it, unless they go on
    with a name that starts with [..]. *)
Lemma isAncestorOrSelf_below (cwd : string) (dir below : list string) :
  Forall (fun s => plainSegment s = true) (dir ++ below) →
  isAncestorOrSelf (pathLib := Posix.pathModule cwd)
    (absolutePath dir) (absolutePath (dir ++ below))
  = match below with
    | [] => true
    | s :: _ => negb (String.prefix ".." s)
    end.
Proof.
  intros Hall. pose proof Hall as [Hdir Hbelow]%Forall_app.
  unfold isAncestorOrSelf. cbn [path_relative Posix.pathModule].
  rewrite relative_absolutePath, dropCommon_below by done. cbn [fst snd map app].
  destruct below as [|s below]; [done|].
  apply Forall_cons in Hbelow as [Hs _]. by rewrite prefix_up_joinWith.
Qed.

(** X20: what [isAncestorOrSelf] decides on POSIX paths. For the absolute
    paths of entries (no empty name, no [.] or [..], no separator in a name):
    a path is an ancestor-or-self of itself and of every path below it,
    except a path that goes on with a name starting with [..]; a path is no
    ancestor of a path above it; and of two paths that part at some point,
    neither is an ancestor of the other. *)
Theorem isAncestorOrSelf_posix (cwd : string) (dir below : list string) :
  Forall (fun s => plainSegment s = true) (dir ++ below) →
  isAncestorOrSelf (pathLib := Posix.pathModule cwd)
    (absolutePath dir) (absolutePath (dir ++ below))
  = match below with
    | [] => true
    | s :: _ => negb (String.prefix ".." s)
    end
  ∧ isAncestorOrSelf (pathLib := Posix.pathModule cwd)
      (absolutePath (dir ++ below)) (absolutePath dir)
    = match below with
      | [] => true
      | _ :: _ => false
      end
  ∧ ∀ x y more more',
      x ≠ y →
      Forall (fun s => plainSegment s = true) (x :: more) →
      Forall (fun s => plainSegment s = true) (y :: more') →
      isAncestorOrSelf (pathLib := Posix.pathModule cwd)
        (absolutePath (dir ++ below ++ x :: more))
        (absolutePath (dir ++ below ++ y :: more')) = false.
Proof.
  intros Hall. pose proof Hall as [Hdir Hbelow]%Forall_app.
  unfold isAncestorOrSelf. cbn [path_relative Posix.pathModule].
  split_and!.
  - by apply isAncestorOrSelf_below.
  - rewrite relative_absolutePath, dropCommon_above by done. cbn [fst snd].
    destruct below as [|s below]; [done|]. by rewrite prefix_up_steps.
  - intros x y more more' Hxy Hx Hy.
    rewrite relative_absolutePath by (rewrite !Forall_app; by split_and!).
    rewrite !app_assoc, dropCommon_app. cbn [Posix.dropCommon].
    apply String.eqb_neq in Hxy. rewrite Hxy. cbn [fst snd].
    by rewrite prefix_up_steps.
Qed.

(** A folder is no ancestor of an entry in it named [..hidden]. *)
Lemma isAncestorOrSelf_posix_witness :
  Forall (fun s => plainSegment s = true) (["root"; "x"] ++ ["..hidden"])
  ∧ isAncestorOrSelf (pathLib := Posix.pathModule "/") "/root/x" "/root/x/..hidden" = false
  ∧ isAncestorOrSelf (pathLib := Posix.pathModule "/") "/root/x/..hidden" "/root/x" = false.
Proof.
  assert (Forall (fun s => plainSegment s = true) (["root"; "x"] ++ ["..hidden"])) as Hplain
    by (by repeat constructor).
  split; [done|].
  destruct (isAncestorOrSelf_posix "/" ["root"; "x"] ["..hidden"] Hplain) as (H1 & H2 & _).
  split; [exact H1|exact H2].
Defined.

(** ** The pipeline, on POSIX paths *)

Lemma wellPlaced_node (segs : list string) (n p : string) (cs : list TreeNode) :
  wellPlaced segs (mkNode n p (Some cs))
  ↔ p = absolutePath segs
    ∧ Forall (fun c => ∃ entry, plainSegment entry = true
                                ∧ String.prefix ".." entry = false
                                ∧ wellPlaced (segs ++ [entry]) c) cs.
Proof.
  cbn [wellPlaced]. induction cs as [|c cs IH].
  - split; intros [? _]; by split.
  - rewrite Forall_cons. split.
    + intros [Hp [Hc Hcs]]. destruct IH as [IH _]. destruct (IH (conj Hp Hcs)) as [_ ?].
      by split_and!.
    + intros [Hp [Hc Hcs]]. destruct IH as [_ IH]. destruct (IH (conj Hp Hcs)) as [_ ?].
      by split_and!.
Qed.

Lemma wellPlaced_fullPath (segs : list string) (t : TreeNode) :
  wellPlaced segs t → fullPath t = absolutePath segs.
Proof. destruct t as [n p cs]. by intros [? _]. Qed.

Lemma plainEntries_dir (entries : list (string * FsEntry)) :
  plainEntries (FsDir entries)
  ↔ Forall (fun e => plainSegment e.1 = true ∧ String.prefix ".." e.1 = false
                     ∧ plainEntries e.2) entries.
Proof.
  cbn [plainEntries]. induction entries as [|[entry sub] entries IH].
  - split; [constructor|done].
  - rewrite Forall_cons, <- IH. done.
Qed.

(** The nodes of a well-placed tree sit below its root. *)
Lemma wellPlaced_nodes (t : TreeNode) :
  ∀ (segs : list string) (m : TreeNode),
    wellPlaced segs t → m ∈ tree_nodes t →
    ∃ more, Forall (fun s => plainSegment s = true ∧ String.prefix ".." s = false) more
            ∧ wellPlaced (segs ++ more) m.
Proof.
  induction t as [n p|n p cs IH] using TreeNode_rose_ind; intros segs m Hwp Hm.
  - apply tree_nodes_inv in Hm as [->|(cs & c & [=] & _)].
    exists []. by rewrite app_nil_r.
  - apply tree_nodes_inv in Hm as [->|(cs' & c & [= <-] & Hc & Hm)].
    { exists []. by rewrite app_nil_r. }
    apply wellPlaced_node in Hwp as [_ Hcs].
    rewrite Forall_forall in IH, Hcs.
    destruct (Hcs c Hc) as (entry & Hplain & Hdots & Hwpc).
    destruct (IH c Hc (segs ++ [entry]) m Hwpc Hm) as (more & Hmore & Hwpm).
    exists (entry :: more). split; [by constructor|].
    by rewrite <- app_assoc in Hwpm.
Qed.

Lemma wellPlaced_deepCloneTree (t : TreeNode) :
  ∀ segs, wellPlaced segs t → wellPlaced segs (deepCloneTree t).
Proof.
  induction t as [n p|n p cs IH] using TreeNode_rose_ind; intros segs.
  - intros [? _]. by apply wellPlaced_node.
  - intros [Hp Hcs]%wellPlaced_node. cbn [deepCloneTree]. apply wellPlaced_node.
    split; [done|]. apply Forall_map.
    rewrite Forall_forall in IH, Hcs. apply Forall_forall. intros c Hc.
    destruct (Hcs c Hc) as (entry & ? & ? & Hwp). exists entry. split_and!; [done..|].
    by apply IH.
Qed.

Section PosixPipeline.
Variable cwd : string.

Lemma wellPlaced_relevant (segs : list string) (t m : TreeNode) :
  Forall (fun s => plainSegment s = true) segs →
  wellPlaced segs t → m ∈ tree_nodes t →
  isRelevant (pathLib := Posix.pathModule cwd) m [absolutePath segs] = true.
Proof.
  intros Hsegs Hwp Hm.
  destruct (wellPlaced_nodes t segs m Hwp Hm) as (more & Hmore & Hwpm).
  unfold isRelevant. cbn [existsb]. rewrite (wellPlaced_fullPath _ _ Hwpm).
  rewrite (isAncestorOrSelf_below cwd segs more).
  - destruct Hmore as [|s more [_ ->] _]; by rewrite !orb_true_r.
  - apply Forall_app. split; [done|]. eapply Forall_impl; [exact Hmore|]. by intros s [? _].
Qed.

(** Pruning a folder for its own selection changes nothing. *)
Lemma wellPlaced_pruneChildren (segs : list string) (t : TreeNode) :
  Forall (fun s => plainSegment s = true) segs →
  wellPlaced segs t →
  pruneChildren (pathLib := Posix.pathModule cwd) t [absolutePath segs] = t.
Proof.
  intros Hsegs Hwp. apply pruneChildren_identity.
  apply Forall_forall. intros c Hc. apply Forall_forall. intros m Hm.
  apply (wellPlaced_relevant segs t m); [done..|].
  destruct t as [n p [cs|]]; [|by apply elem_of_nil in Hc].
  by eapply (tree_nodes_child (mkNode n p (Some cs))).
Qed.

Lemma joinWith_snoc (s entry : string) (segs : list string) :
  Posix.joinWith "/" (s :: segs) +:+ "/" +:+ entry
  = Posix.joinWith "/" ((s :: segs) ++ [entry]).
Proof.
  revert s. induction segs as [|s' segs IH]; intros s; [done|].
  change (Posix.joinWith "/" (s :: s' :: segs))
    with (s +:+ "/" +:+ Posix.joinWith "/" (s' :: segs)).
  change (Posix.joinWith "/" ((s :: s' :: segs) ++ [entry]))
    with (s +:+ "/" +:+ Posix.joinWith "/" ((s' :: segs) ++ [entry])).
  by rewrite !append_assoc, IH.
Qed.

Lemma joinWith_nonempty (s : string) (segs : list string) :
  s ≠ "" → Posix.joinWith "/" (s :: segs) ≠ "".
Proof.
  intros Hs. destruct segs as [|s' segs]; [done|].
  change (Posix.joinWith "/" (s :: s' :: segs))
    with (s +:+ "/" +:+ Posix.joinWith "/" (s' :: segs)).
  by destruct s.
Qed.

Lemma normalize_absolutePath (segs : list string) :
  Forall (fun s => plainSegment s = true) segs →
  Posix.normalize (absolutePath segs) = absolutePath segs.
Proof.
  intros Hsegs. destruct segs as [|s segs]; [done|].
  pose proof (resolve_absolutePath cwd (s :: segs) Hsegs) as Hres.
  unfold Posix.resolve in Hres. rewrite isAbsolute_absolutePath in Hres.
  unfold Posix.normalize. rewrite isAbsolute_absolutePath. cbn [negb]. rewrite Hres.
  assert (String.eqb (absolutePath (s :: segs)) "" = false) as -> by done.
  assert (s ≠ "") as Hs.
  { apply Forall_cons in Hsegs as [Hs _]. by apply plainSegment_inv in Hs as [? _]. }
  pose proof (joinWith_nonempty s segs Hs) as Hbody. apply String.eqb_neq in Hbody.
  rewrite Hbody.
  assert (Posix.endsWithSlash (absolutePath (s :: segs)) = false) as ->.
  { unfold Posix.endsWithSlash, absolutePath.
    change (Posix.segments ("/" +:+ Posix.joinWith "/" (s :: segs)))
      with ("" :: Posix.segments (Posix.joinWith "/" (s :: segs))).
    rewrite segments_joinWith by done. rewrite last_cons.
    destruct (last (s :: segs)) as [lastSeg|] eqn:Hlast.
    2: { rewrite last_lookup in Hlast. apply lookup_ge_None in Hlast. cbn in Hlast. lia. }
    assert (lastSeg ∈ s :: segs) as Hin.
    { rewrite last_lookup in Hlast. by eapply list_elem_of_lookup_2. }
    rewrite Forall_forall in Hsegs.
    destruct (plainSegment_inv lastSeg (Hsegs lastSeg Hin)) as [Hne _].
    by destruct lastSeg. }
  by rewrite append_nil_r.
Qed.

Lemma join_absolutePath (segs : list string) (entry : string) :
  Forall (fun s => plainSegment s = true) segs → plainSegment entry = true →
  Posix.join (absolutePath segs) entry = absolutePath (segs ++ [entry]).
Proof.
  intros Hsegs Hentry. unfold Posix.join.
  assert (String.eqb (absolutePath segs) "" = false) as -> by done.
  assert (entry ≠ "") as Hne by (by apply plainSegment_inv in Hentry as [? _]).
  apply String.eqb_neq in Hne. rewrite Hne.
  assert (Forall (fun s => plainSegment s = true) (segs ++ [entry])) as Hall
    by (apply Forall_app; split; [done|by constructor]).
  destruct segs as [|s segs].
  - assert (occurs "/" entry = false) as Hsep
      by (by apply plainSegment_inv in Hentry as (_ & _ & _ & ?)).
    change (absolutePath [] +:+ "/" +:+ entry) with (String "/" (String "/" entry)).
    change (absolutePath ([] ++ [entry])) with ("/" +:+ entry).
    unfold Posix.normalize, Posix.endsWithSlash.
    change (Posix.isAbsolute (String "/" (String "/" entry))) with true.
    change (String.eqb (String "/" (String "/" entry)) "") with false.
    change (Posix.segments (String "/" (String "/" entry)))
      with ("" :: "" :: Posix.segments entry).
    rewrite segments_plain by done. cbn [negb last].
    unfold Posix.normalizeSegments. cbn [foldl].
    change (Posix.pushSegment false (Posix.pushSegment false [] "") "") with (@nil string).
    rewrite pushSegment_plain by done. cbn [rev app Posix.joinWith].
    rewrite Hne. destruct entry; [done|]. by rewrite append_nil_r.
  - assert (absolutePath (s :: segs) +:+ "/" +:+ entry
            = absolutePath ((s :: segs) ++ [entry])) as ->.
    { unfold absolutePath. by rewrite append_assoc, joinWith_snoc. }
    by apply normalize_absolutePath.
Qed.
End PosixPipeline.

Section PosixBuilder.
Context {regexpLib : RegExpEngine}.
Variable cwd : string.

Lemma buildTree_wellPlaced (fs : FsEntry) :
  ∀ (dir : list string) (pats : list string) (t : TreeNode),
    Forall (fun s => plainSegment s = true) dir →
    plainEntries fs →
    buildTree (pathLib := Posix.pathModule cwd) (absolutePath dir) fs pats = Returns t →
    wellPlaced dir t.
Proof.
  induction fs as [| |entries IH] using FsEntry_rose_ind; intros dir pats t Hdir Hplain;
    cbn [buildTree].
  - intros [= <-]. by apply wellPlaced_node.
  - done.
  - destruct (forEachOutcome _ _) as [excluded|]; [|done]. rewrite bind_Returns.
    destruct (mapKept _ _ _) as [cs|] eqn:Hcs; [|done]. rewrite bind_Returns.
    intros [= <-]. apply wellPlaced_node. split; [done|].
    eapply mapKept_Forall; [|exact Hcs].
    apply plainEntries_dir in Hplain.
    rewrite Forall_forall in IH, Hplain. apply Forall_forall.
    intros [entry sub] He c Hc. cbn [fst snd] in *.
    destruct (Hplain _ He) as (Hentry & Hdots & Hsub). cbn [fst snd] in *.
    exists entry. split_and!; [done..|].
    cbn [path_join Posix.pathModule] in Hc. rewrite join_absolutePath in Hc by done.
    apply (IH _ He (dir ++ [entry]) pats c); [|done..].
    apply Forall_app. split; [done|by constructor].
Qed.
End PosixBuilder.

(** X21: on POSIX paths the builder places every node: for an absolute root
    path and a file system whose entry names are plain (not empty, not [.]
    or [..], without separator) and do not start with [..], every node of the
    tree returned carries the absolute path of the entries that lead to it,
    and every node is relevant to the selection of the root: pruning the
    tree for its own root changes nothing. *)
Theorem buildTree_posix_well_placed {regexpLib : RegExpEngine}
    (cwd : string) (dir : list string) (fs : FsEntry) (pats : list string) (t : TreeNode) :
  Forall (fun s => plainSegment s = true) dir →
  plainEntries fs →
  buildTree (pathLib := Posix.pathModule cwd) (absolutePath dir) fs pats = Returns t →
  wellPlaced dir t
  ∧ (∀ m, m ∈ tree_nodes t →
       ∃ more, Forall (fun s => plainSegment s = true) more
               ∧ fullPath m = absolutePath (dir ++ more))
  ∧ (∀ m, m ∈ tree_nodes t →
       isRelevant (pathLib := Posix.pathModule cwd) m [absolutePath dir] = true)
  ∧ pruneChildren (pathLib := Posix.pathModule cwd) t [absolutePath dir] = t.
Proof.
  intros Hdir Hplain Ht. pose proof (buildTree_wellPlaced cwd fs dir pats t Hdir Hplain Ht) as Hwp.
  split_and!; [done| | |by apply wellPlaced_pruneChildren].
  - intros m Hm. destruct (wellPlaced_nodes t dir m Hwp Hm) as (more & Hmore & Hwpm).
    exists more. split; [|by apply wellPlaced_fullPath].
    eapply Forall_impl; [exact Hmore|]. by intros s [? _].
  - intros m Hm. by apply (wellPlaced_relevant cwd dir t m).
Qed.

Lemma buildTree_posix_well_placed_witness :
  let fs := FsDir [("src", FsDir [("main.ts", FsFile)]); ("README.md", FsFile)] in
  (Forall (fun s => plainSegment s = true) ["home"; "work"]
   ∧ plainEntries fs
   ∧ buildTree (pathLib := Posix.pathModule "/") (regexpLib := Regex.engine)
       "/home/work" fs []
     = Returns (mkNode "work" "/home/work"
                  (Some [mkNode "src" "/home/work/src"
                           (Some [mkNode "main.ts" "/home/work/src/main.ts" (Some [])]);
                         mkNode "README.md" "/home/work/README.md" (Some [])])))
  ∧ isRelevant (pathLib := Posix.pathModule "/")
      (mkNode "README.md" "/home/work/README.md" (Some [])) ["/home/work"] = true.
Proof.
  intros fs.
  assert (Forall (fun s => plainSegment s = true) ["home"; "work"]) as Hdir
    by (by repeat constructor).
  assert (plainEntries fs) as Hplain by (cbn; by split_and!).
  split; [by split_and!|].
  destruct (buildTree_posix_well_placed (regexpLib := Regex.engine) "/" ["home"; "work"] fs []
              _ Hdir Hplain eq_refl) as (_ & _ & Hrel & _).
  apply Hrel. right. right. right. left.
Defined.

(** X22: on POSIX paths, selecting one folder of a well-placed tree gives
    that folder with all that is below it: [buildPrunedTree] returns the
    clone of the node of that folder, unpruned, without any placeholder. *)
Theorem buildPrunedTree_posix_single_selection (cwd : string)
    (rootSegs selSegs : list string) (root : TreeNode) :
  Forall (fun s => plainSegment s = true) rootSegs →
  Forall (fun s => plainSegment s = true) selSegs →
  wellPlaced rootSegs root →
  is_Some (findPath (pathLib := Posix.pathModule cwd) root (absolutePath selSegs)) →
  ∃ selected,
    selected ∈ tree_nodes root
    ∧ fullPath selected = absolutePath selSegs
    ∧ buildPrunedTree (pathLib := Posix.pathModule cwd) root [absolutePath selSegs]
      = Returns (deepCloneTree selected)
    ∧ placeholder ∉ tree_nodes (deepCloneTree selected).
Proof.
  intros Hroot Hsel Hwp [path Hpath].
  pose proof (findPath_Some _ _ _ Hpath) as (_ & _ & (selected & Hlast & Hnorm) & Hall).
  assert (selected ∈ tree_nodes root) as Hin.
  { rewrite Forall_forall in Hall. apply Hall. rewrite last_lookup in Hlast.
    by eapply list_elem_of_lookup_2. }
  destruct (wellPlaced_nodes root rootSegs selected Hwp Hin) as (more & Hmore & Hwps).
  assert (Forall (fun s => plainSegment s = true) (rootSegs ++ more)) as Hplain.
  { apply Forall_app. split; [done|]. eapply Forall_impl; [exact Hmore|]. by intros s [? _]. }
  assert (fullPath selected = absolutePath selSegs) as Hfull.
  { cbn [path_normalize Posix.pathModule] in Hnorm.
    rewrite (wellPlaced_fullPath _ _ Hwps) in Hnorm |- *.
    by rewrite !(normalize_absolutePath cwd) in Hnorm. }
  exists selected. split_and!; [done..| |].
  - rewrite (buildPrunedTree_from_lca root [absolutePath selSegs] selected).
    + f_equal. rewrite <- Hfull, (wellPlaced_fullPath _ _ Hwps).
      apply wellPlaced_pruneChildren; [done|]. by apply wellPlaced_deepCloneTree.
    + rewrite selectionPaths_cons, Hpath.
      cbn [selectionPaths omap list_omap findLowestCommonAncestor]. by rewrite index_last.
  - intros Hph.
    destruct (wellPlaced_nodes (deepCloneTree selected) (rootSegs ++ more) placeholder
                (wellPlaced_deepCloneTree _ _ Hwps) Hph) as (more' & _ & [Hp _]).
    done.
Qed.

(** [root/{x/{p, q}, y}] with [x] selected. *)
Lemma buildPrunedTree_posix_single_selection_witness :
  let p := mkNode "p" "/root/x/p" (Some []) in
  let q := mkNode "q" "/root/x/q" (Some []) in
  let x := mkNode "x" "/root/x" (Some [p; q]) in
  let root := mkNode "root" "/root" (Some [x; mkNode "y" "/root/y" (Some [])]) in
  (Forall (fun s => plainSegment s = true) ["root"]
   ∧ Forall (fun s => plainSegment s = true) ["root"; "x"]
   ∧ wellPlaced ["root"] root
   ∧ is_Some (findPath (pathLib := Posix.pathModule "/") root "/root/x"))
  ∧ ∃ selected,
      fullPath selected = "/root/x"
      ∧ buildPrunedTree (pathLib := Posix.pathModule "/") root ["/root/x"]
        = Returns (deepCloneTree selected).
Proof.
  intros p q x root.
  assert (Forall (fun s => plainSegment s = true) ["root"]) as Hroot by (by repeat constructor).
  assert (Forall (fun s => plainSegment s = true) ["root"; "x"]) as Hsel
    by (by repeat constructor).
  assert (wellPlaced ["root"] root) as Hwp.
  { cbn. split_and!; try done.
    - exists "x". split_and!; try done.
      + exists "p". by split_and!.
      + exists "q". by split_and!.
    - exists "y". by split_and!. }
  assert (is_Some (findPath (pathLib := Posix.pathModule "/") root "/root/x")) as Hfound
    by (by eexists).
  split; [by split_and!|].
  destruct (buildPrunedTree_posix_single_selection "/" ["root"] ["root"; "x"] root
              Hroot Hsel Hwp Hfound) as (selected & _ & Hfull & Hout & _).
  by exists selected.
Defined.

(** ** More on the pruner on objects *)

Section HeapCloneCount.
Implicit Types (h : list Heap.NodeObj) (l : Heap.loc) (fp : list Heap.loc) (t : TreeNode).

(** A tree of [n] nodes is held in [n] addresses. *)
Lemma tree_at_length h t l fp : Heap.tree_at h t l fp → length fp = tree_size t.
Proof.
  revert l fp. induction t as [n p|n p ts IH] using TreeNode_rose_ind; intros l fp; cbn.
  - by intros (o & _ & _ & _ & _ & ->).
  - intros (o & _ & _ & _ & ls & fps & _ & -> & Hall). cbn [length]. f_equal.
    revert ls fps Hall. induction IH as [|t ts Ht _ IHts]; intros [|l' ls] [|fp' fps]; cbn;
      try done.
    intros [Hfirst Hrest]. rewrite length_app. f_equal; [by eapply Ht|by eapply IHts].
Qed.

Lemma heap_clone_children_length (fuel : nat) (ts : list TreeNode) :
  Forall (fun t => tree_size t ≤ fuel) ts →
  Forall (fun t => ∀ l fp h l' h', Heap.tree_at h t l fp →
            Heap.deepCloneTree fuel l h = Some (l', h') →
            length h' = length h + tree_size t) ts →
  ∀ (ls : list Heap.loc) (fps : list (list Heap.loc)) h ls' h',
    Heap.all3 (fun t l fp => Heap.tree_at h t l fp) ts ls fps →
    Heap.forEachRun (Heap.deepCloneTree fuel) ls h = Some (ls', h') →
    length h' = length h + sum_list (map tree_size ts).
Proof.
  intros Hfuel Hts. revert Hfuel.
  induction Hts as [|t ts Ht _ IH]; intros Hfuel [|l ls] [|fp fps] h ls' h';
    cbn [Heap.all3]; try done.
  - intros _ [= _ <-]. cbn. lia.
  - apply Forall_cons in Hfuel as [Hfuel1 Hfuel2].
    intros [Hfirst Hrest].
    destruct (heap_deepCloneTree_ok t fuel l fp h Hfirst Hfuel1)
      as (l1 & new1 & fp1 & Hrun1 & _).
    cbn [Heap.forEachRun]. rewrite (run_bind_Some _ _ _ _ _ Hrun1).
    unfold mbind at 1, Heap.run_bind at 1.
    destruct (Heap.forEachRun _ ls (h ++ new1)) as [[ls2 h2]|] eqn:Hrun2; [|done].
    intros [= _ <-].
    rewrite (IH Hfuel2 ls fps (h ++ new1) ls2 h2); [|by apply all3_tree_at_app|done].
    rewrite (Ht l fp h l1 (h ++ new1) Hfirst Hrun1). cbn. lia.
Qed.

(** A clone takes one new object per node. *)
Lemma heap_deepCloneTree_length t (fuel : nat) l fp h l' h' :
  Heap.tree_at h t l fp → tree_size t ≤ fuel →
  Heap.deepCloneTree fuel l h = Some (l', h') →
  length h' = length h + tree_size t.
Proof.
  revert fuel l fp h l' h'.
  induction t as [n p|n p ts IH] using TreeNode_rose_ind; intros fuel l fp h l' h' Hat Hfuel;
    (destruct fuel as [|fuel]; [cbn in Hfuel; lia|]).
  - destruct Hat as (o & Hl & Hn & Hp & Hcs & ->).
    cbn [Heap.deepCloneTree]. rewrite (run_bind_Some _ _ _ _ _ (readObj_Some _ _ _ Hl)).
    rewrite Hcs. intros [= _ <-]. rewrite length_app. cbn. lia.
  - destruct Hat as (o & Hl & Hn & Hp & ls & fps & Hcs & -> & Hall).
    apply tree_size_children in Hfuel.
    cbn [Heap.deepCloneTree]. rewrite (run_bind_Some _ _ _ _ _ (readObj_Some _ _ _ Hl)).
    rewrite Hcs. unfold mbind at 1, Heap.run_bind at 1.
    destruct (Heap.forEachRun _ ls h) as [[ls' h1]|] eqn:Hrun; [|done].
    intros [= _ <-]. rewrite length_app.
    rewrite (heap_clone_children_length fuel ts Hfuel) with (ls := ls) (fps := fps) (h := h)
      (ls' := ls') (h' := h1); [cbn; lia| |done|done].
    rewrite Forall_forall in IH, Hfuel. apply Forall_forall.
    intros t Ht l0 fp0 h0 l0' h0' Hat0 Hrun0.
    exact (IH t Ht fuel l0 fp0 h0 l0' h0' Hat0 (Hfuel t Ht) Hrun0).
Qed.
End HeapCloneCount.

(** X23: on objects, [deepCloneTree] leaves the heap as it was and adds one
    new object per node: the clone is held in these new objects only, each
    used once, so it shares no object with the tree it was cloned from. *)
Theorem heap_deepCloneTree_fresh (h : list Heap.NodeObj) (node : Heap.loc) (t : TreeNode)
    (fp : list Heap.loc) (fuel : nat) :
  Heap.tree_at h t node fp →
  tree_size t ≤ fuel →
  ∃ clone h' fp',
    Heap.deepCloneTree fuel node h = Some (clone, h')
    ∧ length h' = length h + tree_size t
    ∧ (∀ l, l < length h → h' !! l = h !! l)
    ∧ Heap.tree_at h' t node fp
    ∧ Heap.tree_at h' (deepCloneTree t) clone fp'
    ∧ NoDup fp'
    ∧ (∀ l, l ∈ fp' → length h ≤ l ∧ l ∉ fp).
Proof.
  intros Hat Hfuel.
  destruct (heap_deepCloneTree_ok t fuel node fp h Hat Hfuel)
    as (clone & new & fp' & Hrun & Hclone & Hnd & Hfresh).
  exists clone, (h ++ new), fp'. split_and!; try done.
  - by eapply heap_deepCloneTree_length.
  - intros l Hl. by apply lookup_app_l.
  - by apply tree_at_app.
  - rewrite Forall_forall in Hfresh. intros l Hl. split; [by apply Hfresh|].
    intros Hin. pose proof (tree_at_bound _ _ _ _ Hat) as Hb. rewrite Forall_forall in Hb.
    specialize (Hb l Hin). specialize (Hfresh l Hl). lia.
Qed.

Lemma heap_deepCloneTree_fresh_witness :
  let h := [Heap.mkObj "a" "/r/a" None; Heap.mkObj "r" "/r" (Some [0])] in
  let t := mkNode "r" "/r" (Some [mkNode "a" "/r/a" None]) in
  (Heap.tree_at h t 1 [1; 0] ∧ tree_size t ≤ 2)
  ∧ Heap.deepCloneTree 2 1 h
    = Some (3, h ++ [Heap.mkObj "a" "/r/a" (Some []); Heap.mkObj "r" "/r" (Some [2])]).
Proof.
  intros h t.
  assert (Heap.tree_at h t 1 [1; 0]) as Hat.
  { apply (heap_tree_at_node h _ _ _ 1 [0] [[0]]); [done|].
    split; [|done]. cbn. eexists. by split_and!. }
  assert (tree_size t ≤ 2) as Hfuel by (cbn; lia).
  split; [done|].
  destruct (heap_deepCloneTree_fresh h 1 t [1; 0] 2 Hat Hfuel)
    as (clone & h' & fp' & Hrun & _).
  reflexivity.
Defined.

(** X24: on objects, [pruneChildren] works in place: it returns the very
    node it was given, and afterwards that node holds the pruned tree of
    the value-level [pruneChildren]. It writes only to objects of the tree
    (and allocates the placeholders); every other object is left as it
    was. *)
Theorem heap_pruneChildren_in_place {pathLib : PathModule}
    (h : list Heap.NodeObj) (root : Heap.loc) (t : TreeNode) (fp : list Heap.loc)
    (sel : list string) (fuel : nat) :
  Heap.tree_at h t root fp →
  NoDup fp →
  tree_size t ≤ fuel →
  ∃ h' fp',
    Heap.pruneChildren fuel root sel h = Some (root, h')
    ∧ Heap.tree_at h' (pruneChildren t sel) root fp'
    ∧ NoDup fp'
    ∧ (∀ l, l ∈ fp' → l ∈ fp ∨ length h ≤ l)
    ∧ (∀ l, l < length h → l ∉ fp → h' !! l = h !! l)
    ∧ length h ≤ length h'.
Proof.
  intros Hat Hnd Hfuel.
  destruct (heap_pruneChildren_ok sel t fuel Hfuel root fp h Hat Hnd)
    as (h' & fp' & Hrun & Hlen & Hframe & Hat' & Hnd' & Hsub).
  by exists h', fp'.
Qed.

(** Pruning [root/{x, y}] itself, with [x] selected: the object of the root
    is overwritten, its children now being [x] and a new placeholder. *)
Lemma heap_pruneChildren_in_place_witness :
  let h := [Heap.mkObj "x" "/root/x" (Some []); Heap.mkObj "y" "/root/y" (Some []);
            Heap.mkObj "root" "/root" (Some [0; 1])] in
  let t := mkNode "root" "/root"
             (Some [mkNode "x" "/root/x" (Some []); mkNode "y" "/root/y" (Some [])]) in
  (Heap.tree_at h t 2 [2; 0; 1] ∧ NoDup [2; 0; 1] ∧ tree_size t ≤ 3)
  ∧ Heap.pruneChildren (pathLib := Posix.pathModule "/") 3 2 ["/root/x"] h
    = Some (2, [Heap.mkObj "x" "/root/x" (Some []); Heap.mkObj "y" "/root/y" (Some []);
                Heap.mkObj "root" "/root" (Some [0; 3]); Heap.placeholderObj]).
Proof.
  intros h t.
  assert (Heap.tree_at h t 2 [2; 0; 1]) as Hat.
  { apply (heap_tree_at_node h _ _ _ 2 [0; 1] [[0]; [1]]); [done|].
    split; [|split; [|done]]; by apply (heap_tree_at_node h _ _ [] _ [] []). }
  assert (NoDup [2; 0; 1]) as Hnd by (apply NoDup_ListNoDup; repeat constructor; cbn; lia).
  assert (tree_size t ≤ 3) as Hfuel by (cbn; lia).
  split; [done|].
  destruct (heap_pruneChildren_in_place (pathLib := Posix.pathModule "/")
              h 2 t [2; 0; 1] ["/root/x"] 3 Hat Hnd Hfuel)
    as (h' & fp' & Hrun & _).
  reflexivity.
Defined.

(** ** The older pruner on objects *)

Section HeapOlderPrune.
Context {pathLib : PathModule}.
Implicit Types (h : list Heap.NodeObj) (l : Heap.loc) (fp : list Heap.loc) (t : TreeNode)
  (sel : list string).

Lemma heapOlder_siblingLoop_acc (prune : list Heap.loc → Heap.Run (list Heap.loc)) sel
    (ls acc : list Heap.loc) (flag : bool) h :
  HeapOlder.siblingLoop prune sel ls acc flag h
  = match HeapOlder.siblingLoop prune sel ls [] false h with
    | Some ((kept, had), h') => Some ((acc ++ kept, flag || had), h')
    | None => None
    end.
Proof.
  revert acc flag h. induction ls as [|node rest IH]; intros acc flag h.
  - cbn. unfold Heap.ret. by rewrite app_nil_r, orb_false_r.
  - cbn [HeapOlder.siblingLoop]. unfold mbind, Heap.run_bind.
    destruct (Heap.readObj node h) as [[o h0]|]; [|done].
    destruct (Heap.isRelevant o sel).
    + assert (∀ h1, HeapOlder.siblingLoop prune sel rest (acc ++ [node]) flag h1
                    = match HeapOlder.siblingLoop prune sel rest ([] ++ [node]) false h1 with
                      | Some ((kept, had), h') => Some ((acc ++ kept, flag || had), h')
                      | None => None
                      end) as Hrest.
      { intros h1. rewrite (IH (acc ++ [node])), (IH ([] ++ [node])).
        destruct (HeapOlder.siblingLoop prune sel rest [] false h1) as [[[kept had] h4]|];
          [|done].
        by rewrite <- app_assoc. }
      destruct (Heap.o_children o) as [[|c cs]|]; cbn [Heap.ret]; [apply Hrest| |apply Hrest].
      destruct (prune (c :: cs) h0) as [[pruned h1]|]; [|done].
      destruct (Heap.setChildren node (Some pruned) h1) as [[[] h2]|]; [|done].
      apply Hrest.
    + rewrite (IH acc true), (IH [] true).
      destruct (HeapOlder.siblingLoop prune sel rest [] false h0) as [[[kept had] h4]|];
        [|done].
      by rewrite orb_true_r.
Qed.

(** What the loop does to a relevant node: it prunes the children, if there
    are any, and stores the array returned. *)
Lemma heapOlder_keep_node (fuel : nat) sel t l fp h :
  match children t with
  | Some (c :: cs) => siblingsPrunedInPlace fuel sel (c :: cs)
  | _ => True
  end →
  Heap.tree_at h t l fp → NoDup fp →
  ∀ o, h !! l = Some o →
  ∃ h' fp',
    (match Heap.o_children o with
     | Some (c :: cs) =>
         pruned ← HeapOlder.pruneChildren fuel (c :: cs) sel;
         Heap.setChildren l (Some pruned)
     | _ => Heap.ret ()
     end) h = Some ((), h')
    ∧ length h ≤ length h'
    ∧ (∀ x, x < length h → x ∉ fp → h' !! x = h !! x)
    ∧ Heap.tree_at h' (pruneChildren t sel) l fp'
    ∧ NoDup fp'
    ∧ (∀ x, x ∈ fp' → x ∈ fp ∨ length h ≤ x).
Proof.
  intros Hkids Hat Hnd o Ho.
  destruct t as [n p [[|c cs]|]].
  - pose proof Hat as (o' & Ho' & _ & _ & ls & fps & Hcs & -> & Hall).
    assert (o' = o) as -> by congruence.
    apply all3_nil_inv in Hall as [-> ->]. rewrite Hcs.
    exists h, [l]. split_and!; try done. by left.
  - pose proof Hat as (o' & Ho' & Hn & Hp & ls & fps & Hcs & -> & Hall).
    assert (o' = o) as -> by congruence.
    apply NoDup_cons in Hnd as [Hroot Hnd].
    destruct (Hkids ls fps h Hall Hnd)
      as (h1 & ls' & fps' & Hrun & Hlen & Hframe & Hat' & Hnd' & Hsub).
    assert (l < length h) as Hlt by (by eapply lookup_lt_Some).
    assert (h1 !! l = Some o) as Hl1 by (by rewrite Hframe).
    assert (l ∉ concat fps') as Hroot'.
    { intros Hin. destruct (Hsub l Hin) as [?|?]; [done|lia]. }
    destruct ls as [|l0 ls0]; [by destruct fps|]. rewrite Hcs.
    exists (<[l := Heap.mkObj (Heap.o_name o) (Heap.o_fullPath o) (Some ls')]> h1),
      (l :: concat fps').
    rewrite pruneChildren_children by done. rewrite <- pruneChildrenOf_spec.
    split_and!.
    + rewrite (run_bind_Some _ _ _ _ _ Hrun). unfold Heap.setChildren. by rewrite Hl1.
    + rewrite length_insert. lia.
    + intros x Hx Hnot. rewrite list_lookup_insert_ne by (intros ->; apply Hnot; left).
      apply Hframe; [done|]. intros Hin. apply Hnot. by right.
    + rewrite <- Hn, <- Hp. by apply heap_store_children.
    + by apply NoDup_cons.
    + intros x [->|Hx]%elem_of_cons; [left; left|].
      destruct (Hsub x Hx) as [?|?]; [left; by right|by right].
  - pose proof Hat as (o' & Ho' & _ & _ & Hcs & ->).
    assert (o' = o) as -> by congruence. rewrite Hcs.
    exists h, [l]. split_and!; try done. by left.
Qed.

(** The loop prunes the relevant siblings in place, one after the other. *)
Lemma heapOlder_siblingLoop_ok (fuel : nat) sel (ts : list TreeNode) :
  Forall (fun t => match children t with
                   | Some (c :: cs) => siblingsPrunedInPlace fuel sel (c :: cs)
                   | _ => True
                   end) ts →
  ∀ (ls : list Heap.loc) (fps : list (list Heap.loc)) h,
    Heap.all3 (fun t l fp => Heap.tree_at h t l fp) ts ls fps →
    NoDup (concat fps) →
    ∃ h' keptLs keptFps,
      HeapOlder.siblingLoop (fun nodes => HeapOlder.pruneChildren fuel nodes sel) sel
        ls [] false h
      = Some ((keptLs, hasIrrelevant ts sel), h')
      ∧ length h ≤ length h'
      ∧ (∀ x, x < length h → x ∉ concat fps → h' !! x = h !! x)
      ∧ Heap.all3 (fun t l fp => Heap.tree_at h' t l fp)
          (keptChildren ts sel) keptLs keptFps
      ∧ NoDup (concat keptFps)
      ∧ (∀ x, x ∈ concat keptFps → x ∈ concat fps ∨ length h ≤ x).
Proof.
  induction 1 as [|t ts Ht _ IH]; intros [|l ls] [|fp fps] h; cbn [Heap.all3]; try done.
  - intros _ _. exists h, [], []. split_and!; try done; [constructor|by left].
  - intros [Hfirst Hrest] Hnd. cbn [concat] in Hnd |- *.
    apply NoDup_app in Hnd as (Hnd1 & Hdisj & Hnd2).
    pose proof (all3_tree_at_bound _ _ _ _ Hrest) as Hlt. rewrite Forall_forall in Hlt.
    destruct (tree_at_obj _ _ _ _ Hfirst) as (o & Ho & _).
    cbn [HeapOlder.siblingLoop]. rewrite (run_bind_Some _ _ _ _ _ (readObj_Some _ _ _ Ho)).
    rewrite (heap_isRelevant _ _ _ _ _ sel Hfirst Ho).
    rewrite keptChildren_cons, hasIrrelevant_cons.
    destruct (isRelevant t sel) eqn:Hrel; cbn [negb orb].
    + destruct (heapOlder_keep_node fuel sel t l fp h Ht Hfirst Hnd1 o Ho)
        as (h1 & fp1 & Hrun1 & Hlen1 & Hframe1 & Hat1 & Hnd1' & Hsub1).
      rewrite (run_bind_Some _ _ _ _ _ Hrun1).
      rewrite heapOlder_siblingLoop_acc.
      destruct (IH ls fps h1)
        as (h2 & keptLs & keptFps & -> & Hlen2 & Hframe2 & Hat2 & Hnd2' & Hsub2).
      { eapply all3_tree_at_agree; [exact Hrest|]. intros x Hx.
        apply Hframe1; [by apply Hlt|]. intros Hx1. by apply (Hdisj x). }
      { done. }
      pose proof (tree_at_bound _ _ _ _ Hat1) as Hlt1. rewrite Forall_forall in Hlt1.
      assert (∀ x, x ∈ fp1 → x ∉ concat fps) as Hfresh1.
      { intros x Hx Hx'. destruct (Hsub1 x Hx) as [Hin|Hge].
        - by apply (Hdisj x).
        - specialize (Hlt x Hx'). lia. }
      exists h2, (l :: keptLs), (fp1 :: keptFps). split_and!.
      * done.
      * lia.
      * intros x Hx Hnot. rewrite Hframe2, Hframe1; [done|done| |lia|].
        -- intros Hx1. apply Hnot, elem_of_app. by left.
        -- intros Hx2. apply Hnot, elem_of_app. by right.
      * cbn [Heap.all3]. split; [|done].
        eapply tree_at_agree; [exact Hat1|]. intros x Hx.
        apply Hframe2; [by apply Hlt1|by apply Hfresh1].
      * cbn [concat]. apply NoDup_app. split_and!; [done| |done].
        intros x Hx1 Hx2. destruct (Hsub2 x Hx2) as [Hin|Hge].
        -- by apply (Hfresh1 x).
        -- specialize (Hlt1 x Hx1). lia.
      * cbn [concat]. intros x [Hx|Hx]%elem_of_app.
        -- destruct (Hsub1 x Hx) as [?|?]; [left; apply elem_of_app; by left|by right].
        -- destruct (Hsub2 x Hx) as [?|?]; [left; apply elem_of_app; by right|right; lia].
    + rewrite heapOlder_siblingLoop_acc.
      destruct (IH ls fps h Hrest Hnd2)
        as (h2 & keptLs & keptFps & -> & Hlen2 & Hframe2 & Hat2 & Hnd2' & Hsub2).
      exists h2, keptLs, keptFps. split_and!; try done.
      * intros x Hx Hnot. apply Hframe2; [done|]. intros Hx2. apply Hnot, elem_of_app. by right.
      * intros x Hx. destruct (Hsub2 x Hx) as [?|?]; [left; apply elem_of_app; by right|by right].
Qed.

(** The older [pruneChildren] prunes the siblings it is given in place. *)
Lemma heapOlder_pruneChildren_ok sel (fuel : nat) (ts : list TreeNode) :
  sum_list (map tree_size ts) < fuel → siblingsPrunedInPlace fuel sel ts.
Proof.
  revert ts. induction fuel as [|fuel IH]; intros ts Hfuel; [lia|].
  intros ls fps h Hall Hnd.
  destruct (heapOlder_siblingLoop_ok fuel sel ts) with (ls := ls) (fps := fps) (h := h)
    as (h1 & keptLs & keptFps & Hloop & Hlen1 & Hframe1 & Hat1 & Hnd1 & Hsub1);
    [|done|done|].
  { apply Forall_forall. intros t Ht. destruct t as [n p [[|c cs]|]]; [done| |done].
    cbn [children]. apply IH. apply sum_list_tree_size_elem in Ht. cbn [tree_size] in Ht.
    lia. }
  pose proof (all3_tree_at_bound _ _ _ _ Hat1) as Hlt1. rewrite Forall_forall in Hlt1.
  cbn [HeapOlder.pruneChildren]. rewrite (run_bind_Some _ _ _ _ _ Hloop).
  rewrite pruneChildrenOf_spec.
  destruct (hasIrrelevant ts sel).
  - set (ph := length h1).
    exists (h1 ++ [Heap.placeholderObj]), (keptLs ++ [ph]), (keptFps ++ [[ph]]).
    split_and!.
    + done.
    + rewrite length_app. lia.
    + intros x Hx Hnot. rewrite lookup_app_l by lia. by apply Hframe1.
    + apply all3_app; [by apply all3_tree_at_app|].
      cbn. split; [|done]. eexists. rewrite lookup_app_r, Nat.sub_diag by done.
      cbn. split_and!; [done..|]. by exists [], [].
    + rewrite concat_app. cbn [concat app].
      apply NoDup_app. split_and!; [done| |apply NoDup_singleton].
      intros x Hx Hph%list_elem_of_singleton. specialize (Hlt1 x Hx). subst ph. lia.
    + rewrite concat_app. cbn [concat app].
      intros x [Hx | ->%list_elem_of_singleton]%elem_of_app; [by apply Hsub1|].
      right. subst ph. lia.
  - exists h1, keptLs, keptFps. by rewrite !app_nil_r.
Qed.
End HeapOlderPrune.

(** X25: the older [pruneTreeForSelection], on objects: given fuel for the
    size of the tree, it returns and leaves every object of the input heap
    as it was, so the input still holds the full tree; what it returns is
    the tree of the value-level [pruneTreeForSelection], held in objects
    that were all allocated by the call, each used once. *)
Theorem pruneTreeForSelection_leaves_input_unmodified {pathLib : PathModule}
    (h : list Heap.NodeObj) (root : Heap.loc) (t : TreeNode) (fp : list Heap.loc)
    (sel : list string) (fuel : nat) :
  Heap.tree_at h t root fp →
  tree_size t ≤ fuel →
  ∃ out h' fp',
    HeapOlder.pruneTreeForSelection fuel root sel h = Some (out, h')
    ∧ Heap.tree_at h' (pruneTreeForSelection t sel) out fp' ∧ NoDup fp'
    ∧ (∀ l, l < length h → h' !! l = h !! l)
    ∧ Heap.tree_at h' t root fp
    ∧ (∀ l, l ∈ fp' → length h ≤ l).
Proof.
  intros Hat Hfuel.
  destruct (heap_deepCloneTree_ok t fuel root fp h Hat Hfuel)
    as (c & new & fpc & Hclone & Hatc & Hndc & Hfreshc).
  rewrite Forall_forall in Hfreshc.
  rewrite pruneTreeForSelection_keeps_root.
  assert (deepCloneTree t
          = mkNode (name t) (fullPath t) (Some (map deepCloneTree (default [] (children t)))))
    as Hshape by (by destruct t as [n p [cs|]]).
  pose proof Hatc as Hatc'. rewrite Hshape in Hatc'.
  destruct Hatc' as (o & Ho & Hn & Hp & ls & fps & Hcs & -> & Hall).
  apply NoDup_cons in Hndc as [Hroot Hndc].
  destruct (heapOlder_pruneChildren_ok sel fuel (map deepCloneTree (default [] (children t))))
    with (ls := ls) (fps := fps) (h := h ++ new)
    as (h1 & ls' & fps' & Hrun & Hlen & Hframe & Hat' & Hnd' & Hsub); [|done|done|].
  { pose proof (tree_size_deepCloneTree t) as Hsize. rewrite Hshape in Hsize.
    cbn [tree_size] in Hsize. lia. }
  assert (c < length (h ++ new)) as Hlt by (by eapply lookup_lt_Some).
  assert (h1 !! c = Some o) as Ho1 by (by rewrite Hframe).
  assert (c ∉ concat fps') as Hroot'.
  { intros Hin. destruct (Hsub c Hin) as [?|?]; [done|lia]. }
  exists c, (<[c := Heap.mkObj (Heap.o_name o) (Heap.o_fullPath o) (Some ls')]> h1),
    (c :: concat fps').
  assert (∀ l, l < length h →
            <[c := Heap.mkObj (Heap.o_name o) (Heap.o_fullPath o) (Some ls')]> h1 !! l
            = h !! l) as Hkept.
  { intros l Hl. pose proof (Hfreshc c (list_elem_of_here _ _)) as Hc.
    rewrite list_lookup_insert_ne by lia. rewrite Hframe.
    - by apply lookup_app_l.
    - rewrite length_app. lia.
    - intros Hin. assert (length h ≤ l) by (apply Hfreshc; by right). lia. }
  split_and!.
  - unfold HeapOlder.pruneTreeForSelection. rewrite (run_bind_Some _ _ _ _ _ Hclone).
    rewrite (run_bind_Some _ _ _ _ _ (readObj_Some _ _ _ Ho)). rewrite Hcs.
    rewrite (run_bind_Some _ _ _ _ _ Hrun).
    unfold mbind, Heap.run_bind, Heap.setChildren. by rewrite Ho1.
  - rewrite <- Hn, <- Hp. by apply heap_store_children.
  - by apply NoDup_cons.
  - done.
  - eapply tree_at_agree; [exact Hat|]. intros x Hx. apply Hkept.
    pose proof (tree_at_bound _ _ _ _ Hat) as Hb. rewrite Forall_forall in Hb. by apply Hb.
  - intros l [->|Hl]%elem_of_cons; [apply Hfreshc; left|].
    destruct (Hsub l Hl) as [Hin|Hge]; [apply Hfreshc; by right|].
    rewrite length_app in Hge. lia.
Qed.

(** [root/{x/{p, q}, y}] in five objects, with [x] selected. *)
Lemma pruneTreeForSelection_leaves_input_unmodified_witness :
  let h := [Heap.mkObj "p" "/root/x/p" (Some []); Heap.mkObj "q" "/root/x/q" (Some []);
            Heap.mkObj "x" "/root/x" (Some [0; 1]); Heap.mkObj "y" "/root/y" (Some []);
            Heap.mkObj "root" "/root" (Some [2; 3])] in
  let x := mkNode "x" "/root/x"
             (Some [mkNode "p" "/root/x/p" (Some []); mkNode "q" "/root/x/q" (Some [])]) in
  let t := mkNode "root" "/root" (Some [x; mkNode "y" "/root/y" (Some [])]) in
  (Heap.tree_at h t 4 [4; 2; 0; 1; 3] ∧ tree_size t ≤ 5)
  ∧ ∃ out h',
      HeapOlder.pruneTreeForSelection (pathLib := Posix.pathModule "/") 5 4 ["/root/x"] h
      = Some (out, h')
      ∧ (∀ l, l < length h → h' !! l = h !! l)
      ∧ Heap.renderTree 6 h' out "" true
        = Some (render (mkNode "root" "/root" (Some [x; placeholder]))).
Proof.
  intros h x t.
  assert (Heap.tree_at h t 4 [4; 2; 0; 1; 3]) as Hat.
  { apply (heap_tree_at_node h _ _ _ 4 [2; 3] [[2; 0; 1]; [3]]); [done|].
    split; [|split; [|done]].
    - apply (heap_tree_at_node h _ _ _ 2 [0; 1] [[0]; [1]]); [done|].
      split; [|split; [|done]]; by apply (heap_tree_at_node h _ _ [] _ [] []).
    - by apply (heap_tree_at_node h _ _ [] _ [] []). }
  assert (tree_size t ≤ 5) as Hfuel by (cbn; lia).
  split; [done|].
  destruct (pruneTreeForSelection_leaves_input_unmodified (pathLib := Posix.pathModule "/")
              h 4 t [4; 2; 0; 1; 3] ["/root/x"] 5 Hat Hfuel)
    as (out & h' & fp' & Hrun & Hout & _ & Hframe & _).
  exists out, h'. split_and!; [done..|].
  rewrite (heap_renderTree_ok _ 6 h' out fp' "" true Hout); [reflexivity|].
  vm_compute. lia.
Defined.

(** ** The command *)


Lemma script_bind_call {A B : Type} (result : outcome A) (k : A → Script B) :
  (call result ≫= k)
  = match result with
    | Returns a => k a
    | Throws e => ([], Throws e)
    end.
Proof.
  unfold mbind, script_bind, call. cbn [fst snd]. destruct result as [a|e]; [|done].
  by destruct (k a).
Qed.

Section CommandFacts.
Context {pathLib : PathModule} {regexpLib : RegExpEngine}.

End CommandFacts.


Section CommandSelections.
Context {pathLib : PathModule}.

Lemma selectionPaths_none (fullTree : TreeNode) (sel : list string) :
  (∀ s m, s ∈ sel → m ∈ tree_nodes fullTree →
          path_normalize (fullPath m) ≠ path_normalize s) →
  selectionPaths fullTree sel = [].
Proof.
  intros Habsent. unfold selectionPaths.
  induction sel as [|s sel IH]; [done|]. cbn [omap list_omap].
  assert (findPath fullTree s = None) as ->.
  { apply findPath_None, Forall_forall. intros m Hm. apply Habsent; [left|done]. }
  apply IH. intros s' m Hs'. apply Habsent. by right.
Qed.
End CommandSelections.

(** X27: when none of the valid selected folders is in the workspace tree
    (a folder that the exclude patterns left out, for one), the current
    command does not fail: it copies the one line of the node [(empty)]. *)
Theorem generateTree_selection_not_in_tree {pathLib : PathModule} {regexpLib : RegExpEngine}
    (host : Host) (firstSelection : option string) (allSelections : option (list string))
    (workspacePath : string) (others : list string) (fullTree : TreeNode)
    (folderSelections : list string) :
  workspaceFolders host = Some (workspacePath :: others) →
  buildTree workspacePath (fileSystem host workspacePath) (default [] (excludeSetting host))
  = Returns fullTree →
  filterOutcome (validSelection host workspacePath) (selectedUris firstSelection allSelections)
  = Returns folderSelections →
  folderSelections ≠ [] →
  (∀ s m, s ∈ folderSelections → m ∈ tree_nodes fullTree →
          path_normalize (fullPath m) ≠ path_normalize s) →
  generateTree host firstSelection allSelections
  = match clipboard_writeText host ("└── (empty)" +:+ LF) with
    | Returns _ =>
        ([WriteText ("└── (empty)" +:+ LF);
          ShowInformationMessage "Pruned folder tree copied to clipboard!"], Returns ())
    | Throws e => ([WriteText ("└── (empty)" +:+ LF)], Throws e)
    end.
Proof.
  intros Hws Hbuild Hsel Hvalid Habsent. unfold generateTree. rewrite Hws.
  destruct (selectedUris firstSelection allSelections) as [|uri uris] eqn:Huris.
  { cbn in Hsel. by injection Hsel as <-. }
  cbn [length Nat.eqb]. rewrite script_bind_call. cbn [workspacePathOf].
  rewrite script_bind_call, Hbuild, script_bind_call, Hsel.
  destruct folderSelections as [|s sel]; [done|]. cbn [length Nat.eqb].
  rewrite script_bind_call. unfold buildPrunedTree.
  by rewrite (selectionPaths_none fullTree (s :: sel) Habsent).
Qed.

(** The folder [dist] is excluded from the tree, and selected. *)
Lemma generateTree_selection_not_in_tree_witness :
  let host := {| workspaceFolders := Some ["/work"];
                 excludeSetting := Some ["dist"];
                 fileSystem := fun _ => FsDir [("src", FsDir []); ("dist", FsDir [])];
                 existsSync := fun _ => true;
                 lstatSync_isDirectory := fun _ => Returns true;
                 clipboard_writeText := fun _ => Returns () |} in
  let fullTree := mkNode "work" "/work" (Some [mkNode "src" "/work/src" (Some [])]) in
  (workspaceFolders host = Some ["/work"]
   ∧ buildTree (pathLib := Posix.pathModule "/") (regexpLib := Regex.engine)
       "/work" (fileSystem host "/work") (default [] (excludeSetting host))
     = Returns fullTree
   ∧ filterOutcome (validSelection (pathLib := Posix.pathModule "/") host "/work")
       (selectedUris None (Some ["/work/dist"])) = Returns ["/work/dist"]
   ∧ ["/work/dist"] ≠ []
   ∧ ∀ s m, s ∈ ["/work/dist"] → m ∈ tree_nodes fullTree →
            Posix.normalize (fullPath m) ≠ Posix.normalize s)
  ∧ generateTree (pathLib := Posix.pathModule "/") (regexpLib := Regex.engine)
      host None (Some ["/work/dist"])
    = ([WriteText ("└── (empty)" +:+ LF);
        ShowInformationMessage "Pruned folder tree copied to clipboard!"], Returns ()).
Proof.
  intros host fullTree.
  assert (∀ s m, s ∈ ["/work/dist"] → m ∈ tree_nodes fullTree →
                 Posix.normalize (fullPath m) ≠ Posix.normalize s) as Habsent.
  { intros s m ->%list_elem_of_singleton Hm. cbn in Hm.
    apply elem_of_cons in Hm as [->|Hm]; [done|].
    apply list_elem_of_singleton in Hm as ->. done. }
  assert (["/work/dist"] ≠ []) as Hvalid by done.
  split; [by split_and!|].
  exact (generateTree_selection_not_in_tree (pathLib := Posix.pathModule "/")
           (regexpLib := Regex.engine) host None (Some ["/work/dist"]) "/work" [] fullTree
           ["/work/dist"] eq_refl eq_refl eq_refl Hvalid Habsent).
Defined.

Section OlderCommandFacts.
Context {pathLib : PathModule}.

End OlderCommandFacts.


Section EarlierCommandFacts.
Context {pathLib : PathModule} {regexpLib : RegExpEngine}.

Lemma renderTree_js_itemOf (t : TreeNode) :
  (∀ m, m ∈ tree_nodes t → name m = nodeName (fullPath m)) →
  (∀ m, m ∈ tree_nodes t → path_basename (fullPath m) ≠ "") →
  renderTree_js (itemOf t) "" true = render t.
Proof.
  intros Hnames Hbase. rewrite itemOf_forgetPath.
  - unfold render. by rewrite renderTree_js_treeLines, renderTree_treeLines.
  - apply Forall_forall. intros m Hm. rewrite (Hnames m Hm). unfold nodeName.
    destruct (String.eqb_spec (path_basename (fullPath m)) ""); [|done].
    by destruct (Hbase m Hm).
Qed.
End EarlierCommandFacts.

(** X29: the earliest command and the compiled extension.js copy the whole
    workspace tree: each is its pipeline run on the tree [t] that the
    current [buildTree] returns for the workspace root (and fails where that
    build fails), with every node named by [path.basename] of its path; when
    no path in the tree has an empty base name, the text shown and copied is
    [render t]. *)
Theorem generateTree_earlier_copy_full_tree {pathLib : PathModule} {regexpLib : RegExpEngine}
    (host : Host) (editor : Editor) :
  generateTree_earliest host
  = match workspaceFolders host with
    | None => showErrorMessage "No workspace folder is open."
    | Some folders =>
        workspacePath ← call (workspacePathOf folders);
        t ← call (buildTree workspacePath (fileSystem host workspacePath)
                    (default [] (excludeSetting host)));
        writeText host (renderTree_js (itemOf t) "" true);;
        showInformationMessage "Folder tree copied to clipboard! Paste it anywhere."
    end
  ∧ generateTree_js host editor
    = match workspaceFolders host with
      | None => showErrorMessage "No workspace folder is open."
      | Some folders =>
          workspacePath ← call (workspacePathOf folders);
          t ← call (buildTree workspacePath (fileSystem host workspacePath)
                      (default [] (excludeSetting host)));
          showInEditor editor (renderTree_js (itemOf t) "" true);;
          writeText host (renderTree_js (itemOf t) "" true);;
          showInformationMessage "Folder tree copied to clipboard! Paste it anywhere."
      end
  ∧ ∀ workspacePath t,
      buildTree workspacePath (fileSystem host workspacePath)
        (default [] (excludeSetting host)) = Returns t →
      (∀ m, m ∈ tree_nodes t → path_basename (fullPath m) ≠ "") →
      renderTree_js (itemOf t) "" true = render t.
Proof.
  split_and!.
  - unfold generateTree_earliest. destruct (workspaceFolders host) as [folders|]; [|done].
    rewrite !script_bind_call. destruct (workspacePathOf folders) as [workspacePath|]; [|done].
    rewrite !script_bind_call, buildTree_js_itemOf. by destruct (buildTree _ _ _).
  - unfold generateTree_js. destruct (workspaceFolders host) as [folders|]; [|done].
    rewrite !script_bind_call. destruct (workspacePathOf folders) as [workspacePath|]; [|done].
    rewrite !script_bind_call, buildTree_js_itemOf. by destruct (buildTree _ _ _).
  - intros workspacePath t Ht Hbase. apply renderTree_js_itemOf; [|done].
    intros m Hm. apply buildTree_nodes in Ht. rewrite Forall_forall in Ht.
    by destruct (Ht m Hm).
Qed.
